(** * Constraint Solver for FUN programs: the solver worker

    A shallow embedding of [solver.ts] (scope resolution, entry store, rule
    translation, worklist drain, result formatting) together with the parts of
    [program.d.ts], [rules.d.ts] and [environment.d.ts] it works on.

    Conventions of the embedding.
    - A JavaScript [number] is an integer of [Z]: the parser only produces
      integer labels and integer literals.
    - A [Map] or [Set] whose iteration order is observable is a list in
      insertion order; a plain object used as a dictionary is a [gmap].
    - Mutable objects that are shared (Entry) live in a store and are named by
      their position in it; state is passed explicitly.
    - A [throw] is the [Throw] case of [Result]. *)

From stdpp Require Import base decidable option list strings gmap pretty sorting.
From Stdlib Require OrderedTypeEx.

Local Open Scope string_scope.
Local Open Scope Z_scope.
Local Open Scope list_scope.

(** ** program.d.ts *)

Inductive Operators :=
  | OpAdd | OpSub | OpMul | OpDiv | OpLt | OpGt | OpLe | OpGe | OpEq | OpNe | OpOr | OpAnd.

(** The source position ([line], [column]) of a node is never read by the
    solver and is left out; [label] is the first field of every variant. *)
Inductive Expression :=
  | NumericConstantExpression (label : Z) (value : Z)
  | BooleanConstantExpression (label : Z) (truth : bool)
  | VariableExpression (label : Z) (name : string)
  | OperationExpression (label : Z) (op : Operators) (left right : Expression)
  | IfExpression (label : Z) (condition thenBody elseBody : Expression)
  | FnExpression (label : Z) (variable : string) (body : Expression)
  | FunExpression (label : Z) (name variable : string) (body : Expression)
  | ApplicationExpression (label : Z) (callable argument : Expression)
  | LetExpression (label : Z) (variable : string) (value body : Expression).

Global Instance Operators_eq_dec : EqDecision Operators.
Proof. solve_decision. Defined.

Global Instance Expression_eq_dec : EqDecision Expression.
Proof. solve_decision. Defined.

Definition operator_type (op : Operators) : string :=
  match op with
  | OpAdd => "+" | OpSub => "-" | OpMul => "*" | OpDiv => "/"
  | OpLt => "<" | OpGt => ">" | OpLe => "<=" | OpGe => ">="
  | OpEq => "==" | OpNe => "!=" | OpOr => "||" | OpAnd => "&&"
  end.

(** [expression.type], the discriminating tag of the union. *)
Definition type (expression : Expression) : string :=
  match expression with
  | NumericConstantExpression _ _ => "n"
  | BooleanConstantExpression _ true => "true"
  | BooleanConstantExpression _ false => "false"
  | VariableExpression _ _ => "var"
  | OperationExpression _ op _ _ => operator_type op
  | IfExpression _ _ _ _ => "if"
  | FnExpression _ _ _ => "fn"
  | FunExpression _ _ _ _ => "fun"
  | ApplicationExpression _ _ _ => "app"
  | LetExpression _ _ _ _ => "let"
  end.

Definition label (expression : Expression) : Z :=
  match expression with
  | NumericConstantExpression l _ | BooleanConstantExpression l _
  | VariableExpression l _ | OperationExpression l _ _ _
  | IfExpression l _ _ _ | FnExpression l _ _ | FunExpression l _ _ _
  | ApplicationExpression l _ _ | LetExpression l _ _ _ => l
  end.

(** [expression.name] and [expression.variable]: a property a variant does not
    have reads as [undefined]. *)
Definition name (expression : Expression) : option string :=
  match expression with
  | VariableExpression _ n | FunExpression _ n _ _ => Some n
  | _ => None
  end.

Definition variable (expression : Expression) : option string :=
  match expression with
  | FnExpression _ v _ | FunExpression _ _ v _ | LetExpression _ v _ _ => Some v
  | _ => None
  end.

(** ** Outcomes

    The first four errors are the [TypeError]s the solver throws.
    [NonTermination] is not thrown by any code: it is the outcome of a drain
    loop that does not come to an end (see [drain]). *)

Inductive Error :=
  | UnboundVariable (label : Z) (name : string)
  | NameCollision (label : Z) (name : string)
  | UnknownLabel (label : Z)
  | UnknownReference
  | NonTermination.

Inductive Result (A : Type) :=
  | OK (a : A)
  | Throw (e : Error).
Arguments OK {A} a.
Arguments Throw {A} e.

Global Instance Result_bind : MBind Result := λ A B k r,
  match r with
  | OK a => k a
  | Throw e => Throw e
  end.

(** ** Scope resolution: [collectExpressions] *)

(** What [context[name]] evaluates to.  [Context] objects are plain objects
    built by [Object.fromEntries], so a property read that finds no own
    property continues in [Object.prototype]. *)
Inductive Binding :=
  | Declared (label : Z)
  | Inherited (property : string).

Global Instance Binding_eq_dec : EqDecision Binding.
Proof. solve_decision. Defined.

Definition objectPrototype : list string :=
  [ "constructor"; "__defineGetter__"; "__defineSetter__"; "hasOwnProperty";
    "__lookupGetter__"; "__lookupSetter__"; "isPrototypeOf";
    "propertyIsEnumerable"; "toString"; "valueOf"; "__proto__";
    "toLocaleString" ].

(** [context[name]]; [None] is [undefined]. *)
Definition context_get (context : gmap string Z) (name : string) : option Binding :=
  match context !! name with
  | Some l => Some (Declared l)
  | None => if decide (name ∈ objectPrototype) then Some (Inherited name) else None
  end.

(** [Object.fromEntries(Object.entries(context).concat(names.map(name =>
    [name, expression.label])))]: a later pair overrides an earlier one. *)
Definition extendContext (context : gmap string Z) (label : Z) (names : list string)
    : gmap string Z :=
  foldl (λ c name, <[name := label]> c) context names.

(** The three indices filled by the traversal.  [expressions] holds each [Set]
    in insertion order and [labelOfvariableDeclaration] is the [Map] in
    insertion order.  The traversal meets every node object of the tree once,
    so each [add] and each [set] it makes puts a new element last. *)
Record Index := {
  expressionByLabel : gmap Z Expression;
  expressions : gmap string (list Expression);
  labelOfvariableDeclaration : list (Expression * Binding)
}.

Definition emptyIndex : Index :=
  {| expressionByLabel := ∅; expressions := ∅; labelOfvariableDeclaration := [] |}.

(** [Set.prototype.add] on an insertion-ordered set. *)
Definition set_add {A} `{EqDecision A} (x : A) (s : list A) : list A :=
  if decide (x ∈ s) then s else s ++ [x].

(** [Map.prototype.get] and [Map.prototype.set] on an insertion-ordered map.
    A rule names a node by the node object; [map_get] finds it by its value,
    which names one node of a tree whose labels are distinct. *)
Fixpoint map_get {K V} `{EqDecision K} (k : K) (m : list (K * V)) : option V :=
  match m with
  | [] => None
  | (k', v) :: m => if decide (k = k') then Some v else map_get k m
  end.

Fixpoint map_set {K V} `{EqDecision K} (k : K) (v : V) (m : list (K * V)) : list (K * V) :=
  match m with
  | [] => [(k, v)]
  | (k', v') :: m => if decide (k = k') then (k, v) :: m else (k', v') :: map_set k v m
  end.

(** [expressions.get(type)], with an absent collection read as empty. *)
Definition collected (ix : Index) (type : string) : list Expression :=
  default [] (expressions ix !! type).

(** The first four statements of [collectExpressions]. *)
Definition register (expression : Expression) (ix : Index) : Index :=
  {| expressionByLabel := <[label expression := expression]> (expressionByLabel ix);
     expressions :=
       <[type expression := (collected ix (type expression) ++ [expression])]> (expressions ix);
     labelOfvariableDeclaration := labelOfvariableDeclaration ix |}.

Definition declare (expression : Expression) (b : Binding) (ix : Index) : Index :=
  {| expressionByLabel := expressionByLabel ix;
     expressions := expressions ix;
     labelOfvariableDeclaration := labelOfvariableDeclaration ix ++ [(expression, b)] |}.

Fixpoint collectExpressions (expression : Expression) (context : gmap string Z) (ix : Index)
    : Result Index :=
  let ix := register expression ix in
  match expression with
  | NumericConstantExpression _ _ | BooleanConstantExpression _ _ => OK ix
  | VariableExpression l x =>
      match context_get context x with
      | Some b => OK (declare expression b ix)
      | None => Throw (UnboundVariable l x)
      end
  | OperationExpression _ _ lhs rhs =>
      ix ← collectExpressions lhs context ix;
      collectExpressions rhs context ix
  | IfExpression _ condition thenBody elseBody =>
      ix ← collectExpressions condition context ix;
      ix ← collectExpressions thenBody context ix;
      collectExpressions elseBody context ix
  | FnExpression l x body =>
      collectExpressions body (extendContext context l [x]) ix
  | FunExpression l f x body =>
      if decide (f = x) then Throw (NameCollision l f)
      else collectExpressions body (extendContext context l [f; x]) ix
  | ApplicationExpression _ callable argument =>
      ix ← collectExpressions callable context ix;
      collectExpressions argument context ix
  | LetExpression l x value body =>
      ix ← collectExpressions value context ix;
      collectExpressions body (extendContext context l [x]) ix
  end.

(** [getExpressionByLabel], the [label] function of the environment. *)
Definition getExpressionByLabel (ix : Index) (label : Z) : Result Expression :=
  match expressionByLabel ix !! label with
  | Some e => OK e
  | None => Throw (UnknownLabel label)
  end.

(** [getExpressionsOfType], the [type] function of the environment, is a
    generator function: a call runs none of its body and returns a generator
    object.  The object is its suspended frame: [delegate] is what the
    iterator of the collection under [yield*] has not reached and [remaining]
    the types the loop has not reached.  The index is not written once the
    traversal is over, so the frame can hold the collection itself. *)
Record Generator := { delegate : list Expression; remaining : list string }.

Definition getExpressionsOfType (types : list string) : Generator :=
  {| delegate := []; remaining := types |}.

(** Running the loop up to the next [yield]. *)
Fixpoint resume (ix : Index) (types : list string) : option (Expression * Generator) :=
  match types with
  | [] => None
  | type :: types =>
      match expressions ix !! type with
      | Some (e :: collection) => Some (e, {| delegate := collection; remaining := types |})
      | _ => resume ix types
      end
  end.

(** [generator.next()]: [None] is [{ done: true }]. *)
Definition next (ix : Index) (g : Generator) : option (Expression * Generator) :=
  match delegate g with
  | e :: collection => Some (e, {| delegate := collection; remaining := remaining g |})
  | [] => resume ix (remaining g)
  end.

(** [[...generator]] or a [for...of] loop to its end: the elements and the
    generator as it is left.  A generator is its own iterator, so a second
    loop continues where the first one stopped.  [None] is a loop still
    running when [fuel] is used up. *)
Fixpoint iterate (ix : Index) (fuel : nat) (g : Generator)
    : option (list Expression * Generator) :=
  match next ix g with
  | None => Some ([], {| delegate := []; remaining := [] |})
  | Some (e, g) =>
      match fuel with
      | O => None
      | S fuel => r ← iterate ix fuel g; Some (e :: r.1, r.2)
      end
  end.

(** ** rules.d.ts *)

(** [string | number]: the values of an analysis and the keys of entries. *)
Inductive Atom :=
  | Num (n : Z)
  | Str (s : string).

Global Instance Atom_eq_dec : EqDecision Atom.
Proof. solve_decision. Defined.

Inductive Reference :=
  | ExpressionReference (expression : Expression)
  | VariableReference (variable : Expression)
  | BoundVariableReference (boundVariable : Expression)
  | FunctionVariableReference (functionVariable : Expression).

(** A [dynamic] callback is a function of the data of its dependencies, given
    in insertion order, to the values it yields, in the order it yields them:
    it is pure and its result does not change while [enactRule] consumes it. *)
Inductive Lhs :=
  | Constant (constant : Atom)
  | Ref (reference : Reference)
  | Dynamic (dynamic : list (list Atom) → list Atom) (dependencies : list Reference).

Record Rule := { lhs : Lhs; rhs : Reference }.

(** ** Entry store *)

(** A translated rule.  [tlhs] is the [lhs] property: an array for a constant,
    a getter over entries otherwise.  Entries are named by their position in
    the store.  [uid] stands for the identity of the object: [defineRule]
    creates a new one on every call. *)
Inductive Getter :=
  | Values (values : list Atom)
  | Computed (dynamic : list (list Atom) → list Atom) (dependencies : list nat)
  | Data (entry : nat).

Record TranslatedRule := { uid : nat; tlhs : Getter; trhs : nat }.

(** The optional [constant] property of an Entry is never written nor read. *)
Record Entry := { key : Atom; data : list Atom; rules : list TranslatedRule }.

(** [entries] is the [Map] from id to Entry, in insertion order; [worklist] is
    the [Set] of entries, in insertion order; [allocated] counts the translated
    rules created so far. *)
Record State := {
  entries : list (string * Entry);
  worklist : list nat;
  allocated : nat
}.

Definition initialState : State := {| entries := []; worklist := []; allocated := 0 |}.

(** A template literal's conversion of a [string | number]. *)
Definition toString (a : Atom) : string :=
  match a with
  | Num n => pretty n
  | Str s => s
  end.

Definition entryId (category : string) (key : Atom) : string :=
  category +:+ "(" +:+ toString key +:+ ")".

Definition getOrCreateEntry (category : string) (key : Atom) (st : State) : nat * State :=
  let id := entryId category key in
  match list_find (λ e, e.1 = id) (entries st) with
  | Some (existingEntry, _) => (existingEntry, st)
  | None =>
      let createdEntry := {| key := key; data := []; rules := [] |} in
      (length (entries st),
       {| entries := entries st ++ [(id, createdEntry)];
          worklist := worklist st;
          allocated := allocated st |})
  end.

(** A template literal's conversion of an optional string property and of the
    value found in [labelOfvariableDeclaration]. *)
Definition orUndefined (s : option string) : string := default "undefined" s.

Definition bindingToString (b : Binding) : string :=
  match b with
  | Declared l => pretty l
  | Inherited "__proto__" => "[object Object]"
  | Inherited "constructor" => "function Object() { [native code] }"
  | Inherited p => "function " +:+ p +:+ "() { [native code] }"
  end.

(** The category and key [getEntryFromReference] passes to
    [getOrCreateEntry]. *)
Definition referenceKey (ix : Index) (ref : Reference) : Result (string * Atom) :=
  match ref with
  | VariableReference v =>
      match map_get v (labelOfvariableDeclaration ix) with
      | Some b => OK ("p", Str (orUndefined (name v) +:+ "#" +:+ bindingToString b))
      | None => Throw UnknownReference
      end
  | BoundVariableReference b =>
      OK ("p", Str (orUndefined (variable b) +:+ "#" +:+ pretty (label b)))
  | FunctionVariableReference f =>
      OK ("p", Str (orUndefined (name f) +:+ "#" +:+ pretty (label f)))
  | ExpressionReference e => OK ("C", Num (label e))
  end.

Definition getEntryFromReference (ix : Index) (ref : Reference) (st : State)
    : Result (nat * State) :=
  ck ← referenceKey ix ref;
  OK (getOrCreateEntry ck.1 ck.2 st).

(** ** Rule translation and enactment *)

Definition alterEntry (f : Entry → Entry) (e : nat) (st : State) : State :=
  {| entries := alter (λ ie, (ie.1, f ie.2)) e (entries st);
     worklist := worklist st;
     allocated := allocated st |}.

Definition dataOf (st : State) (e : nat) : list Atom :=
  from_option (λ ie, data ie.2) [] (entries st !! e).

Definition rulesOf (st : State) (e : nat) : list TranslatedRule :=
  from_option (λ ie, rules ie.2) [] (entries st !! e).

(** [entry.data.add(value)], for a value the set does not have. *)
Definition dataAdd (value : Atom) (en : Entry) : Entry :=
  {| key := key en; data := data en ++ [value]; rules := rules en |}.

(** [entry.rules.add(rule)]. *)
Definition rulesAdd (rule : TranslatedRule) (en : Entry) : Entry :=
  {| key := key en;
     data := data en;
     rules := if decide (uid rule ∈ uid <$> rules en) then rules en
              else rules en ++ [rule] |}.

Definition worklistAdd (e : nat) (st : State) : State :=
  {| entries := entries st; worklist := set_add e (worklist st); allocated := allocated st |}.

(** Reading [rule.lhs]. *)
Definition evaluate (st : State) (g : Getter) : list Atom :=
  match g with
  | Values vs => vs
  | Computed dynamic dependencies => dynamic (dataOf st <$> dependencies)
  | Data e => dataOf st e
  end.

(** One turn of the loop of [enactRule].  When [rule.lhs] is the data of
    [rule.rhs] itself the loop iterates the set it would add to, but then it
    adds nothing: iterating a copy is the same. *)
Definition enactValue (rhs : nat) (acc : State * bool) (value : Atom) : State * bool :=
  if decide (value ∈ dataOf acc.1 rhs) then acc
  else (alterEntry (dataAdd value) rhs acc.1, true).

Definition enactRule (rule : TranslatedRule) (st : State) : State :=
  let r := foldl (enactValue (trhs rule)) (st, false) (evaluate st (tlhs rule)) in
  if r.2 then worklistAdd (trhs rule) r.1 else r.1.

(** [rule.lhs.dependencies.map(getEntryFromReference)] *)
Fixpoint getEntriesFromReferences (ix : Index) (refs : list Reference) (st : State)
    : Result (list nat * State) :=
  match refs with
  | [] => OK ([], st)
  | ref :: refs =>
      r ← getEntryFromReference ix ref st;
      rs ← getEntriesFromReferences ix refs r.2;
      OK (r.1 :: rs.1, rs.2)
  end.

(** Creating the object of a translated rule. *)
Definition allocate (st : State) : State :=
  {| entries := entries st; worklist := worklist st; allocated := S (allocated st) |}.

Definition newRule (g : Getter) (rhs : nat) (st : State) : TranslatedRule * State :=
  ({| uid := allocated st; tlhs := g; trhs := rhs |}, allocate st).

Definition registerRule (rule : TranslatedRule) (st : State) (dep : nat) : State :=
  alterEntry (rulesAdd rule) dep st.

Definition defineRule (ix : Index) (rule : Rule) (st : State) : Result State :=
  r ← getEntryFromReference ix (rhs rule) st;
  match lhs rule with
  | Constant c =>
      let t := newRule (Values [c]) r.1 r.2 in
      OK (enactRule t.1 t.2)
  | Dynamic dynamic dependencies =>
      ds ← getEntriesFromReferences ix dependencies r.2;
      let t := newRule (Computed dynamic ds.1) r.1 ds.2 in
      OK (enactRule t.1 (foldl (registerRule t.1) t.2 ds.1))
  | Ref ref =>
      l ← getEntryFromReference ix ref r.2;
      let t := newRule (Data l.1) r.1 l.2 in
      OK (enactRule t.1 (registerRule t.1 t.2 l.1))
  end.

(** The rule-authoring code, as the sequence of its calls of [define]. *)
Fixpoint defineRules (ix : Index) (rules : list Rule) (st : State) : Result State :=
  match rules with
  | [] => OK st
  | rule :: rules => st ← defineRule ix rule st; defineRules ix rules st
  end.

(** ** The drain loop *)

(** [entry.rules.forEach(enactRule)] *)
Definition enactRules (rules : list TranslatedRule) (st : State) : State :=
  foldl (λ st rule, enactRule rule st) st rules.

(** [for (const entry of worklist) { entry.rules.forEach(enactRule) }]: the
    iterator of a [Set] is a position [i] in its insertion order and visits what
    is added while it runs.  Nothing is ever deleted from [worklist].  [fuel]
    bounds the number of turns; [None] is a loop still running when the fuel is
    used up. *)
Fixpoint drainFrom (fuel : nat) (i : nat) (st : State) : option State :=
  match worklist st !! i with
  | None => Some st
  | Some entry =>
      match fuel with
      | O => None
      | S fuel => drainFrom fuel (S i) (enactRules (rulesOf st entry) st)
      end
  end.

(** The loop, with a turn for every entry of the store: it needs no more
    (lemma [drainFrom_invariant]) and more would not change its result (lemma
    [drainFrom_fuel]). *)
Definition drain (st : State) : option State :=
  drainFrom (length (entries st)) 0 st.

(** ** The result *)

Definition Analysis := list (string * list Atom).

(** [Array.prototype.sort] is stable, and for a consistent comparator its
    result is the one sorted arrangement that keeps equal elements in their
    order; insertion from the right computes it. *)
Fixpoint sortInsert {A} (compare : A → A → Z) (x : A) (l : list A) : list A :=
  match l with
  | [] => [x]
  | y :: l' => if decide (compare x y ≤ 0) then x :: l else y :: sortInsert compare x l'
  end.

Definition sort {A} (compare : A → A → Z) (l : list A) : list A :=
  foldr (sortInsert compare) [] l.

(** [Object.fromEntries]: the own properties of the result, in property order.
    No id is an array index, so property order is insertion order. *)
Definition fromEntries {V} (l : list (string * V)) : list (string * V) :=
  foldl (λ o kv, map_set kv.1 kv.2 o) [] l.

Section Solver.

(** [String.prototype.localeCompare] is a function of the host. *)
Variable localeCompare : string → string → Z.

Definition compareEntries (a b : string * Entry) : Z :=
  match key a.2, key b.2 with
  | Num x, Num y => x - y
  | Str x, Str y => localeCompare x y
  | Num _, Str _ => -1
  | Str _, Num _ => 1
  end.

Definition analysis (st : State) : Analysis :=
  fromEntries ((λ ne, (ne.1, data ne.2)) <$> sort compareEntries (entries st)).

Definition solve (expression : Expression) (rules : list Rule) : Result Analysis :=
  ix ← collectExpressions expression ∅ emptyIndex;
  st ← defineRules ix rules initialState;
  match drain st with
  | Some st => OK (analysis st)
  | None => Throw NonTermination
  end.

End Solver.

(** * Notions the properties are stated with *)

(** ** Trees and static scoping *)

(** The nodes of a tree, in the order the traversal meets them. *)
Fixpoint subexpressions (e : Expression) : list Expression :=
  e ::
  match e with
  | NumericConstantExpression _ _ | BooleanConstantExpression _ _
  | VariableExpression _ _ => []
  | OperationExpression _ _ a b => subexpressions a ++ subexpressions b
  | IfExpression _ c t f => subexpressions c ++ subexpressions t ++ subexpressions f
  | FnExpression _ _ body => subexpressions body
  | FunExpression _ _ _ body => subexpressions body
  | ApplicationExpression _ a b => subexpressions a ++ subexpressions b
  | LetExpression _ _ value body => subexpressions value ++ subexpressions body
  end.

Definition labels (e : Expression) : list Z := label <$> subexpressions e.

(** Static scoping: every [var] node of [e], in traversal order, with the
    innermost enclosing [fn], [fun] or [let] node that binds its name, if there
    is one.  [scope] lists the binders around [e], innermost first. *)
Fixpoint occurrences (scope : list (string * Expression)) (e : Expression)
    : list (Expression * option Expression) :=
  match e with
  | NumericConstantExpression _ _ | BooleanConstantExpression _ _ => []
  | VariableExpression _ x => [(e, map_get x scope)]
  | OperationExpression _ _ a b => occurrences scope a ++ occurrences scope b
  | IfExpression _ c t f =>
      occurrences scope c ++ occurrences scope t ++ occurrences scope f
  | FnExpression _ x body => occurrences ((x, e) :: scope) body
  | FunExpression _ f x body => occurrences ((x, e) :: (f, e) :: scope) body
  | ApplicationExpression _ a b => occurrences scope a ++ occurrences scope b
  | LetExpression _ x value body =>
      occurrences scope value ++ occurrences ((x, e) :: scope) body
  end.

(** A [var] node of [e] no enclosing binder binds. *)
Definition unbound (e v : Expression) : Prop := (v, None) ∈ occurrences [] e.

(** A [fun] node of [e] whose function name is its parameter name. *)
Definition collides (e v : Expression) : Prop :=
  v ∈ subexpressions e ∧ ∃ l f body, v = FunExpression l f f body.

(** The binding the traversal records for an occurrence. *)
Definition bindingOf (o : Expression * option Expression) : Binding :=
  match o.2 with
  | Some b => Declared (label b)
  | None => Inherited (default "" (name o.1))
  end.

(** A context and a scope that bind the same names to the same labels. *)
Definition agree (context : gmap string Z) (scope : list (string * Expression)) : Prop :=
  ∀ x, context !! x = label <$> map_get x scope.

(** What a traversal can throw, given the occurrences and the nodes it goes
    through. *)
Definition thrown (occs : list (Expression * option Expression)) (subs : list Expression)
    (err : Error) : Prop :=
  (∃ l x, err = UnboundVariable l x ∧ (x ∉ objectPrototype) ∧
          ((VariableExpression l x, None) ∈ occs)) ∨
  (∃ l f body, err = NameCollision l f ∧ FunExpression l f f body ∈ subs).

(** ** Rule systems *)

(** The id of the entry a reference resolves to. *)
Definition referenceId (ix : Index) (ref : Reference) : Result string :=
  ck ← referenceKey ix ref; OK (entryId ck.1 ck.2).

(** The references of a rule, in the order [defineRule] resolves them. *)
Definition references (rule : Rule) : list Reference :=
  rhs rule ::
  match lhs rule with
  | Constant _ => []
  | Ref ref => [ref]
  | Dynamic _ dependencies => dependencies
  end.

(** An assignment of values to ids is closed under a rule: it has what the
    rule yields from values the assignment has. *)
Definition models (ix : Index) (ρ : string → Atom → Prop) (rule : Rule) : Prop :=
  ∀ idr, referenceId ix (rhs rule) = OK idr →
  match lhs rule with
  | Constant c => ρ idr c
  | Ref ref => ∀ idl, referenceId ix ref = OK idl → ∀ v, ρ idl v → ρ idr v
  | Dynamic dynamic dependencies =>
      ∀ ids, Forall2 (λ ref id, referenceId ix ref = OK id) dependencies ids →
      ∀ ds, Forall2 (λ d id, ∀ v, v ∈ d → ρ id v) ds ids →
      ∀ v, v ∈ dynamic ds → ρ idr v
  end.

(** The values an analysis lists under an id. *)
Definition valuesOf (an : Analysis) (id : string) : list Atom :=
  default [] (map_get id an).

(** Enacting the translation of a rule on the data of an analysis would insert
    nothing. *)
Definition satisfied (ix : Index) (an : Analysis) (rule : Rule) : Prop :=
  ∀ idr, referenceId ix (rhs rule) = OK idr →
  match lhs rule with
  | Constant c => c ∈ valuesOf an idr
  | Ref ref => ∀ idl, referenceId ix ref = OK idl → valuesOf an idl ⊆ valuesOf an idr
  | Dynamic dynamic dependencies =>
      ∀ ids, Forall2 (λ ref id, referenceId ix ref = OK id) dependencies ids →
      dynamic (valuesOf an <$> ids) ⊆ valuesOf an idr
  end.

(** A callback is monotone: from more values it yields more values. *)
Definition monotone (dynamic : list (list Atom) → list Atom) : Prop :=
  ∀ ds ds', Forall2 (⊆) ds ds' → dynamic ds ⊆ dynamic ds'.

Definition monotoneRule (rule : Rule) : Prop :=
  match lhs rule with
  | Dynamic dynamic _ => monotone dynamic
  | _ => True
  end.

(** ** Invariants of the store *)

Definition idOf (st : State) (e : nat) : option string := fst <$> entries st !! e.

(** The ids of the store, in insertion order. *)
Definition ids (st : State) : list string := (entries st).*1.

(** The category [getEntryFromReference] uses for a key. *)
Definition category (key : Atom) : string :=
  match key with
  | Num _ => "C"
  | Str _ => "p"
  end.

(** A translated rule names entries of the store and only yields, from values
    that [ρ] has, values that [ρ] has. *)
Definition sound (ρ : string → Atom → Prop) (st : State) (t : TranslatedRule) : Prop :=
  ∃ idr, idOf st (trhs t) = Some idr ∧
  match tlhs t with
  | Values vs => ∀ v, v ∈ vs → ρ idr v
  | Data l => ∃ idl, idOf st l = Some idl ∧ ∀ v, ρ idl v → ρ idr v
  | Computed dynamic dependencies =>
      ∃ ids, Forall2 (λ d id, idOf st d = Some id) dependencies ids ∧
      ∀ ds, Forall2 (λ d id, ∀ v, v ∈ d → ρ id v) ds ids →
      ∀ v, v ∈ dynamic ds → ρ idr v
  end.

Record invariant (ρ : string → Atom → Prop) (st : State) : Prop := {
  inv_ids : NoDup (ids st);
  inv_key : ∀ id en, (id, en) ∈ entries st → id = entryId (category (key en)) (key en);
  inv_data : ∀ id en, (id, en) ∈ entries st → NoDup (data en) ∧ ∀ v, v ∈ data en → ρ id v;
  inv_rules : ∀ id en t, (id, en) ∈ entries st → t ∈ rules en → sound ρ st t;
  inv_worklist : NoDup (worklist st);
  inv_pending : ∀ e, e ∈ worklist st → (e < length (entries st))%nat
}.

(** The entries of [st] are entries of [st'], under the same ids. *)
Definition extends (st st' : State) : Prop :=
  ∀ e id, idOf st e = Some id → idOf st' e = Some id.

(** The assignment with every value. *)
Definition anything : string → Atom → Prop := λ _ _, True.

(** ** Steps of a solve *)

(** What a solve does to the store, one action at a time. *)
Inductive Action :=
  | Create (category : string) (key : Atom)
  | Allocate
  | Register (rule : TranslatedRule) (dep : nat)
  | Enact (rule : TranslatedRule).

Definition perform (st : State) (a : Action) : State :=
  match a with
  | Create category key => (getOrCreateEntry category key st).2
  | Allocate => allocate st
  | Register rule dep => registerRule rule st dep
  | Enact rule => enactRule rule st
  end.

Definition performAll (st : State) (actions : list Action) : State :=
  foldl perform st actions.

(** ** Comparators *)

(** A consistent comparator, for [Array.prototype.sort]. *)
Record Consistent {A} (compare : A → A → Z) : Prop := {
  consistent_sgn : ∀ a b, Z.sgn (compare b a) = - Z.sgn (compare a b);
  consistent_trans : ∀ a b c, compare a b ≤ 0 → compare b c ≤ 0 → compare a c ≤ 0
}.

(** The order of discriminators the result is sorted by. *)
Definition keyLe (localeCompare : string → string → Z) (a b : Atom) : Prop :=
  match a, b with
  | Num x, Num y => x ≤ y
  | Str x, Str y => localeCompare x y ≤ 0
  | Num _, Str _ => True
  | Str _, Num _ => False
  end.

(** ** Generators *)

(** What a generator has yet to yield, and the generator that has returned. *)
Definition pending (ix : Index) (g : Generator) : list Expression :=
  delegate g ++ (remaining g ≫= collected ix).

Definition completed : Generator := {| delegate := []; remaining := [] |}.

(** ** Programs and a comparison used as instances *)

(** [(fn x => x)] *)
Definition identity : Expression := FnExpression 1 "x" (VariableExpression 2 "x").

(** [(fn x => y)] *)
Definition unboundBody : Expression := FnExpression 1 "x" (VariableExpression 2 "y").

(** [(fn x => constructor)] *)
Definition constructorBody : Expression :=
  FnExpression 1 "x" (VariableExpression 2 "constructor").

(** [(fun f f => f)] *)
Definition selfNamed : Expression := FunExpression 1 "f" "f" (VariableExpression 2 "f").

(** [(fun f f => y)] *)
Definition selfNamedUnbound : Expression :=
  FunExpression 1 "f" "f" (VariableExpression 2 "y").

(** [(y (fun f f => f))] *)
Definition unboundThenSelfNamed : Expression :=
  ApplicationExpression 1 (VariableExpression 2 "y")
    (FunExpression 3 "f" "f" (VariableExpression 4 "f")).

(** [(fun f x => f)] *)
Definition recursive : Expression := FunExpression 1 "f" "x" (VariableExpression 2 "f").

(** [(fun f x => (f x))] *)
Definition recursiveCall : Expression :=
  FunExpression 1 "f" "x"
    (ApplicationExpression 2 (VariableExpression 3 "f") (VariableExpression 4 "x")).

(** [(1 + 2)] *)
Definition sum : Expression :=
  OperationExpression 1 OpAdd (NumericConstantExpression 2 1) (NumericConstantExpression 3 2).

(** Comparison of strings by their code units, an instance of
    [localeCompare]. *)
Definition codeUnitCompare (a b : string) : Z :=
  match String.compare a b with
  | Lt => -1
  | Eq => 0
  | Gt => 1
  end.

(** Adding values at the end of the data of an entry. *)
Definition dataExtend (new : list Atom) (en : Entry) : Entry :=
  {| key := key en; data := data en ++ new; rules := rules en |}.

(** Rules on [(fun f x => (f x))] that reach entries of both categories. *)
Definition mixedRules : list Rule :=
  [ {| lhs := Constant (Num 2); rhs := BoundVariableReference recursiveCall |};
    {| lhs := Constant (Num 1); rhs := BoundVariableReference recursiveCall |};
    {| lhs := Constant (Str "b"); rhs := FunctionVariableReference recursiveCall |};
    {| lhs := Constant (Num 5); rhs := ExpressionReference (VariableExpression 3 "f") |};
    {| lhs := Constant (Num 5); rhs := ExpressionReference recursiveCall |} ].

Definition mixedAnalysis : Analysis :=
  [ ("C(1)", [Num 5]); ("C(3)", [Num 5]); ("p(f#1)", [Str "b"]); ("p(x#1)", [Num 2; Num 1]) ].


(** Rules on [(1 + 2)]: the values of expression 1 flow to expression 3, the
    values of expression 2 flow to expression 1, and two constants. *)
Definition flow (from to : Expression) : Rule :=
  {| lhs := Ref (ExpressionReference from); rhs := ExpressionReference to |}.

Definition seed (value : Atom) (to : Expression) : Rule :=
  {| lhs := Constant value; rhs := ExpressionReference to |}.

Definition chainRules : list Rule :=
  [ flow sum (NumericConstantExpression 3 2);
    flow (NumericConstantExpression 2 1) sum;
    seed (Str "a") sum;
    seed (Str "b") (NumericConstantExpression 2 1) ].

(** The same rules, constants first. *)
Definition chainRulesSeedsFirst : list Rule :=
  [ seed (Str "a") sum;
    seed (Str "b") (NumericConstantExpression 2 1);
    flow sum (NumericConstantExpression 3 2);
    flow (NumericConstantExpression 2 1) sum ].

(** The assignment an analysis stands for. *)
Definition assignment (an : Analysis) : string → Atom → Prop :=
  λ id v, v ∈ valuesOf an id.

(** The key of an entry, as the id gives it. *)
Definition keyId (key : Atom) : string := entryId (category key) key.

(** A dynamic rule on [(fn x => x)]: the values of the expression are values
    of its bound variable. *)
Definition allValues (ds : list (list Atom)) : list Atom := concat ds.

Definition copyRules : list Rule :=
  [ seed (Num 1) identity;
    {| lhs := Dynamic allValues [ExpressionReference identity];
       rhs := BoundVariableReference identity |} ].

Definition copyAnalysis : Analysis := [("C(1)", [Num 1]); ("p(x#1)", [Num 1])].


(** * Further notions *)

(** ** One round of propagation *)

(** A rule has been enacted on the data of [before] and the result is in
    [after].  With [before] and [after] the same analysis this is
    [satisfied]. *)
Definition propagated (ix : Index) (before after : Analysis) (rule : Rule) : Prop :=
  ∀ idr, referenceId ix (rhs rule) = OK idr →
  match lhs rule with
  | Constant c => c ∈ valuesOf after idr
  | Ref ref => ∀ idl, referenceId ix ref = OK idl → valuesOf before idl ⊆ valuesOf after idr
  | Dynamic dynamic dependencies =>
      ∀ ids, Forall2 (λ ref id, referenceId ix ref = OK id) dependencies ids →
      dynamic (valuesOf before <$> ids) ⊆ valuesOf after idr
  end.

(** The uids in the store are uids [newRule] has given out. *)
Definition allocatedRules (st : State) : Prop :=
  ∀ e t, t ∈ rulesOf st e → (uid t < allocated st)%nat.

(** An entry that has data is on the worklist. *)
Definition changedQueued (st : State) : Prop :=
  ∀ e, dataOf st e ≠ [] → e ∈ worklist st.

(** A constant of the rules, or a value a callback of the rules yields. *)
Definition originates (rules : list Rule) (v : Atom) : Prop :=
  ∃ rule, rule ∈ rules ∧
    match lhs rule with
    | Constant c => v = c
    | Ref _ => False
    | Dynamic dynamic _ => ∃ ds, v ∈ dynamic ds
    end.

(** A [var] node of a tree. *)
Definition variableOf (ast v : Expression) : Prop :=
  v ∈ subexpressions ast ∧ type v = "var".

(** ** The store over time *)

(** [st'] is a later store than [st]: entries keep their ids, data and rules
    are only added, and the worklist grows at its end. *)
Definition later (st st' : State) : Prop :=
  extends st st' ∧
  (∀ e, dataOf st e ⊆ dataOf st' e) ∧
  (∀ e t, t ∈ rulesOf st e → t ∈ rulesOf st' e) ∧
  worklist st `prefix_of` worklist st'.

(** [t] is the translation of [rule] in the store: it names the entries the
    references of the rule resolve to and is among the rules of each entry its
    left-hand side reads. *)
Definition translates (ix : Index) (st : State) (rule : Rule) (t : TranslatedRule) : Prop :=
  (∃ idr, referenceId ix (rhs rule) = OK idr ∧ idOf st (trhs t) = Some idr) ∧
  match lhs rule with
  | Constant c => tlhs t = Values [c]
  | Ref ref =>
      ∃ l idl, tlhs t = Data l ∧ referenceId ix ref = OK idl ∧ idOf st l = Some idl ∧
               t ∈ rulesOf st l
  | Dynamic dynamic dependencies =>
      ∃ ds ids, tlhs t = Computed dynamic ds ∧
                Forall2 (λ ref id, referenceId ix ref = OK id) dependencies ids ∧
                Forall2 (λ d id, idOf st d = Some id) ds ids ∧
                Forall (λ d, t ∈ rulesOf st d) ds
  end.

(** What [t] yielded from an earlier store is data of its right-hand side. *)
Definition enacted (st : State) (t : TranslatedRule) : Prop :=
  ∃ st1, (∀ e, dataOf st1 e ⊆ dataOf st e) ∧ evaluate st1 (tlhs t) ⊆ dataOf st (trhs t).

(** ** Rules that pass values one step *)

(** The references the left-hand side of a rule reads. *)
Definition reads (rule : Rule) : list Reference :=
  match lhs rule with
  | Constant _ => []
  | Ref ref => [ref]
  | Dynamic _ dependencies => dependencies
  end.

(** A rule that passes values on from the entries it reads. *)
Definition propagating (rule : Rule) : Prop :=
  match lhs rule with
  | Constant _ => False
  | _ => True
  end.

(** No entry that a rule passes values to is read by a rule. *)
Definition singleStep (ix : Index) (rules : list Rule) : Prop :=
  ∀ writer reader ref id,
    writer ∈ rules → propagating writer → referenceId ix (rhs writer) = OK id →
    reader ∈ rules → ref ∈ reads reader → referenceId ix ref ≠ OK id.

(** The rules registered with entries are translations of propagating rules
    of [rules]. *)
Definition written (ix : Index) (rules : list Rule) (st : State) : Prop :=
  ∀ d t, t ∈ rulesOf st d →
  ∃ rule id, rule ∈ rules ∧ propagating rule ∧
             referenceId ix (rhs rule) = OK id ∧ idOf st (trhs t) = Some id.

(** ** What stops a traversal *)

(** The nodes a traversal cannot pass, in the order it meets the nodes: a
    [var] node that neither a binder around it nor [Object.prototype] gives a
    value, and a [fun] node whose two names are the same.  [scope] lists the
    binders around [e], innermost first. *)
Fixpoint offences (scope : list (string * Expression)) (e : Expression) : list Error :=
  match e with
  | NumericConstantExpression _ _ | BooleanConstantExpression _ _ => []
  | VariableExpression l x =>
      match map_get x scope with
      | Some _ => []
      | None => if decide (x ∈ objectPrototype) then [] else [UnboundVariable l x]
      end
  | OperationExpression _ _ a b => offences scope a ++ offences scope b
  | IfExpression _ c t f => offences scope c ++ offences scope t ++ offences scope f
  | FnExpression _ x body => offences ((x, e) :: scope) body
  | FunExpression l f x body =>
      (if decide (f = x) then [NameCollision l f] else []) ++
      offences ((x, e) :: (f, e) :: scope) body
  | ApplicationExpression _ a b => offences scope a ++ offences scope b
  | LetExpression _ x value body => offences scope value ++ offences ((x, e) :: scope) body
  end.

(** ** Variables and their entries *)

(** The name and the label of the binder that a reference to a variable
    stands for: for a [variable] reference the name of the [var] node and the
    label the traversal recorded for it. *)
Definition variableKey (ix : Index) (ref : Reference) : option (string * Z) :=
  match ref with
  | VariableReference v =>
      match map_get v (labelOfvariableDeclaration ix) with
      | Some (Declared l) => Some (orUndefined (name v), l)
      | _ => None
      end
  | BoundVariableReference b => Some (orUndefined (variable b), label b)
  | FunctionVariableReference f => Some (orUndefined (name f), label f)
  | ExpressionReference _ => None
  end.

(** A string without the character [#], as every name the grammar accepts. *)
Definition hashFree (s : string) : Prop := ∀ a b, s ≠ a +:+ "#" +:+ b.

(** ** The turns of the drain loop *)

(** The body of the drain loop for one entry of the worklist:
    [entry.rules.forEach(enactRule)]. *)
Definition turn (st : State) (entry : nat) : State :=
  enactRules (rulesOf st entry) st.


(** * The parser worker: labelling

    The second half of [parser.ts].  The grammar builds a tree whose nodes
    carry [label: 0] and the [P.index] at their end; [postProcess] then
    numbers the nodes and collects an inlay hint for each. *)

Module Parser.

(** [P.Index] *)
Record Index := { offset : Z; line : Z; column : Z }.

(** A node with all its properties: those of [program.d.ts], and [offset],
    which the spread of the index leaves on it. *)
Inductive Expression :=
  | NumericConstantExpression (label : Z) (index : Index) (value : Z)
  | BooleanConstantExpression (label : Z) (index : Index) (truth : bool)
  | VariableExpression (label : Z) (index : Index) (name : string)
  | OperationExpression (label : Z) (index : Index) (op : Operators) (left right : Expression)
  | IfExpression (label : Z) (index : Index) (condition thenBody elseBody : Expression)
  | FnExpression (label : Z) (index : Index) (variable : string) (body : Expression)
  | FunExpression (label : Z) (index : Index) (name variable : string) (body : Expression)
  | ApplicationExpression (label : Z) (index : Index) (callable argument : Expression)
  | LetExpression (label : Z) (index : Index) (variable : string) (value body : Expression).

Definition label (expression : Expression) : Z :=
  match expression with
  | NumericConstantExpression l _ _ | BooleanConstantExpression l _ _
  | VariableExpression l _ _ | OperationExpression l _ _ _ _
  | IfExpression l _ _ _ _ | FnExpression l _ _ _ | FunExpression l _ _ _ _
  | ApplicationExpression l _ _ _ | LetExpression l _ _ _ _ => l
  end.

Definition index (expression : Expression) : Index :=
  match expression with
  | NumericConstantExpression _ i _ | BooleanConstantExpression _ i _
  | VariableExpression _ i _ | OperationExpression _ i _ _ _
  | IfExpression _ i _ _ _ | FnExpression _ i _ _ | FunExpression _ i _ _ _
  | ApplicationExpression _ i _ _ | LetExpression _ i _ _ _ => i
  end.

(** [InlayHint] of [workers.d.ts]; [positionColumn] is the [column] of its
    [position]. *)
Record Position := { lineNumber : Z; positionColumn : Z }.

Record InlayHint := { text : string; position : Position; kind : Z }.

(** The hint [postProcess] pushes for a node it gives [label]. *)
Definition inlayHint (label : Z) (expression : Expression) : InlayHint :=
  {| text := pretty label;
     position := {| lineNumber := line (index expression);
                    positionColumn := column (index expression) |};
     kind := 0 |}.

(** [postProcess], with the array [inlayHints] passed through.  The
    properties of an object literal are evaluated in the order they are
    written. *)
Fixpoint postProcess (expression : Expression) (inlayHints : list InlayHint)
    : Expression * list InlayHint :=
  let label := Z.of_nat (length inlayHints) + 1 in
  let inlayHints := inlayHints ++ [inlayHint label expression] in
  match expression with
  | NumericConstantExpression _ i value =>
      (NumericConstantExpression label i value, inlayHints)
  | BooleanConstantExpression _ i truth =>
      (BooleanConstantExpression label i truth, inlayHints)
  | VariableExpression _ i name =>
      (VariableExpression label i name, inlayHints)
  | OperationExpression _ i op lhs rhs =>
      let l := postProcess lhs inlayHints in
      let r := postProcess rhs l.2 in
      (OperationExpression label i op l.1 r.1, r.2)
  | IfExpression _ i condition thenBody elseBody =>
      let c := postProcess condition inlayHints in
      let t := postProcess thenBody c.2 in
      let e := postProcess elseBody t.2 in
      (IfExpression label i c.1 t.1 e.1, e.2)
  | FnExpression _ i variable body =>
      let b := postProcess body inlayHints in
      (FnExpression label i variable b.1, b.2)
  | FunExpression _ i name variable body =>
      let b := postProcess body inlayHints in
      (FunExpression label i name variable b.1, b.2)
  | ApplicationExpression _ i callable argument =>
      let c := postProcess callable inlayHints in
      let a := postProcess argument c.2 in
      (ApplicationExpression label i c.1 a.1, a.2)
  | LetExpression _ i variable value body =>
      let v := postProcess value inlayHints in
      let b := postProcess body v.2 in
      (LetExpression label i variable v.1 b.1, b.2)
  end.

(** The [expression] and the [inlayHints] of a [ParserSuccess], for the
    value the grammar returned. *)
Definition success (value : Expression) : Expression * list InlayHint :=
  postProcess value [].

(** The nodes of a tree, in the order [postProcess] meets them. *)
Fixpoint nodes (e : Expression) : list Expression :=
  e ::
  match e with
  | NumericConstantExpression _ _ _ | BooleanConstantExpression _ _ _
  | VariableExpression _ _ _ => []
  | OperationExpression _ _ _ a b => nodes a ++ nodes b
  | IfExpression _ _ c t f => nodes c ++ nodes t ++ nodes f
  | FnExpression _ _ _ body => nodes body
  | FunExpression _ _ _ _ body => nodes body
  | ApplicationExpression _ _ a b => nodes a ++ nodes b
  | LetExpression _ _ _ value body => nodes value ++ nodes body
  end.

(** The tree with every label set to [l], as the grammar builds it for
    [l = 0]. *)
Fixpoint labelled (l : Z) (e : Expression) : Expression :=
  match e with
  | NumericConstantExpression _ i value => NumericConstantExpression l i value
  | BooleanConstantExpression _ i truth => BooleanConstantExpression l i truth
  | VariableExpression _ i name => VariableExpression l i name
  | OperationExpression _ i op a b => OperationExpression l i op (labelled l a) (labelled l b)
  | IfExpression _ i c t f => IfExpression l i (labelled l c) (labelled l t) (labelled l f)
  | FnExpression _ i x body => FnExpression l i x (labelled l body)
  | FunExpression _ i f x body => FunExpression l i f x (labelled l body)
  | ApplicationExpression _ i a b => ApplicationExpression l i (labelled l a) (labelled l b)
  | LetExpression _ i x value body => LetExpression l i x (labelled l value) (labelled l body)
  end.

End Parser.

(** The tree as the solver reads it: without the positions. *)
Fixpoint program (e : Parser.Expression) : Expression :=
  match e with
  | Parser.NumericConstantExpression l _ value => NumericConstantExpression l value
  | Parser.BooleanConstantExpression l _ truth => BooleanConstantExpression l truth
  | Parser.VariableExpression l _ name => VariableExpression l name
  | Parser.OperationExpression l _ op a b => OperationExpression l op (program a) (program b)
  | Parser.IfExpression l _ c t f => IfExpression l (program c) (program t) (program f)
  | Parser.FnExpression l _ x body => FnExpression l x (program body)
  | Parser.FunExpression l _ f x body => FunExpression l f x (program body)
  | Parser.ApplicationExpression l _ a b => ApplicationExpression l (program a) (program b)
  | Parser.LetExpression l _ x value body => LetExpression l x (program value) (program body)
  end.

(** The value of the grammar for [(fn x => x)] on one line. *)
Definition identityValue : Parser.Expression :=
  Parser.FnExpression 0 {| Parser.offset := 11; Parser.line := 1; Parser.column := 12 |} "x"
    (Parser.VariableExpression 0
       {| Parser.offset := 10; Parser.line := 1; Parser.column := 11 |} "x").

(** The node of a tree that is the last one with a label, in traversal
    order. *)
Definition lastLabelled (ast : Expression) (k : Z) : option Expression :=
  last (filter (λ n, label n = k) (subexpressions ast)).


(** * The runner worker

    A shallow embedding of [runner.ts].  The interpreter recurses on
    subexpressions and, at an application, on the body of whatever function
    node the callable evaluates to; [fuel] bounds the depth of the calls and
    [Unfinished] is an evaluation still running when it is used up. *)

Module Runner.

Definition MAX_RECURSION : nat := 100.

(** The numbers of the host and what the interpreter does with them.  A
    literal of the tree is a number of the host; [truncDiv a b] is
    [Math.trunc(a / b)], [strictEquals] is [===] on numbers and
    [numberToString] is [Number.prototype.toString]. *)
Record Host := {
  number : Type;
  literal : Z → number;
  add : number → number → number;
  sub : number → number → number;
  mul : number → number → number;
  truncDiv : number → number → number;
  lt : number → number → bool;
  gt : number → number → bool;
  le : number → number → bool;
  ge : number → number → bool;
  strictEquals : number → number → bool;
  numberToString : number → string
}.

Section Evaluation.

Variable host : Host.

(** [Value].  A context is a plain object, so reading a name it has no own
    property for finds the properties of [Object.prototype]: [Inherited] is
    such a function or object. *)
Inductive Value :=
  | Number (n : number host)
  | Boolean (b : bool)
  | Reference (expression : Expression)
  | Inherited (property : string).

Definition Context := gmap string Value.

(** [context[name]]; [None] is [undefined]. *)
Definition context_get (context : Context) (name : string) : option Value :=
  match context !! name with
  | Some v => Some v
  | None => if decide (name ∈ objectPrototype) then Some (Inherited name) else None
  end.

(** The [TypeError] of [castError], the [TypeError] for a variable that is
    not in scope and the [EvalError] of the recursion limit. *)
Inductive Error :=
  | CastError (subExpression : Expression) (result : Value) (needed : string)
  | NotInScope (name : string) (label : Z)
  | RecursionLimit.

Inductive Run (A : Type) :=
  | Return (a : A)
  | Throw (e : Error)
  | Unfinished.
Arguments Return {A} a.
Arguments Throw {A} e.
Arguments Unfinished {A}.

Global Instance Run_bind : MBind Run := λ A B k r,
  match r with
  | Return a => k a
  | Throw e => Throw e
  | Unfinished => Unfinished
  end.

Definition formatValue (value : Value) : string :=
  match value with
  | Boolean b => if b then "true" else "false"
  | Number n => numberToString host n
  | Reference expression => "reference to #" +:+ pretty (label expression)
  | Inherited _ => "reference to #undefined"
  end.

(** [===] on values.  Two references are the same object when they are the
    same node, which in a tree with distinct labels is when they are equal. *)
Definition same (a b : Value) : bool :=
  match a, b with
  | Number x, Number y => strictEquals host x y
  | Boolean x, Boolean y => bool_decide (x = y)
  | Reference x, Reference y => bool_decide (x = y)
  | Inherited p, Inherited q => bool_decide (p = q)
  | _, _ => false
  end.

(** The casts of [asNumber] and [asBoolean]. *)
Definition toNumber (subExpression : Expression) (result : Value) : Run (number host) :=
  match result with
  | Number n => Return n
  | _ => Throw (CastError subExpression result "number")
  end.

Definition toBoolean (subExpression : Expression) (result : Value) : Run bool :=
  match result with
  | Boolean b => Return b
  | _ => Throw (CastError subExpression result "boolean")
  end.

Fixpoint evaluate (fuel : nat) (expression : Expression) (context : Context)
    (recursion : nat) : Run Value :=
  match fuel with
  | O => Unfinished
  | S fuel =>
      let asNumber : Expression → Run (number host) := λ subExpression,
        result ← evaluate fuel subExpression context recursion;
        toNumber subExpression result in
      let asBoolean : Expression → Run bool := λ subExpression,
        result ← evaluate fuel subExpression context recursion;
        toBoolean subExpression result in
      let arithmetic := λ (f : number host → number host → number host) lhs rhs,
        a ← asNumber lhs; b ← asNumber rhs; Return (Number (f a b)) in
      let comparison := λ (f : number host → number host → bool) lhs rhs,
        a ← asNumber lhs; b ← asNumber rhs; Return (Boolean (f a b)) in
      if decide (MAX_RECURSION < recursion)%nat then Throw RecursionLimit else
      match expression with
      | NumericConstantExpression _ value => Return (Number (literal host value))
      | BooleanConstantExpression _ truth => Return (Boolean truth)
      | VariableExpression l x =>
          match context_get context x with
          | Some v => Return v
          | None => Throw (NotInScope x l)
          end
      | OperationExpression _ op lhs rhs =>
          match op with
          | OpAdd => arithmetic (add host) lhs rhs
          | OpSub => arithmetic (sub host) lhs rhs
          | OpMul => arithmetic (mul host) lhs rhs
          | OpDiv => arithmetic (truncDiv host) lhs rhs
          | OpLt => comparison (lt host) lhs rhs
          | OpGt => comparison (gt host) lhs rhs
          | OpLe => comparison (le host) lhs rhs
          | OpGe => comparison (ge host) lhs rhs
          | OpEq =>
              a ← evaluate fuel lhs context recursion;
              b ← evaluate fuel rhs context recursion;
              Return (Boolean (same a b))
          | OpNe =>
              a ← evaluate fuel lhs context recursion;
              b ← evaluate fuel rhs context recursion;
              Return (Boolean (negb (same a b)))
          | OpOr =>
              a ← asBoolean lhs;
              if (a : bool) then Return (Boolean true)
              else (b ← asBoolean rhs; Return (Boolean b))
          | OpAnd =>
              a ← asBoolean lhs;
              if (a : bool) then (b ← asBoolean rhs; Return (Boolean b))
              else Return (Boolean false)
          end
      | IfExpression _ condition thenBody elseBody =>
          c ← asBoolean condition;
          if (c : bool) then evaluate fuel thenBody context recursion
          else evaluate fuel elseBody context recursion
      | FnExpression _ _ _ | FunExpression _ _ _ _ => Return (Reference expression)
      | ApplicationExpression _ callable argument =>
          a ← evaluate fuel argument context recursion;
          c ← evaluate fuel callable context recursion;
          match c with
          | Boolean _ | Number _ => Throw (CastError callable c "reference")
          | Reference (FnExpression _ x body) =>
              evaluate fuel body (<[x := a]> context) (S recursion)
          | Reference (FunExpression _ f x body) =>
              evaluate fuel body (<[x := a]> (<[f := c]> context)) (S recursion)
          | _ => Throw (CastError callable c "reference to fn or fun expression")
          end
      | LetExpression _ x value body =>
          v ← evaluate fuel value context recursion;
          evaluate fuel body (<[x := v]> context) recursion
      end
  end.

(** The [value] of the [RunnerOutput]. *)
Definition run (fuel : nat) (expression : Expression) : Run string :=
  value ← evaluate fuel expression ∅ 0%nat; Return (formatValue value).

(** A value a program can compute: a reference is one to a [fn] or [fun]
    node of the program, and a property of [Object.prototype] is one a
    variable of the program is named after. *)
Definition valueOf (program : Expression) (value : Value) : Prop :=
  match value with
  | Reference n => n ∈ subexpressions program ∧ (type n = "fn" ∨ type n = "fun")
  | Inherited p => p ∈ objectPrototype ∧ ∃ l, VariableExpression l p ∈ subexpressions program
  | _ => True
  end.

(** An error a program can throw: it names a node of the program, and a
    cast error a value that is not what was needed. *)
Definition errorOf (program : Expression) (err : Error) : Prop :=
  match err with
  | CastError sub result needed =>
      sub ∈ subexpressions program ∧ valueOf program result ∧
      (needed = "number" ∧ (∀ n, result ≠ Number n) ∨
       needed = "boolean" ∧ (∀ b, result ≠ Boolean b) ∨
       needed = "reference" ∧ ((∃ n, result = Number n) ∨ (∃ b, result = Boolean b)) ∨
       needed = "reference to fn or fun expression" ∧ (∃ p, result = Inherited p))
  | NotInScope x l =>
      VariableExpression l x ∈ subexpressions program ∧ (x ∉ objectPrototype)
  | RecursionLimit => True
  end.

End Evaluation.

Arguments Number {host} n.
Arguments Boolean {host} b.
Arguments Reference {host} expression.
Arguments Inherited {host} property.
Arguments CastError {host} subExpression result needed.
Arguments NotInScope {host} name label.
Arguments RecursionLimit {host}.
Arguments Return {host A} a.
Arguments Throw {host A} e.
Arguments Unfinished {host A}.

(** A host whose numbers are the integers, with division by zero yielding
    zero: an instance for examples that do not divide. *)
Definition integers : Host :=
  {| number := Z;
     literal := id;
     add := Z.add;
     sub := Z.sub;
     mul := Z.mul;
     truncDiv := Z.quot;
     lt := Z.ltb;
     gt := Z.gtb;
     le := Z.leb;
     ge := Z.geb;
     strictEquals := Z.eqb;
     numberToString := pretty |}.

End Runner.

(** An evaluation that is cut short, by the fuel or, if [limited], by the
    recursion limit, or else comes to what another one comes to. *)
Definition agrees {host A} (limited : bool) (o o' : Runner.Run host A) : Prop :=
  o = Runner.Unfinished ∨
  (limited = true ∧ o = Runner.Throw Runner.RecursionLimit) ∨
  o = o'.

(** An evaluation that has come to an end, with a result that has [Q] if it
    returned and an error that has [E] if it threw. *)
Definition ends {host A} (Q : A → Prop) (E : Runner.Error host → Prop)
    (o : Runner.Run host A) : Prop :=
  match o with
  | Runner.Return a => Q a
  | Runner.Throw err => E err
  | Runner.Unfinished => False
  end.

(** The number of nodes of a tree. *)
Definition size (e : Expression) : nat := length (subexpressions e).

(** [((fun f x => (f x)) 0)], which calls itself for ever. *)
Definition forever : Expression :=
  ApplicationExpression 1
    (FunExpression 2 "f" "x"
       (ApplicationExpression 3 (VariableExpression 4 "f") (VariableExpression 5 "x")))
    (NumericConstantExpression 6 0).

(** [((1) 2)], which applies a number. *)
Definition misapplied : Expression :=
  ApplicationExpression 1 (NumericConstantExpression 2 1) (NumericConstantExpression 3 2).

(** [(let f = (fn x => (x + 1)) in (f 2))] *)
Definition increment : Expression :=
  LetExpression 1 "f"
    (FnExpression 2 "x"
       (OperationExpression 3 OpAdd (VariableExpression 4 "x") (NumericConstantExpression 5 1)))
    (ApplicationExpression 6 (VariableExpression 7 "f") (NumericConstantExpression 8 2)).


(** * Properties *)

(** ** Outcomes *)

Lemma bind_OK {A B} (r : Result A) (k : A → Result B) (b : B) :
  r ≫= k = OK b ↔ ∃ a, r = OK a ∧ k a = OK b.
Proof.
  destruct r as [a|e]; simpl; split.
  - eauto.
  - by intros (a' & [= ->] & ?).
  - done.
  - by intros (? & ? & ?).
Qed.

Lemma bind_Throw {A B} (r : Result A) (k : A → Result B) (e : Error) :
  r ≫= k = Throw e ↔ r = Throw e ∨ ∃ a, r = OK a ∧ k a = Throw e.
Proof.
  destruct r as [a|e']; simpl; split.
  - eauto.
  - by intros [|(a' & [= ->] & ?)].
  - intros [= ->]; by left.
  - by intros [[= ->]|(? & ? & ?)].
Qed.

Ltac invert_bind :=
  repeat match goal with
  | H : _ ≫= _ = OK _ |- _ => apply bind_OK in H as (? & ? & H)
  | H : _ ≫= _ = Throw _ |- _ => apply bind_Throw in H as [H|(? & ? & H)]
  | H : OK _ = OK _ |- _ => injection H as H
  | H : Throw _ = Throw _ |- _ => injection H as H
  | H : OK _ = Throw _ |- _ => discriminate H
  | H : Throw _ = OK _ |- _ => discriminate H
  end.

(** ** Scope resolution *)

Lemma agree_empty : agree ∅ [].
Proof. intros x. by rewrite lookup_empty. Qed.

Lemma agree_extend context scope x e :
  agree context scope → agree (<[x := label e]> context) ((x, e) :: scope).
Proof.
  intros H y. simpl. destruct (decide (y = x)) as [->|].
  - by rewrite lookup_insert_eq.
  - by rewrite lookup_insert_ne.
Qed.

Lemma context_get_agree context scope x :
  agree context scope →
  context_get context x =
    match map_get x scope with
    | Some b => Some (Declared (label b))
    | None => if decide (x ∈ objectPrototype) then Some (Inherited x) else None
    end.
Proof. intros H. unfold context_get. rewrite H. by destruct (map_get x scope). Qed.

(** A traversal that returns has met no colliding [fun] node and no free
    variable but those [Object.prototype] answers for. *)
Lemma collectExpressions_OK e : ∀ context scope ix ix',
  agree context scope →
  collectExpressions e context ix = OK ix' →
  (∀ v l f body, v ∈ subexpressions e → v ≠ FunExpression l f f body) ∧
  (∀ v, (v, None) ∈ occurrences scope e →
        ∃ l x, v = VariableExpression l x ∧ x ∈ objectPrototype).
Proof.
  induction e as [l n|l b|l x|l op e1 IHe1 e2 IHe2|l e1 IHe1 e2 IHe2 e3 IHe3|l x e IHe
                 |l f x e IHe|l e1 IHe1 e2 IHe2|l x e1 IHe1 e2 IHe2];
    intros context scope ix ix' Hag H; simpl in H; invert_bind.
  - split; [|set_solver]. intros v ??? ->%list_elem_of_singleton. done.
  - split; [|set_solver]. intros v ??? ->%list_elem_of_singleton. done.
  - split; [intros v ??? ->%list_elem_of_singleton; done|].
    intros v Hv. simpl in Hv. apply list_elem_of_singleton in Hv as [= -> Hn].
    rewrite (context_get_agree _ scope) in H by done. rewrite <-Hn in H.
    destruct (decide _); [eauto|done].
  - edestruct IHe1 as [A1 B1]; [done..|]. edestruct IHe2 as [A2 B2]; [done..|].
    split.
    + intros v ??? Hv. simpl in Hv.
      rewrite elem_of_cons, elem_of_app in Hv. destruct Hv as [->|[|]]; [done|eauto..].
    + intros v Hv. simpl in Hv. rewrite elem_of_app in Hv. destruct Hv; eauto.
  - edestruct IHe1 as [A1 B1]; [done..|]. edestruct IHe2 as [A2 B2]; [done..|].
    edestruct IHe3 as [A3 B3]; [done..|].
    split.
    + intros v ??? Hv. simpl in Hv.
      rewrite elem_of_cons, !elem_of_app in Hv.
      destruct Hv as [->|[|[|]]]; [done|eauto..].
    + intros v Hv. simpl in Hv. rewrite !elem_of_app in Hv. destruct Hv as [|[|]]; eauto.
  - edestruct (IHe (extendContext context l [x])
                 ((x, FnExpression l x e) :: scope)) as [A B];
      [by apply (agree_extend _ _ _ (FnExpression l x e))|done|].
    split; [|done].
    intros v ??? Hv. simpl in Hv. rewrite elem_of_cons in Hv. destruct Hv as [->|]; [done|eauto].
  - destruct (decide (f = x)) as [|Hne]; [done|].
    edestruct (IHe (extendContext context l [f; x])
                 ((x, FunExpression l f x e)
                  :: (f, FunExpression l f x e) :: scope)) as [A B];
      [|done|].
    { apply (agree_extend _ _ _ (FunExpression l f x e)).
      by apply (agree_extend _ _ _ (FunExpression l f x e)). }
    split; [|done].
    intros v ??? Hv. simpl in Hv. rewrite elem_of_cons in Hv.
    destruct Hv as [->|]; [congruence|eauto].
  - edestruct IHe1 as [A1 B1]; [done..|]. edestruct IHe2 as [A2 B2]; [done..|].
    split.
    + intros v ??? Hv. simpl in Hv.
      rewrite elem_of_cons, elem_of_app in Hv. destruct Hv as [->|[|]]; [done|eauto..].
    + intros v Hv. simpl in Hv. rewrite elem_of_app in Hv. destruct Hv; eauto.
  - edestruct IHe1 as [A1 B1]; [done..|].
    edestruct (IHe2 (extendContext context l [x])
                 ((x, LetExpression l x e1 e2) :: scope)) as [A2 B2];
      [by apply (agree_extend _ _ _ (LetExpression l x e1 e2))|done|].
    split.
    + intros v ??? Hv. simpl in Hv.
      rewrite elem_of_cons, elem_of_app in Hv. destruct Hv as [->|[|]]; [done|eauto..].
    + intros v Hv. simpl in Hv. rewrite elem_of_app in Hv. destruct Hv; eauto.
Qed.

Lemma thrown_mono occs occs' subs subs' err :
  occs ⊆ occs' → subs ⊆ subs' → thrown occs subs err → thrown occs' subs' err.
Proof.
  intros Ho Hs [(l&x&?&?&?)|(l&f&body&?&?)]; [left|right].
  - exists l, x. auto.
  - exists l, f, body. auto.
Qed.

(** A traversal that throws has met an unbound variable or a colliding [fun]
    node, and throws nothing else. *)
Lemma collectExpressions_Throw e : ∀ context scope ix err,
  agree context scope →
  collectExpressions e context ix = Throw err →
  thrown (occurrences scope e) (subexpressions e) err.
Proof.
  induction e as [l n|l b|l x|l op e1 IHe1 e2 IHe2|l e1 IHe1 e2 IHe2 e3 IHe3|l x e IHe
                 |l f x e IHe|l e1 IHe1 e2 IHe2|l x e1 IHe1 e2 IHe2];
    intros context scope ix err Hag H; simpl in H; invert_bind;
    try discriminate H.
  - rewrite (context_get_agree _ scope) in H by done. simpl.
    destruct (map_get x scope); simpl in H; [done|].
    destruct (decide _); simpl in H; [done|]. injection H as <-.
    left. exists l, x. split; [done|]. split; [done|]. set_solver.
  - eapply thrown_mono; [| |by eapply (IHe1 _ scope)]; simpl; set_solver.
  - eapply thrown_mono; [| |by eapply (IHe2 _ scope)]; simpl; set_solver.
  - eapply thrown_mono; [| |by eapply (IHe1 _ scope)]; simpl; set_solver.
  - eapply thrown_mono; [| |by eapply (IHe2 _ scope)]; simpl; set_solver.
  - eapply thrown_mono; [| |by eapply (IHe3 _ scope)]; simpl; set_solver.
  - eapply thrown_mono; [| |eapply (IHe _ ((x, FnExpression l x e) :: scope)); [|done]];
      [simpl; set_solver..|].
    by apply (agree_extend _ _ _ (FnExpression l x e)).
  - destruct (decide (f = x)) as [->|Hne].
    { injection H as <-. right. exists l, x, e. split; [done|]. simpl. set_solver. }
    eapply thrown_mono;
      [| |eapply (IHe _ ((x, FunExpression l f x e) :: (f, FunExpression l f x e) :: scope));
          [|done]]; [simpl; set_solver..|].
    apply (agree_extend _ _ _ (FunExpression l f x e)).
    by apply (agree_extend _ _ _ (FunExpression l f x e)).
  - eapply thrown_mono; [| |by eapply (IHe1 _ scope)]; simpl; set_solver.
  - eapply thrown_mono; [| |by eapply (IHe2 _ scope)]; simpl; set_solver.
  - eapply thrown_mono; [| |by eapply (IHe1 _ scope)]; simpl; set_solver.
  - eapply thrown_mono;
      [| |eapply (IHe2 _ ((x, LetExpression l x e1 e2) :: scope)); [|done]];
      [simpl; set_solver..|].
    by apply (agree_extend _ _ _ (LetExpression l x e1 e2)).
Qed.

Lemma collectExpressions_declarations e : ∀ context scope ix ix',
  agree context scope →
  collectExpressions e context ix = OK ix' →
  labelOfvariableDeclaration ix' =
    labelOfvariableDeclaration ix ++ ((λ o, (o.1, bindingOf o)) <$> occurrences scope e).
Proof.
  induction e as [l n|l b|l x|l op e1 IHe1 e2 IHe2|l e1 IHe1 e2 IHe2 e3 IHe3|l x e IHe
                 |l f x e IHe|l e1 IHe1 e2 IHe2|l x e1 IHe1 e2 IHe2];
    intros context scope ix ix' Hag H; simpl in H; invert_bind; simpl.
  - subst. simpl. by rewrite app_nil_r.
  - subst. simpl. by rewrite app_nil_r.
  - rewrite (context_get_agree _ scope) in H by done. unfold bindingOf. simpl.
    destruct (map_get x scope); simpl in *.
    + by injection H as <-.
    + destruct (decide _); simpl in H; [|done]. by injection H as <-.
  - erewrite IHe2, IHe1 by done. simpl. by rewrite fmap_app, app_assoc.
  - erewrite IHe3, IHe2, IHe1 by done. simpl. by rewrite !fmap_app, !app_assoc.
  - apply (IHe _ ((x, FnExpression l x e) :: scope)) in H; [done|].
    by apply (agree_extend _ _ _ (FnExpression l x e)).
  - destruct (decide (f = x)); [done|].
    apply (IHe _ ((x, FunExpression l f x e) :: (f, FunExpression l f x e) :: scope)) in H;
      [done|].
    apply (agree_extend _ _ _ (FunExpression l f x e)).
    by apply (agree_extend _ _ _ (FunExpression l f x e)).
  - erewrite IHe2, IHe1 by done. simpl. by rewrite fmap_app, app_assoc.
  - apply (IHe2 _ ((x, LetExpression l x e1 e2) :: scope)) in H;
      [|by apply (agree_extend _ _ _ (LetExpression l x e1 e2))].
    rewrite H. erewrite IHe1 by done. simpl. by rewrite fmap_app, app_assoc.
Qed.

Lemma collected_register e ix t :
  collected (register e ix) t =
    collected ix t ++ (if decide (type e = t) then [e] else []).
Proof.
  unfold collected at 1. simpl. destruct (decide (type e = t)) as [<-|].
  - by rewrite lookup_insert_eq.
  - rewrite lookup_insert_ne by done. by rewrite app_nil_r.
Qed.

Lemma collected_declare e b ix t : collected (declare e b ix) t = collected ix t.
Proof. done. Qed.

(** The collection of a type holds the nodes of that type, in traversal
    order. *)
Lemma collectExpressions_collected e : ∀ context ix ix' t,
  collectExpressions e context ix = OK ix' →
  collected ix' t = collected ix t ++ filter (λ e', type e' = t) (subexpressions e).
Proof.
  induction e as [l n|l b|l x|l op e1 IHe1 e2 IHe2|l e1 IHe1 e2 IHe2 e3 IHe3|l x e IHe
                 |l f x e IHe|l e1 IHe1 e2 IHe2|l x e1 IHe1 e2 IHe2];
    intros context ix ix' t H; simpl in H; invert_bind;
    cbn [subexpressions]; rewrite filter_cons.
  - subst. rewrite collected_register. by destruct (decide _).
  - subst. rewrite collected_register. by destruct (decide _).
  - destruct (context_get _ _); simpl in H; [|done]. injection H as <-.
    rewrite collected_declare, collected_register. by destruct (decide _).
  - erewrite IHe2, IHe1 by done. rewrite collected_register, filter_app.
    destruct (decide _); simpl; by rewrite <-?app_assoc.
  - erewrite IHe3, IHe2, IHe1 by done. rewrite collected_register, !filter_app.
    destruct (decide _); simpl; by rewrite <-?app_assoc.
  - erewrite IHe by done. rewrite collected_register.
    destruct (decide _); simpl; by rewrite <-?app_assoc.
  - destruct (decide (f = x)); [done|].
    erewrite IHe by done. rewrite collected_register.
    destruct (decide _); simpl; by rewrite <-?app_assoc.
  - erewrite IHe2, IHe1 by done. rewrite collected_register, filter_app.
    destruct (decide _); simpl; by rewrite <-?app_assoc.
  - erewrite IHe2, IHe1 by done. rewrite collected_register, filter_app.
    destruct (decide _); simpl; by rewrite <-?app_assoc.
Qed.


(** A failed traversal is the outcome of the solve, whatever the rules. *)
Lemma solve_Throw localeCompare ast err rules :
  collectExpressions ast ∅ emptyIndex = Throw err →
  solve localeCompare ast rules = Throw err.
Proof. intros H. unfold solve. by rewrite H. Qed.

Lemma extendContext_fun context l f x :
  context_get (extendContext context l [f; x]) f = Some (Declared l) ∧
  context_get (extendContext context l [f; x]) x = Some (Declared l).
Proof.
  unfold context_get, extendContext. simpl. split.
  - destruct (decide (f = x)) as [->|].
    + by rewrite lookup_insert_eq.
    + by rewrite lookup_insert_ne, lookup_insert_eq.
  - by rewrite lookup_insert_eq.
Qed.

(** C4, as amended.  When the tree has a [var] node that no enclosing binder
    binds and whose name is not a property of [Object.prototype], the traversal
    throws, and that error is the outcome of the solve for every sequence of
    rules: no rule is translated or enacted and there is no analysis.  The
    error is [UnboundVariable] for an unbound [var] node or [NameCollision] for
    a colliding [fun] node, whichever the traversal meets first; it is
    [UnboundVariable] when the tree has no colliding [fun] node. *)
Theorem unbound_variable_aborts (localeCompare : string → string → Z) ast l x :
  unbound ast (VariableExpression l x) →
  x ∉ objectPrototype →
  ∃ err,
    collectExpressions ast ∅ emptyIndex = Throw err ∧
    (∀ rules, solve localeCompare ast rules = Throw err) ∧
    thrown (occurrences [] ast) (subexpressions ast) err ∧
    ((∀ w, ¬ collides ast w) → ∃ l' x', err = UnboundVariable l' x').
Proof.
  intros Hv Hx.
  destruct (collectExpressions ast ∅ emptyIndex) as [ix|err] eqn:H.
  { apply (collectExpressions_OK _ _ []) in H as [_ H]; [|apply agree_empty].
    apply H in Hv as (l' & x' & [= -> ->] & ?). done. }
  exists err. split; [done|]. split; [intros; by apply solve_Throw|].
  pose proof (collectExpressions_Throw _ _ [] _ _ agree_empty H) as Ht.
  split; [done|]. intros Hc.
  destruct Ht as [(l' & x' & -> & _)|(l' & f & body & -> & Hin)]; [eauto|].
  destruct (Hc (FunExpression l' f f body)). split; eauto.
Qed.

Lemma unbound_variable_aborts_witness :
  unbound unboundBody (VariableExpression 2 "y") ∧
  ("y" ∉ objectPrototype) ∧
  ∃ err,
    collectExpressions unboundBody ∅ emptyIndex = Throw err ∧
    (∀ rules, solve codeUnitCompare unboundBody rules = Throw err) ∧
    thrown (occurrences [] unboundBody) (subexpressions unboundBody) err ∧
    ((∀ w, ¬ collides unboundBody w) → ∃ l' x', err = UnboundVariable l' x').
Proof.
  assert (unbound unboundBody (VariableExpression 2 "y")) as Hv
    by (unfold unbound; simpl; apply list_elem_of_here).
  assert ("y" ∉ objectPrototype) as Hx by (apply (bool_decide_unpack _); reflexivity).
  split; [exact Hv|]. split; [exact Hx|].
  exact (unbound_variable_aborts codeUnitCompare unboundBody 2 "y" Hv Hx).
Defined.

(** C4 as stated fails: [(fun f f => y)] has an unbound [var] node and the
    solve throws [NameCollision]. *)
Lemma unbound_variable_not_reported :
  unbound selfNamedUnbound (VariableExpression 2 "y") ∧
  ("y" ∉ objectPrototype) ∧
  solve codeUnitCompare selfNamedUnbound [] = Throw (NameCollision 1 "f") ∧
  ∀ l x, solve codeUnitCompare selfNamedUnbound [] ≠ Throw (UnboundVariable l x).
Proof.
  split; [unfold unbound; simpl; apply list_elem_of_here|].
  split; [apply (bool_decide_unpack _); reflexivity|].
  split; [reflexivity|]. intros l x. discriminate.
Qed.

(** The slip C4 leaves out: a name [Object.prototype] has is never reported,
    the solve goes on with the inherited value as the binding. *)
Lemma inherited_name_is_bound :
  unbound constructorBody (VariableExpression 2 "constructor") ∧
  solve codeUnitCompare constructorBody
    [{| lhs := Constant (Num 7);
        rhs := VariableReference (VariableExpression 2 "constructor") |}]
  = OK [("p(constructor#function Object() { [native code] })", [Num 7])].
Proof. split; [unfold unbound; simpl; apply list_elem_of_here|reflexivity]. Qed.

(** C5, as amended.  For a [fun] node of the tree: when its function name is
    its parameter name the traversal throws, and that error is the outcome of
    the solve for every sequence of rules; it is [NameCollision] for a colliding
    node or [UnboundVariable] for an unbound [var] node, whichever the traversal
    meets first, and [NameCollision] when the tree has no unbound [var] node.
    When the two names differ, the body is traversed in the context extended
    with both names bound to the label of the node, and every [var] node whose
    binder is the node is recorded with that label. *)
Theorem name_collision_aborts (localeCompare : string → string → Z) ast l f x body :
  FunExpression l f x body ∈ subexpressions ast →
  (f = x →
   ∃ err,
     collectExpressions ast ∅ emptyIndex = Throw err ∧
     (∀ rules, solve localeCompare ast rules = Throw err) ∧
     thrown (occurrences [] ast) (subexpressions ast) err ∧
     ((∀ v, ¬ unbound ast v) → ∃ l' f', err = NameCollision l' f')) ∧
  (f ≠ x →
   (∀ context ix,
      collectExpressions (FunExpression l f x body) context ix =
      collectExpressions body (extendContext context l [f; x])
        (register (FunExpression l f x body) ix) ∧
      context_get (extendContext context l [f; x]) f = Some (Declared l) ∧
      context_get (extendContext context l [f; x]) x = Some (Declared l)) ∧
   (∀ ix v,
      collectExpressions ast ∅ emptyIndex = OK ix →
      (v, Some (FunExpression l f x body)) ∈ occurrences [] ast →
      (v, Declared l) ∈ labelOfvariableDeclaration ix)).
Proof.
  intros Hin. split.
  - intros <-.
    destruct (collectExpressions ast ∅ emptyIndex) as [ix|err] eqn:H.
    { apply (collectExpressions_OK _ _ []) in H as [H _]; [|apply agree_empty].
      by destruct (H _ l f body Hin). }
    exists err. split; [done|]. split; [intros; by apply solve_Throw|].
    pose proof (collectExpressions_Throw _ _ [] _ _ agree_empty H) as Ht.
    split; [done|]. intros Hc.
    destruct Ht as [(l' & x' & -> & _ & Hv)|(l' & f' & body' & -> & _)]; [|eauto].
    by destruct (Hc _ Hv).
  - intros Hne. split.
    + intros context ix. split; [|apply extendContext_fun].
      simpl. by destruct (decide (f = x)).
    + intros ix v H Hv.
      apply (collectExpressions_declarations _ _ []) in H; [|apply agree_empty].
      rewrite H. simpl.
      apply (list_elem_of_fmap_2 (λ o, (o.1, bindingOf o))) in Hv. done.
Qed.

Lemma name_collision_aborts_witness :
  (∃ err,
     collectExpressions selfNamed ∅ emptyIndex = Throw err ∧
     (∀ rules, solve codeUnitCompare selfNamed rules = Throw err) ∧
     thrown (occurrences [] selfNamed) (subexpressions selfNamed) err ∧
     ((∀ v, ¬ unbound selfNamed v) → ∃ l' f', err = NameCollision l' f')) ∧
  (∀ ix v,
     collectExpressions recursive ∅ emptyIndex = OK ix →
     (v, Some recursive) ∈ occurrences [] recursive →
     (v, Declared 1) ∈ labelOfvariableDeclaration ix).
Proof.
  split.
  - refine (proj1 (name_collision_aborts codeUnitCompare selfNamed 1 "f" "f"
                     (VariableExpression 2 "f") _) eq_refl).
    simpl. apply list_elem_of_here.
  - refine (proj2 (proj2 (name_collision_aborts codeUnitCompare recursive 1 "f" "x"
                            (VariableExpression 2 "f") _) _)).
    + simpl. apply list_elem_of_here.
    + discriminate.
Defined.

(** C5 as stated fails: [(y (fun f f => f))] has a colliding [fun] node and
    the solve throws [UnboundVariable]. *)
Lemma name_collision_not_reported :
  collides unboundThenSelfNamed (FunExpression 3 "f" "f" (VariableExpression 4 "f")) ∧
  solve codeUnitCompare unboundThenSelfNamed [] = Throw (UnboundVariable 2 "y") ∧
  ∀ l f, solve codeUnitCompare unboundThenSelfNamed [] ≠ Throw (NameCollision l f).
Proof.
  split.
  - split; [simpl; set_solver|]. by eexists _, _, _.
  - split; [reflexivity|]. intros l f. discriminate.
Qed.


(** ** The generator of [type] *)

Lemma resume_None ix types :
  resume ix types = None → types ≫= collected ix = [].
Proof.
  induction types as [|t types IH]; [done|]. simpl. unfold collected at 1.
  destruct (expressions ix !! t) as [[|e c]|]; simpl; auto. done.
Qed.

Lemma resume_Some ix types e g :
  resume ix types = Some (e, g) → types ≫= collected ix = e :: pending ix g.
Proof.
  induction types as [|t types IH]; [done|]. simpl. unfold collected at 1.
  destruct (expressions ix !! t) as [[|e' c]|]; simpl; auto.
  by intros [= -> <-].
Qed.

Lemma next_None ix g : next ix g = None → pending ix g = [].
Proof.
  unfold next, pending. destruct (delegate g); [|done]. apply resume_None.
Qed.

Lemma next_Some ix g e g' : next ix g = Some (e, g') → pending ix g = e :: pending ix g'.
Proof.
  unfold next, pending at 1. destruct (delegate g) as [|e' c].
  - apply resume_Some.
  - by intros [= -> <-].
Qed.

Lemma iterate_pending ix : ∀ (fuel : nat) g,
  (length (pending ix g) ≤ fuel)%nat → iterate ix fuel g = Some (pending ix g, completed).
Proof.
  induction fuel as [|fuel IH]; intros g Hlen; simpl.
  - destruct (next ix g) as [[e g']|] eqn:Hn.
    + apply next_Some in Hn. rewrite Hn in Hlen. simpl in Hlen. lia.
    + apply next_None in Hn. by rewrite Hn.
  - destruct (next ix g) as [[e g']|] eqn:Hn.
    + apply next_Some in Hn. rewrite Hn in Hlen |- *. simpl in Hlen.
      rewrite IH by lia. done.
    + apply next_None in Hn. by rewrite Hn.
Qed.

(** C8, as amended.  After a traversal that returned, the generator a call of
    [type] gives is finite: a loop over it ends, having yielded, for each given
    type in the order of the arguments, the nodes of that type in traversal
    order (a type given twice has its nodes yielded twice).  The loop leaves
    the generator completed: any later loop over it ends at once and yields
    nothing. *)
Theorem getExpressionsOfType_single_pass ast ix types :
  collectExpressions ast ∅ emptyIndex = OK ix →
  ∃ g',
    (∀ fuel : nat,
       (length (types ≫= λ t, filter (λ e, type e = t) (subexpressions ast)) ≤ fuel)%nat →
       iterate ix fuel (getExpressionsOfType types) =
         Some (types ≫= λ t, filter (λ e, type e = t) (subexpressions ast), g')) ∧
    (∀ fuel : nat, iterate ix fuel g' = Some ([], g')).
Proof.
  intros H. exists completed.
  assert (pending ix (getExpressionsOfType types) =
          types ≫= λ t, filter (λ e, type e = t) (subexpressions ast)) as Hp.
  { unfold pending. simpl. induction types as [|t types IH]; [done|].
    rewrite !bind_cons, IH. f_equal.
    by rewrite (collectExpressions_collected _ _ _ _ _ H). }
  split.
  - intros fuel Hlen. rewrite <-Hp in *. by apply iterate_pending.
  - intros fuel. by destruct fuel.
Qed.

Lemma getExpressionsOfType_single_pass_witness :
  ∃ ix g',
    collectExpressions recursiveCall ∅ emptyIndex = OK ix ∧
    iterate ix 5 (getExpressionsOfType ["var"; "fun"]) =
      Some ([VariableExpression 3 "f"; VariableExpression 4 "x"; recursiveCall], g') ∧
    iterate ix 5 g' = Some ([], g').
Proof.
  destruct (collectExpressions recursiveCall ∅ emptyIndex) as [ix|err] eqn:H;
    [|discriminate H].
  destruct (getExpressionsOfType_single_pass recursiveCall ix ["var"; "fun"] H)
    as (g' & H1 & H2).
  exists ix, g'. split; [reflexivity|]. split; [|apply H2].
  apply (H1 5%nat). vm_compute. lia.
Defined.

(** C8 as stated fails: the sequence cannot be iterated twice. *)
Lemma getExpressionsOfType_not_restartable :
  ∃ ix g',
    collectExpressions identity ∅ emptyIndex = OK ix ∧
    iterate ix 3 (getExpressionsOfType ["fn"]) = Some ([identity], g') ∧
    iterate ix 3 g' = Some ([], g') ∧
    iterate ix 3 g' ≠ iterate ix 3 (getExpressionsOfType ["fn"]).
Proof.
  eexists _, _. split; [reflexivity|]. split; [reflexivity|].
  split; [reflexivity|]. vm_compute. discriminate.
Qed.

(** ** Scenario B *)

(** C9.  For a tree whose root has label 1 and whose traversal returns, the
    solve of the one rule [{lhs: {constant: 1}, rhs: {expression: root}}]
    returns the analysis [{"C(1)": [1]}]. *)
Theorem constant_rule_on_root (localeCompare : string → string → Z) root ix :
  collectExpressions root ∅ emptyIndex = OK ix →
  label root = 1 →
  solve localeCompare root
    [{| lhs := Constant (Num 1); rhs := ExpressionReference root |}]
  = OK [("C(1)", [Num 1])].
Proof.
  intros H Hl. unfold solve. rewrite H. simpl.
  unfold defineRule, getEntryFromReference. simpl. rewrite Hl. reflexivity.
Qed.

Lemma constant_rule_on_root_witness :
  ∃ ix,
    collectExpressions identity ∅ emptyIndex = OK ix ∧
    label identity = 1 ∧
    solve codeUnitCompare identity
      [{| lhs := Constant (Num 1); rhs := ExpressionReference identity |}]
    = OK [("C(1)", [Num 1])].
Proof.
  destruct (collectExpressions identity ∅ emptyIndex) as [ix|err] eqn:H;
    [|discriminate H].
  exists ix. split; [reflexivity|]. split; [reflexivity|].
  exact (constant_rule_on_root codeUnitCompare identity ix H eq_refl).
Defined.


(** ** The store *)

Lemma ids_alter (f : Entry → Entry) e (l : list (string * Entry)) :
  (alter (λ ie, (ie.1, f ie.2)) e l).*1 = l.*1.
Proof.
  rewrite (list_fmap_alter fst _ id) by (by apply Forall_true).
  by apply list_alter_id.
Qed.

Lemma lookup_alter_entry (f : Entry → Entry) e e' (l : list (string * Entry)) :
  alter (λ ie, (ie.1, f ie.2)) e l !! e' =
    if decide (e = e') then (λ ie, (ie.1, f ie.2)) <$> l !! e' else l !! e'.
Proof.
  destruct (decide (e = e')) as [->|].
  - apply list_lookup_alter_eq.
  - by apply list_lookup_alter_ne.
Qed.

Lemma elem_of_alter_entry (f : Entry → Entry) e (l : list (string * Entry)) id en :
  (id, en) ∈ alter (λ ie, (ie.1, f ie.2)) e l →
  ∃ en0, (id, en0) ∈ l ∧ (en = en0 ∨ l !! e = Some (id, en0) ∧ en = f en0).
Proof.
  intros (i & Hi)%list_elem_of_lookup. rewrite lookup_alter_entry in Hi.
  destruct (decide (e = i)) as [->|].
  - destruct (l !! i) as [[id0 en0]|] eqn:E; simpl in Hi; [|done].
    injection Hi as <- <-. exists en0. split; [by eapply list_elem_of_lookup_2|auto].
  - exists en. split; [by eapply list_elem_of_lookup_2|auto].
Qed.

Lemma idOf_alterEntry f e st e' : idOf (alterEntry f e st) e' = idOf st e'.
Proof.
  unfold idOf. simpl. rewrite <-!list_lookup_fmap. by rewrite ids_alter.
Qed.

Lemma idOf_Some st e id : idOf st e = Some id ↔ ∃ en, entries st !! e = Some (id, en).
Proof.
  unfold idOf. destruct (entries st !! e) as [[id' en]|]; simpl; split.
  - intros [= ->]. eauto.
  - by intros (? & [= -> _]).
  - done.
  - by intros (? & ?).
Qed.

Lemma idOf_lt st e id : idOf st e = Some id → (e < length (entries st))%nat.
Proof. intros (en & H)%idOf_Some. by eapply lookup_lt_Some. Qed.

Lemma dataOf_lookup st e id en : entries st !! e = Some (id, en) → dataOf st e = data en.
Proof. intros H. unfold dataOf. by rewrite H. Qed.

Lemma dataOf_None st e : entries st !! e = None → dataOf st e = [].
Proof. intros H. unfold dataOf. by rewrite H. Qed.

Global Instance extends_preorder : PreOrder extends.
Proof. split; [by intros ???|]. intros st1 st2 st3 H1 H2 e id ?. auto. Qed.

Lemma extends_alterEntry f e st : extends st (alterEntry f e st).
Proof. intros e' id. by rewrite idOf_alterEntry. Qed.

Lemma extends_allocate st : extends st (allocate st).
Proof. by intros e id. Qed.

Lemma extends_worklistAdd e st : extends st (worklistAdd e st).
Proof. by intros e' id. Qed.

(** ** [getOrCreateEntry] *)

Lemma getOrCreateEntry_spec category key st :
  let r := getOrCreateEntry category key st in
  let id := entryId category key in
  idOf r.2 r.1 = Some id ∧
  worklist r.2 = worklist st ∧
  allocated r.2 = allocated st ∧
  (r.2 = st ∧ id ∈ (entries st).*1 ∨
   (id ∉ (entries st).*1) ∧ r.1 = length (entries st) ∧
   entries r.2 = entries st ++ [(id, {| key := key; data := []; rules := [] |})]).
Proof.
  unfold getOrCreateEntry.
  destruct (list_find _ _) as [[i [id' en]]|] eqn:Hf; simpl.
  - apply list_find_Some in Hf as (Hi & Hid & _). simpl in Hid. subst id'.
    split; [|split; [done|split; [done|left]]].
    + unfold idOf. by rewrite Hi.
    + split; [done|]. apply list_elem_of_fmap. exists (entryId category key, en).
      split; [done|]. by eapply list_elem_of_lookup_2.
  - apply list_find_None in Hf.
    split; [|split; [done|split; [done|right]]].
    + unfold idOf. simpl. by rewrite list_lookup_middle.
    + split; [|done]. intros ([id' en] & Heq & Hin)%list_elem_of_fmap. simpl in Heq.
      rewrite Forall_forall in Hf. by apply (Hf _ Hin).
Qed.

Lemma extends_getOrCreateEntry category key st :
  extends st (getOrCreateEntry category key st).2.
Proof.
  destruct (getOrCreateEntry_spec category key st) as (_ & _ & _ & [[-> _]|(_ & _ & H)]);
    [done|].
  intros e id (en & He)%idOf_Some. apply idOf_Some. exists en. rewrite H.
  by apply lookup_app_l_Some.
Qed.

(** ** [enactRule] *)

Lemma dataExtend_nil en : dataExtend [] en = en.
Proof. destruct en. unfold dataExtend. simpl. by rewrite app_nil_r. Qed.

Lemma dataExtend_cons v new en : dataExtend new (dataAdd v en) = dataExtend (v :: new) en.
Proof. unfold dataExtend, dataAdd. simpl. by rewrite <-app_assoc. Qed.

Lemma enactValue_old rhs st b v :
  v ∈ dataOf st rhs → enactValue rhs (st, b) v = (st, b).
Proof. intros H. unfold enactValue. simpl. by rewrite decide_True. Qed.

Lemma enactValue_new rhs st b v :
  v ∉ dataOf st rhs → enactValue rhs (st, b) v = (alterEntry (dataAdd v) rhs st, true).
Proof. intros H. unfold enactValue. simpl. by rewrite decide_False. Qed.

Lemma enactValues_spec rhs vs : ∀ st b,
  let r := foldl (enactValue rhs) (st, b) vs in
  ∃ new,
    entries r.1 = alter (λ ie, (ie.1, dataExtend new ie.2)) rhs (entries st) ∧
    worklist r.1 = worklist st ∧
    allocated r.1 = allocated st ∧
    (∀ v, v ∈ new → v ∈ vs) ∧
    (is_Some (entries st !! rhs) → NoDup (dataOf st rhs) → NoDup (dataOf st rhs ++ new)).
Proof.
  induction vs as [|v vs IH]; intros st b; simpl.
  - exists []. split_and!; try done.
    + symmetry. apply list_alter_id. intros [id en]. simpl. by rewrite dataExtend_nil.
    + intros _ ?. by rewrite app_nil_r.
  - destruct (decide (v ∈ dataOf st rhs)) as [Hin|Hin].
    + rewrite enactValue_old by done.
      destruct (IH st b) as (new & ? & ? & ? & Hnew & ?).
      exists new. split_and!; try done. intros v' ?. right. auto.
    + rewrite enactValue_new by done.
      destruct (IH (alterEntry (dataAdd v) rhs st) true) as (new & He & ? & ? & Hnew & Hnd).
      exists (v :: new). split_and!; try done.
      * rewrite He. simpl. rewrite list_alter_alter_eq. apply list_alter_ext; [|done].
        intros [id en] _. simpl. by rewrite dataExtend_cons.
      * intros v' [->|?]%elem_of_cons; [left|right; auto].
      * intros [[id en] Hl] Hd.
        assert (dataOf (alterEntry (dataAdd v) rhs st) rhs = dataOf st rhs ++ [v]) as Hd'.
        { unfold dataOf. simpl. rewrite list_lookup_alter_eq, Hl. done. }
        rewrite Hd', <-app_assoc in Hnd. apply Hnd.
        -- simpl. rewrite list_lookup_alter_eq, Hl. by eexists.
        -- apply NoDup_app. split; [done|]. split; [|apply NoDup_singleton].
           intros x Hx ->%list_elem_of_singleton. done.
Qed.

Lemma enactRule_spec t st :
  ∃ new,
    entries (enactRule t st) =
      alter (λ ie, (ie.1, dataExtend new ie.2)) (trhs t) (entries st) ∧
    (worklist (enactRule t st) = worklist st ∨
     worklist (enactRule t st) = set_add (trhs t) (worklist st)) ∧
    allocated (enactRule t st) = allocated st ∧
    (∀ v, v ∈ new → v ∈ evaluate st (tlhs t)) ∧
    (is_Some (entries st !! trhs t) → NoDup (dataOf st (trhs t)) →
     NoDup (dataOf st (trhs t) ++ new)).
Proof.
  unfold enactRule.
  destruct (enactValues_spec (trhs t) (evaluate st (tlhs t)) st false)
    as (new & He & Hw & Ha & Hnew & Hnd).
  exists new. destruct (foldl _ _ _) as [st' []]; simpl in *.
  - split_and!; try done. right. by rewrite Hw.
  - split_and!; try done. by left.
Qed.

Lemma extends_enactRule t st : extends st (enactRule t st).
Proof.
  destruct (enactRule_spec t st) as (new & He & _).
  intros e id. unfold idOf. rewrite He. rewrite <-!list_lookup_fmap. by rewrite ids_alter.
Qed.

Lemma idOf_enactRule t st e : idOf (enactRule t st) e = idOf st e.
Proof.
  destruct (enactRule_spec t st) as (new & He & _).
  unfold idOf. rewrite He. rewrite <-!list_lookup_fmap. by rewrite ids_alter.
Qed.

Lemma dataOf_enactRule t st e :
  ∃ new, dataOf (enactRule t st) e = dataOf st e ++ new ∧
         (NoDup (dataOf st e) → NoDup (dataOf st e ++ new)) ∧
         (∀ v, v ∈ new → e = trhs t ∧ v ∈ evaluate st (tlhs t)).
Proof.
  destruct (enactRule_spec t st) as (new & He & _ & _ & Hnew & Hnd).
  unfold dataOf at 1. rewrite He, lookup_alter_entry.
  destruct (decide (trhs t = e)) as [<-|].
  - destruct (entries st !! trhs t) as [[id en]|] eqn:Hl; simpl.
    + exists new. rewrite (dataOf_lookup _ _ _ _ Hl) in *. split; [done|]. split; [|auto].
      apply Hnd. by eexists.
    + exists []. rewrite (dataOf_None _ _ Hl). split; [done|]. split; [done|]. set_solver.
  - exists []. rewrite app_nil_r. split; [done|]. split; [done|]. set_solver.
Qed.


(** ** Data only grows *)

Lemma dataOf_getOrCreateEntry category key st e :
  dataOf (getOrCreateEntry category key st).2 e = dataOf st e.
Proof.
  destruct (getOrCreateEntry_spec category key st) as (_ & _ & _ & [[-> _]|(_ & _ & H)]);
    [done|].
  unfold dataOf. rewrite H.
  destruct (decide (e < length (entries st))%nat).
  - by rewrite lookup_app_l.
  - rewrite (lookup_ge_None_2 (entries st)) by lia.
    destruct (decide (e = length (entries st))) as [->|].
    + by rewrite list_lookup_middle.
    + rewrite lookup_ge_None_2; [done|]. rewrite length_app. simpl. lia.
Qed.

Lemma dataOf_registerRule t st dep e : dataOf (registerRule t st dep) e = dataOf st e.
Proof.
  unfold dataOf, registerRule. simpl. rewrite lookup_alter_entry.
  destruct (decide (dep = e)); [|done]. by destruct (entries st !! e).
Qed.

Lemma dataOf_perform a st e :
  ∃ new, dataOf (perform st a) e = dataOf st e ++ new ∧
         (NoDup (dataOf st e) → NoDup (dataOf st e ++ new)).
Proof.
  destruct a as [category key| |t dep|t]; simpl.
  - exists []. by rewrite dataOf_getOrCreateEntry, app_nil_r.
  - exists []. by rewrite app_nil_r.
  - exists []. by rewrite dataOf_registerRule, app_nil_r.
  - destruct (dataOf_enactRule t st e) as (new & ? & ? & _). eauto.
Qed.

Lemma dataOf_performAll actions : ∀ st e,
  ∃ new, dataOf (performAll st actions) e = dataOf st e ++ new ∧
         (NoDup (dataOf st e) → NoDup (dataOf st e ++ new)).
Proof.
  unfold performAll.
  induction actions as [|a actions IH]; intros st e; simpl.
  - exists []. by rewrite app_nil_r.
  - destruct (dataOf_perform a st e) as (new1 & H1 & N1).
    destruct (IH (perform st a) e) as (new2 & H2 & N2).
    exists (new1 ++ new2). rewrite H2, H1, app_assoc.
    split; [done|]. intros Hd. rewrite <-H1. apply N2. rewrite H1. auto.
Qed.

Lemma performAll_app st a b : performAll st (a ++ b) = performAll (performAll st a) b.
Proof. apply foldl_app. Qed.

(** Every phase of a solve is a sequence of actions. *)
Lemma getEntryFromReference_actions ix ref st r :
  getEntryFromReference ix ref st = OK r → ∃ actions, r.2 = performAll st actions.
Proof.
  unfold getEntryFromReference. intros (ck & _ & [= <-])%bind_OK.
  by exists [Create ck.1 ck.2].
Qed.

Lemma getEntriesFromReferences_actions ix refs : ∀ st r,
  getEntriesFromReferences ix refs st = OK r → ∃ actions, r.2 = performAll st actions.
Proof.
  induction refs as [|ref refs IH]; intros st r H; simpl in H.
  - injection H as <-. by exists [].
  - apply bind_OK in H as (r1 & H1 & H). apply bind_OK in H as (rs & Hs & [= <-]).
    apply getEntryFromReference_actions in H1 as (a1 & E1).
    apply IH in Hs as (a2 & E2).
    exists (a1 ++ a2). simpl. by rewrite performAll_app, <-E1.
Qed.

Lemma registerRules_actions t deps : ∀ st,
  foldl (registerRule t) st deps = performAll st (Register t <$> deps).
Proof. induction deps as [|d deps IH]; intros st; simpl; [done|]. by rewrite IH. Qed.

Lemma enactRules_actions ts : ∀ st,
  enactRules ts st = performAll st (Enact <$> ts).
Proof. induction ts as [|t ts IH]; intros st; simpl; [done|]. by rewrite IH. Qed.

Lemma defineRule_actions ix rule st st' :
  defineRule ix rule st = OK st' → ∃ actions, st' = performAll st actions.
Proof.
  unfold defineRule. intros (r & Hr & H)%bind_OK.
  apply getEntryFromReference_actions in Hr as (a1 & E1).
  destruct (lhs rule) as [c|ref|f deps].
  - injection H as <-.
    exists (a1 ++ [Allocate; Enact (newRule (Values [c]) r.1 r.2).1]).
    by rewrite performAll_app, <-E1.
  - apply bind_OK in H as (l & Hl & [= <-]).
    apply getEntryFromReference_actions in Hl as (a2 & E2).
    exists (a1 ++ a2 ++ [Allocate; Register (newRule (Data l.1) r.1 l.2).1 l.1;
                         Enact (newRule (Data l.1) r.1 l.2).1]).
    by rewrite !performAll_app, <-E1, <-E2.
  - apply bind_OK in H as (ds & Hds & [= <-]).
    apply getEntriesFromReferences_actions in Hds as (a2 & E2).
    exists (a1 ++ a2 ++ [Allocate]
            ++ (Register (newRule (Computed f ds.1) r.1 ds.2).1 <$> ds.1)
            ++ [Enact (newRule (Computed f ds.1) r.1 ds.2).1]).
    rewrite !performAll_app, <-E1, <-E2. simpl. by rewrite <-registerRules_actions.
Qed.

Lemma defineRules_actions ix rules : ∀ st st',
  defineRules ix rules st = OK st' → ∃ actions, st' = performAll st actions.
Proof.
  induction rules as [|rule rules IH]; intros st st' H; simpl in H.
  - injection H as <-. by exists [].
  - apply bind_OK in H as (st1 & H1 & H).
    apply defineRule_actions in H1 as (a1 & ->).
    apply IH in H as (a2 & ->). exists (a1 ++ a2). by rewrite performAll_app.
Qed.

Lemma drainFrom_actions fuel : ∀ i st st',
  drainFrom fuel i st = Some st' → ∃ actions, st' = performAll st actions.
Proof.
  induction fuel as [|fuel IH]; intros i st st' H; simpl in H.
  - destruct (worklist st !! i); [done|]. injection H as <-. by exists [].
  - destruct (worklist st !! i) as [e|]; [|injection H as <-; by exists []].
    apply IH in H as (a2 & ->). rewrite enactRules_actions.
    exists ((Enact <$> rulesOf st e) ++ a2). by rewrite performAll_app.
Qed.

(** More fuel does not change what the drain loop returns. *)
Lemma drainFrom_fuel fuel : ∀ fuel' i st st',
  drainFrom fuel i st = Some st' → (fuel ≤ fuel')%nat → drainFrom fuel' i st = Some st'.
Proof.
  induction fuel as [|fuel IH]; intros fuel' i st st' H Hle; simpl in H.
  - destruct (worklist st !! i) eqn:Hi; [done|]. destruct fuel'; simpl; by rewrite Hi.
  - destruct fuel' as [|fuel']; [lia|]. simpl.
    destruct (worklist st !! i); [|done]. apply IH; [done|lia].
Qed.

(** A solve that returns went through a sequence of actions from the empty
    store, and its analysis is read off the store they leave. *)
Lemma solve_actions localeCompare ast rules an :
  solve localeCompare ast rules = OK an →
  ∃ actions, an = analysis localeCompare (performAll initialState actions).
Proof.
  unfold solve. intros (ix & _ & H)%bind_OK. apply bind_OK in H as (st0 & Hst0 & H).
  apply defineRules_actions in Hst0 as (a1 & ->).
  unfold drain in H. destruct (drainFrom _ _ _) as [st'|] eqn:Hd; [|done].
  apply drainFrom_actions in Hd as (a2 & ->). injection H as <-.
  exists (a1 ++ a2). by rewrite performAll_app.
Qed.

(** C7.  A solve is a sequence of actions on the store, starting from the
    empty store ([defineRules_actions], [drainFrom_actions]): it creates an
    entry, creates or registers a translated rule, or enacts one.  Whatever it
    has done so far ([before]) and whatever it does next ([after]), the data of
    every entry after [before] is an initial part of its data after [after]:
    values are added at the end and never removed, and no value appears
    twice. *)
Theorem data_only_grows (before after : list Action) (e : nat) :
  dataOf (performAll initialState before) e
    `prefix_of` dataOf (performAll initialState (before ++ after)) e ∧
  dataOf (performAll initialState before) e
    ⊆ dataOf (performAll initialState (before ++ after)) e ∧
  NoDup (dataOf (performAll initialState (before ++ after)) e).
Proof.
  rewrite performAll_app.
  destruct (dataOf_performAll after (performAll initialState before) e) as (new & H & _).
  rewrite H. split; [by exists new|]. split; [set_solver|]. rewrite <-H, <-performAll_app.
  destruct (dataOf_performAll (before ++ after) initialState e) as (new' & H' & N').
  rewrite H'. apply N'. unfold dataOf. simpl. constructor.
Qed.


(** ** The invariant of the store *)

Lemma sound_extends ρ st st' t : extends st st' → sound ρ st t → sound ρ st' t.
Proof.
  intros Hext (idr & Hr & H). exists idr. split; [auto|].
  destruct (tlhs t) as [vs|f deps|l]; [done| |].
  - destruct H as (idl & Hd & H). exists idl. split; [|done].
    eapply Forall2_impl; [done|]. intros d id ?. by apply Hext.
  - destruct H as (idl & Hl & H). exists idl. auto.
Qed.

Lemma invariant_initial ρ : invariant ρ initialState.
Proof.
  split; simpl; try (intros; set_solver); constructor.
Qed.

Lemma invariant_getOrCreateEntry ρ key st :
  invariant ρ st → invariant ρ (getOrCreateEntry (category key) key st).2.
Proof.
  intros Hinv.
  pose proof (extends_getOrCreateEntry (category key) key st) as Hext.
  destruct (getOrCreateEntry_spec (category key) key st)
    as (_ & Hw & _ & [[-> _]|(Hid & _ & He)]); [done|].
  destruct Hinv as [I1 I2 I3 I4 I5 I6].
  split.
  - unfold ids in *. rewrite He, fmap_app. simpl. apply NoDup_app.
    split; [done|]. split; [|apply NoDup_singleton].
    intros id ? ->%list_elem_of_singleton. done.
  - intros id en. rewrite He, elem_of_app, list_elem_of_singleton.
    intros [?|[= -> ->]]; [eauto|done].
  - intros id en. rewrite He, elem_of_app, list_elem_of_singleton.
    intros [?|[= -> ->]]; [eauto|]. simpl. split; [constructor|set_solver].
  - intros id en t. rewrite He, elem_of_app, list_elem_of_singleton.
    intros [?|[= -> ->]] Ht; [|simpl in Ht; set_solver].
    eapply sound_extends; eauto.
  - by rewrite Hw.
  - rewrite Hw, He, length_app. intros e ?%I6. lia.
Qed.

Lemma invariant_allocate ρ st : invariant ρ st → invariant ρ (allocate st).
Proof. intros [I1 I2 I3 I4 I5 I6]. split; try done. Qed.

Lemma elem_of_rulesAdd t t' en :
  t' ∈ rules (rulesAdd t en) → t' ∈ rules en ∨ t' = t.
Proof.
  unfold rulesAdd. simpl. destruct (decide _); [auto|].
  rewrite elem_of_app, list_elem_of_singleton. auto.
Qed.

Lemma invariant_registerRule ρ t st dep :
  invariant ρ st → sound ρ st t → invariant ρ (registerRule t st dep).
Proof.
  intros [I1 I2 I3 I4 I5 I6] Ht. unfold registerRule.
  pose proof (extends_alterEntry (rulesAdd t) dep st) as Hext.
  split.
  - unfold ids. simpl. by rewrite ids_alter.
  - intros id en (en0 & Hin & [->|[_ ->]])%elem_of_alter_entry; apply (I2 id en0 Hin).
  - intros id en (en0 & Hin & [->|[_ ->]])%elem_of_alter_entry; apply (I3 id en0 Hin).
  - intros id en t' (en0 & Hin & [->|[_ ->]])%elem_of_alter_entry Ht'.
    + eapply sound_extends; eauto.
    + apply elem_of_rulesAdd in Ht' as [?| ->]; eapply sound_extends; eauto.
  - done.
  - simpl. by rewrite length_alter.
Qed.

Lemma evaluate_sound ρ st t idr :
  invariant ρ st → sound ρ st t → idOf st (trhs t) = Some idr →
  ∀ v, v ∈ evaluate st (tlhs t) → ρ idr v.
Proof.
  intros Hinv (idr' & Hr & H) Hr'. rewrite Hr in Hr'. injection Hr' as ->.
  assert (∀ e id v, idOf st e = Some id → v ∈ dataOf st e → ρ id v) as Hdata.
  { intros e id v (en & He)%idOf_Some. rewrite (dataOf_lookup _ _ _ _ He).
    apply (inv_data _ _ Hinv id en). by eapply list_elem_of_lookup_2. }
  destruct (tlhs t) as [vs|f deps|l]; simpl.
  - done.
  - destruct H as (idl & Hd & H). apply H.
    apply Forall2_fmap_l. eapply Forall2_impl; [done|]. simpl. eauto.
  - destruct H as (idl & Hl & H). eauto.
Qed.

Lemma set_add_NoDup {A} `{EqDecision A} (x : A) l : NoDup l → NoDup (set_add x l).
Proof.
  intros H. unfold set_add. destruct (decide _); [done|].
  apply NoDup_app. split; [done|]. split; [|apply NoDup_singleton].
  intros y Hy Hy'%list_elem_of_singleton. by subst.
Qed.

Lemma elem_of_set_add {A} `{EqDecision A} (x y : A) l : y ∈ set_add x l ↔ y ∈ l ∨ y = x.
Proof.
  unfold set_add. destruct (decide _).
  - split; [auto|]. by intros [?| ->].
  - rewrite elem_of_app, list_elem_of_singleton. done.
Qed.

Lemma invariant_enactRule ρ t st :
  invariant ρ st → sound ρ st t → invariant ρ (enactRule t st).
Proof.
  intros Hinv Ht. pose proof (extends_enactRule t st) as Hext.
  pose proof Ht as (idr & Hr & _).
  pose proof (evaluate_sound _ _ _ _ Hinv Ht Hr) as Hev.
  destruct (enactRule_spec t st) as (new & He & Hw & _ & Hnew & Hnd).
  destruct Hinv as [I1 I2 I3 I4 I5 I6].
  split.
  - unfold ids. rewrite He. by rewrite ids_alter.
  - rewrite He. intros id en (en0 & Hin & [->|[_ ->]])%elem_of_alter_entry;
      apply (I2 id en0 Hin).
  - rewrite He. intros id en (en0 & Hin & [->|[Hl ->]])%elem_of_alter_entry;
      [apply (I3 id en0 Hin)|].
    simpl. destruct (I3 _ _ Hin) as [N P]. split.
    + rewrite <-(dataOf_lookup _ _ _ _ Hl). apply Hnd; [by eexists|].
      by rewrite (dataOf_lookup _ _ _ _ Hl).
    + intros v [?|?]%elem_of_app; [auto|].
      unfold idOf in Hr. rewrite Hl in Hr. injection Hr as <-. auto.
  - rewrite He. intros id en t' (en0 & Hin & [->|[_ ->]])%elem_of_alter_entry Ht';
      eapply sound_extends; eauto.
  - destruct Hw as [->| ->]; [done|]. by apply set_add_NoDup.
  - rewrite He, length_alter. destruct Hw as [->| ->]; [done|].
    intros e [?| ->]%elem_of_set_add; [auto|]. by eapply idOf_lt.
Qed.

Lemma ids_enactRule t st : ids (enactRule t st) = ids st.
Proof.
  destruct (enactRule_spec t st) as (new & He & _). unfold ids. by rewrite He, ids_alter.
Qed.

Lemma ids_registerRule t st dep : ids (registerRule t st dep) = ids st.
Proof. unfold ids. simpl. by rewrite ids_alter. Qed.

Lemma extends_registerRule t st dep : extends st (registerRule t st dep).
Proof. apply extends_alterEntry. Qed.

Lemma rulesOf_sound ρ st e t : invariant ρ st → t ∈ rulesOf st e → sound ρ st t.
Proof.
  intros Hinv. unfold rulesOf. destruct (entries st !! e) as [[id en]|] eqn:He; simpl.
  - apply (inv_rules _ _ Hinv id en). by eapply list_elem_of_lookup_2.
  - set_solver.
Qed.

Lemma enactRules_invariant ρ ts : ∀ st,
  invariant ρ st → Forall (sound ρ st) ts →
  invariant ρ (enactRules ts st) ∧
  extends st (enactRules ts st) ∧
  ids (enactRules ts st) = ids st.
Proof.
  induction ts as [|t ts IH]; intros st Hinv Hts; simpl; [done|].
  apply Forall_cons in Hts as [Ht Hts].
  destruct (IH (enactRule t st)) as (? & ? & Hids).
  - by apply invariant_enactRule.
  - eapply Forall_impl; [done|]. intros t'. apply sound_extends, extends_enactRule.
  - split; [done|]. split; [by etrans; [apply extends_enactRule|]|].
    by rewrite Hids, ids_enactRule.
Qed.

(** ** The drain loop comes to an end *)

Lemma worklist_length ρ st : invariant ρ st → (length (worklist st) ≤ length (entries st))%nat.
Proof.
  intros Hinv.
  rewrite <-(length_seq (length (entries st)) 0%nat).
  apply submseteq_length, NoDup_submseteq; [apply (inv_worklist _ _ Hinv)|].
  intros e He%(inv_pending _ _ Hinv). apply elem_of_seq. lia.
Qed.

Lemma ids_length st : length (ids st) = length (entries st).
Proof. unfold ids. by rewrite length_fmap. Qed.

Lemma drainFrom_invariant ρ fuel : ∀ i st,
  invariant ρ st → (length (entries st) ≤ fuel + i)%nat →
  ∃ st', drainFrom fuel i st = Some st' ∧ invariant ρ st' ∧ extends st st' ∧
         ids st' = ids st.
Proof.
  induction fuel as [|fuel IH]; intros i st Hinv Hlen; simpl.
  - destruct (worklist st !! i) as [e|] eqn:He; [|by exists st].
    apply lookup_lt_Some in He. pose proof (worklist_length _ _ Hinv). lia.
  - destruct (worklist st !! i) as [e|] eqn:He; [|by exists st].
    destruct (enactRules_invariant ρ (rulesOf st e) st Hinv) as (Hinv' & Hext & Hids).
    { apply Forall_forall. intros t. by apply rulesOf_sound. }
    destruct (IH (S i) _ Hinv') as (st' & Hd & ? & ? & Hids').
    { rewrite <-ids_length, Hids, ids_length. lia. }
    exists st'. split; [done|]. split; [done|]. split; [by etrans|]. congruence.
Qed.

Lemma drain_invariant ρ st :
  invariant ρ st →
  ∃ st', drain st = Some st' ∧ invariant ρ st' ∧ extends st st' ∧ ids st' = ids st.
Proof. intros Hinv. apply drainFrom_invariant; [done|lia]. Qed.


(** ** Rule definition *)

Lemma referenceKey_category ix ref ck : referenceKey ix ref = OK ck → ck.1 = category ck.2.
Proof.
  destruct ref as [e|v|b|f]; simpl; try by intros [= <-].
  destruct (map_get v _); [|done]. by intros [= <-].
Qed.

Lemma referenceId_OK ix ref id :
  referenceId ix ref = OK id ↔ ∃ ck, referenceKey ix ref = OK ck ∧ id = entryId ck.1 ck.2.
Proof.
  unfold referenceId. rewrite bind_OK. split.
  - intros (ck & ? & [= <-]). eauto.
  - intros (ck & ? & ->). eauto.
Qed.

Lemma ids_getOrCreateEntry category key st id' :
  id' ∈ ids (getOrCreateEntry category key st).2 ↔
  id' ∈ ids st ∨ id' = entryId category key.
Proof.
  destruct (getOrCreateEntry_spec category key st) as (_ & _ & _ & [[-> Hin]|(_ & _ & H)]).
  - split; [auto|]. by intros [?| ->].
  - unfold ids. rewrite H, fmap_app, elem_of_app. simpl.
    by rewrite list_elem_of_singleton.
Qed.

Lemma getEntryFromReference_spec ρ ix ref st r :
  getEntryFromReference ix ref st = OK r →
  ∃ id, referenceId ix ref = OK id ∧ idOf r.2 r.1 = Some id ∧ extends st r.2 ∧
        (invariant ρ st → invariant ρ r.2) ∧
        (∀ id', id' ∈ ids r.2 ↔ id' ∈ ids st ∨ id' = id).
Proof.
  unfold getEntryFromReference. intros (ck & Hck & [= <-])%bind_OK.
  exists (entryId ck.1 ck.2). split; [apply referenceId_OK; eauto|].
  destruct (getOrCreateEntry_spec ck.1 ck.2 st) as (Hid & _).
  split; [done|]. split; [apply extends_getOrCreateEntry|].
  split; [|apply ids_getOrCreateEntry].
  rewrite (referenceKey_category _ _ _ Hck). apply invariant_getOrCreateEntry.
Qed.

Lemma getEntriesFromReferences_spec ρ ix refs : ∀ st r,
  getEntriesFromReferences ix refs st = OK r →
  ∃ idl, Forall2 (λ ref id, referenceId ix ref = OK id) refs idl ∧
         Forall2 (λ e id, idOf r.2 e = Some id) r.1 idl ∧
         extends st r.2 ∧
         (invariant ρ st → invariant ρ r.2) ∧
         (∀ id', id' ∈ ids r.2 ↔ id' ∈ ids st ∨ id' ∈ idl).
Proof.
  induction refs as [|ref refs IH]; intros st r H; simpl in H.
  - injection H as <-. exists []. split_and!; try done.
    intros id'. split; [auto|]. by intros [?|?%elem_of_nil].
  - apply bind_OK in H as (r1 & H1 & H). apply bind_OK in H as (rs & Hs & [= <-]).
    apply (getEntryFromReference_spec ρ) in H1 as (id & Hid & Hi & Hext & Hinv & Hids).
    apply IH in Hs as (idl & Hidl & His & Hext' & Hinv' & Hids').
    exists (id :: idl). simpl. split_and!; auto.
    + by etrans.
    + intros id'. rewrite Hids', Hids, elem_of_cons. tauto.
Qed.

Lemma registerRules_invariant ρ t deps : ∀ st,
  invariant ρ st → sound ρ st t →
  invariant ρ (foldl (registerRule t) st deps) ∧
  extends st (foldl (registerRule t) st deps) ∧
  ids (foldl (registerRule t) st deps) = ids st.
Proof.
  induction deps as [|d deps IH]; intros st Hinv Ht; simpl; [done|].
  destruct (IH (registerRule t st d)) as (? & ? & Hids).
  - by apply invariant_registerRule.
  - eapply sound_extends; [apply extends_registerRule|done].
  - split; [done|]. split; [by etrans; [apply extends_registerRule|]|].
    by rewrite Hids, ids_registerRule.
Qed.

Lemma extends_registerRules t deps st : extends st (foldl (registerRule t) st deps).
Proof.
  revert st. induction deps as [|d deps IH]; intros st; simpl; [done|].
  etrans; [apply extends_registerRule|apply IH].
Qed.

Lemma ids_registerRules t deps st : ids (foldl (registerRule t) st deps) = ids st.
Proof.
  revert st. induction deps as [|d deps IH]; intros st; simpl; [done|].
  by rewrite IH, ids_registerRule.
Qed.

Lemma defineRule_spec ρ ix rule st st' :
  defineRule ix rule st = OK st' →
  extends st st' ∧
  (models ix ρ rule → invariant ρ st → invariant ρ st') ∧
  (∀ id', id' ∈ ids st' ↔
          id' ∈ ids st ∨ ∃ ref, ref ∈ references rule ∧ referenceId ix ref = OK id') ∧
  Forall (λ ref, ∃ id, referenceId ix ref = OK id) (references rule).
Proof.
  unfold defineRule, models, references. intros (r & Hr & H)%bind_OK.
  apply (getEntryFromReference_spec ρ) in Hr as (idr & Hidr & Hir & Hext & Hinv & Hids).
  destruct (lhs rule) as [c|ref|f deps].
  - injection H as <-. simpl. split_and!.
    + etrans; [done|]. etrans; [apply extends_allocate|apply extends_enactRule].
    + intros Hm Hi. apply invariant_enactRule; [by apply invariant_allocate; auto|].
      exists idr. split; [done|]. simpl. intros v ->%list_elem_of_singleton. auto.
    + intros id'. rewrite ids_enactRule. change (ids (allocate r.2)) with (ids r.2).
      rewrite Hids. split; intros [?|?]; auto.
      * subst. right. exists (rhs rule). split; [left|done].
      * destruct H as (ref & ->%list_elem_of_singleton & H). right. congruence.
    + repeat constructor. eauto.
  - apply bind_OK in H as (l & Hl & [= <-]).
    apply (getEntryFromReference_spec ρ) in Hl as (idl & Hidl & Hil & Hext' & Hinv' & Hids').
    simpl.
    assert (extends l.2 (registerRule {| uid := allocated l.2; tlhs := Data l.1; trhs := r.1 |}
                           (allocate l.2) l.1)) as Hext''.
    { etrans; [apply extends_allocate|apply extends_registerRule]. }
    split_and!.
    + etrans; [done|]. etrans; [done|]. etrans; [done|]. apply extends_enactRule.
    + intros Hm Hi.
      assert (sound ρ (allocate l.2) {| uid := allocated l.2; tlhs := Data l.1; trhs := r.1 |}).
      { exists idr. split; [by apply Hext'|]. simpl. exists idl. split; [done|]. eauto. }
      apply invariant_enactRule.
      * apply invariant_registerRule; [apply invariant_allocate; auto|done].
      * eapply sound_extends; [apply extends_registerRule|done].
    + intros id'. rewrite ids_enactRule, ids_registerRule.
      change (ids (allocate l.2)) with (ids l.2). rewrite Hids', Hids.
      split.
      * intros [[?| ->]| ->]; [auto| |]; right.
        -- exists (rhs rule). split; [left|done].
        -- exists ref. split; [right; left|done].
      * intros [?|(ref' & [->| ->%list_elem_of_singleton]%elem_of_cons & H)]; [auto| |].
        -- left. right. congruence.
        -- right. congruence.
    + repeat constructor; eauto.
  - apply bind_OK in H as (ds & Hds & [= <-]).
    apply (getEntriesFromReferences_spec ρ) in Hds
      as (idl & Hidl & Hil & Hext' & Hinv' & Hids').
    simpl.
    set (t := {| uid := allocated ds.2; tlhs := Computed f ds.1; trhs := r.1 |}).
    split_and!.
    + etrans; [done|]. etrans; [done|]. etrans; [apply extends_allocate|].
      etrans; [apply extends_registerRules|apply extends_enactRule].
    + intros Hm Hi.
      assert (sound ρ (allocate ds.2) t).
      { exists idr. split; [by apply Hext'|]. simpl. exists idl. split; [done|]. eauto. }
      destruct (registerRules_invariant ρ t ds.1 (allocate ds.2)) as (? & ? & ?);
        [apply invariant_allocate; auto|done|].
      apply invariant_enactRule; [done|]. by eapply sound_extends.
    + intros id'. rewrite ids_enactRule, ids_registerRules.
      change (ids (allocate ds.2)) with (ids ds.2). rewrite Hids', Hids.
      split.
      * intros [[?| ->]|Hin]; [auto| |]; right.
        -- exists (rhs rule). split; [left|done].
        -- apply list_elem_of_lookup in Hin as (i & Hi).
           destruct (Forall2_lookup_r _ _ _ _ _ Hidl Hi) as (ref & Href & ?).
           exists ref. split; [right; by eapply list_elem_of_lookup_2|done].
      * intros [?|(ref' & [->|Hin]%elem_of_cons & H)]; [auto| |].
        -- left. right. congruence.
        -- right. apply list_elem_of_lookup in Hin as (i & Hi).
           destruct (Forall2_lookup_l _ _ _ _ _ Hidl Hi) as (id'' & Hid'' & ?).
           assert (id'' = id') as -> by congruence. by eapply list_elem_of_lookup_2.
    + constructor; [eauto|]. apply Forall_forall. intros ref Hin.
      apply list_elem_of_lookup in Hin as (i & Hi).
      destruct (Forall2_lookup_l _ _ _ _ _ Hidl Hi) as (id'' & Hid'' & ?). eauto.
Qed.

Lemma defineRules_spec ρ ix rules : ∀ st st',
  defineRules ix rules st = OK st' →
  extends st st' ∧
  (Forall (models ix ρ) rules → invariant ρ st → invariant ρ st') ∧
  (∀ id', id' ∈ ids st' ↔
          id' ∈ ids st ∨
          ∃ rule ref, rule ∈ rules ∧ ref ∈ references rule ∧ referenceId ix ref = OK id') ∧
  Forall (λ rule, Forall (λ ref, ∃ id, referenceId ix ref = OK id) (references rule)) rules.
Proof.
  induction rules as [|rule rules IH]; intros st st' H; simpl in H.
  - injection H as <-. split_and!; try done.
    intros id'. split; [auto|]. intros [?|(?&?&?%elem_of_nil&_)]; done.
  - apply bind_OK in H as (st1 & H1 & H).
    apply (defineRule_spec ρ) in H1 as (Hext & Hinv & Hids & Hres).
    apply IH in H as (Hext' & Hinv' & Hids' & Hres').
    split_and!.
    + by etrans.
    + intros [??]%Forall_cons ?. auto.
    + intros id'. rewrite Hids', Hids. split.
      * intros [[?|(ref & ? & ?)]|(rule' & ref & ? & ? & ?)]; [auto| |]; right.
        -- exists rule, ref. split; [left|done].
        -- exists rule', ref. split; [by right|done].
      * intros [?|(rule' & ref & [->|?]%elem_of_cons & ? & ?)]; [auto| |].
        -- left. right. eauto.
        -- right. eauto.
    + by constructor.
Qed.

(** Rules that resolve are defined without a throw, and only an unresolved
    reference makes [define] throw. *)
Lemma getEntriesFromReferences_resolved ix refs : ∀ st,
  Forall (λ ref, ∃ id, referenceId ix ref = OK id) refs →
  ∃ r, getEntriesFromReferences ix refs st = OK r.
Proof.
  induction refs as [|ref refs IH]; intros st Hres; simpl; [by eexists|].
  apply Forall_cons in Hres as [(id & (ck & Hck & _)%referenceId_OK) Hres].
  unfold getEntryFromReference. rewrite Hck. simpl.
  destruct (IH (getOrCreateEntry ck.1 ck.2 st).2 Hres) as (rs & ->). simpl. by eexists.
Qed.

Lemma defineRule_resolved ix rule st :
  Forall (λ ref, ∃ id, referenceId ix ref = OK id) (references rule) →
  ∃ st', defineRule ix rule st = OK st'.
Proof.
  unfold references, defineRule.
  intros [(id & (ck & Hck & _)%referenceId_OK) Hres]%Forall_cons.
  unfold getEntryFromReference. rewrite Hck. simpl.
  destruct (lhs rule) as [c|ref|f deps].
  - by eexists.
  - apply Forall_cons in Hres as [(id' & (ck' & Hck' & _)%referenceId_OK) _].
    rewrite Hck'. simpl. by eexists.
  - destruct (getEntriesFromReferences_resolved ix deps (getOrCreateEntry ck.1 ck.2 st).2 Hres)
      as (rs & ->). simpl. by eexists.
Qed.

Lemma defineRules_resolved ix rules : ∀ st,
  Forall (λ rule, Forall (λ ref, ∃ id, referenceId ix ref = OK id) (references rule)) rules →
  ∃ st', defineRules ix rules st = OK st'.
Proof.
  induction rules as [|rule rules IH]; intros st Hres; simpl; [by eexists|].
  apply Forall_cons in Hres as [Hr Hres].
  destruct (defineRule_resolved ix rule st Hr) as (st1 & ->). simpl. apply IH, Hres.
Qed.


(** ** Sorting and [Object.fromEntries] *)

Lemma map_set_fresh {V} (k : string) (v : V) l : k ∉ l.*1 → map_set k v l = l ++ [(k, v)].
Proof.
  induction l as [|[k' v'] l IH]; simpl; [done|].
  intros Hk. apply not_elem_of_cons in Hk as [??].
  rewrite decide_False by done. by rewrite IH.
Qed.

Lemma fromEntries_from {V} (l : list (string * V)) : ∀ acc,
  NoDup (acc ++ l).*1 → foldl (λ o kv, map_set kv.1 kv.2 o) acc l = acc ++ l.
Proof.
  induction l as [|[k v] l IH]; intros acc Hnd; simpl.
  - by rewrite app_nil_r.
  - rewrite map_set_fresh.
    + rewrite IH; [by rewrite <-app_assoc|]. by rewrite <-app_assoc.
    + rewrite fmap_app in Hnd. simpl in Hnd.
      apply NoDup_app in Hnd as (_ & Hnd & _). intros Hin. apply (Hnd _ Hin). left.
Qed.

Lemma fromEntries_NoDup {V} (l : list (string * V)) : NoDup l.*1 → fromEntries l = l.
Proof. intros H. unfold fromEntries. by rewrite fromEntries_from. Qed.

Lemma sortInsert_Permutation {A} (compare : A → A → Z) x l :
  sortInsert compare x l ≡ₚ x :: l.
Proof.
  induction l as [|y l IH]; simpl; [done|].
  destruct (decide _); [done|]. rewrite IH. apply Permutation_swap.
Qed.

Lemma sort_Permutation {A} (compare : A → A → Z) l : sort compare l ≡ₚ l.
Proof.
  induction l as [|x l IH]; simpl; [done|].
  rewrite sortInsert_Permutation. by constructor.
Qed.

Lemma consistent_total {A} (compare : A → A → Z) a b :
  Consistent compare → ¬ compare a b ≤ 0 → compare b a ≤ 0.
Proof.
  intros [Hs _] H. specialize (Hs a b).
  destruct (Z.sgn_spec (compare a b)) as [[? E]|[[? E]|[? E]]],
           (Z.sgn_spec (compare b a)) as [[? E']|[[? E']|[? E']]]; lia.
Qed.

Lemma sortInsert_sorted {A} (compare : A → A → Z) x l :
  Consistent compare →
  StronglySorted (λ a b, compare a b ≤ 0) l →
  StronglySorted (λ a b, compare a b ≤ 0) (sortInsert compare x l).
Proof.
  intros Hc. induction 1 as [|y l Hl IH Hy]; simpl.
  - repeat constructor.
  - destruct (decide (compare x y ≤ 0)) as [Hxy|Hxy].
    + constructor; [by constructor|]. constructor; [done|].
      eapply Forall_impl; [done|]. intros z ?. simpl.
      by apply (consistent_trans _ Hc x y z).
    + constructor; [done|]. rewrite sortInsert_Permutation.
      constructor; [|done]. by apply consistent_total.
Qed.

Lemma sort_sorted {A} (compare : A → A → Z) l :
  Consistent compare → StronglySorted (λ a b, compare a b ≤ 0) (sort compare l).
Proof.
  intros Hc. induction l as [|x l IH]; simpl; [constructor|].
  by apply sortInsert_sorted.
Qed.

Lemma compareEntries_consistent localeCompare :
  Consistent localeCompare → Consistent (compareEntries localeCompare).
Proof.
  intros [Hs Ht]. split.
  - intros [ida a] [idb b]. unfold compareEntries. simpl.
    destruct (key a) as [x|x], (key b) as [y|y]; try done.
    destruct (Z.sgn_spec (y - x)) as [[? E]|[[? E]|[? E]]],
             (Z.sgn_spec (x - y)) as [[? E']|[[? E']|[? E']]]; lia.
  - intros [ida a] [idb b] [idc c]. unfold compareEntries. simpl.
    destruct (key a) as [x|x], (key b) as [y|y], (key c) as [z|z]; try lia.
    apply Ht.
Qed.

(** ** The analysis of a store *)

Lemma analysis_spec ρ localeCompare st :
  invariant ρ st →
  analysis localeCompare st =
    (λ ne, (ne.1, data ne.2)) <$> sort (compareEntries localeCompare) (entries st).
Proof.
  intros Hinv. unfold analysis. apply fromEntries_NoDup.
  rewrite <-list_fmap_compose.
  change (NoDup (sort (compareEntries localeCompare) (entries st)).*1).
  rewrite sort_Permutation. apply (inv_ids _ _ Hinv).
Qed.

Lemma elem_of_analysis ρ localeCompare st id vs :
  invariant ρ st →
  (id, vs) ∈ analysis localeCompare st ↔ ∃ en, (id, en) ∈ entries st ∧ vs = data en.
Proof.
  intros Hinv. rewrite (analysis_spec ρ) by done. rewrite list_elem_of_fmap.
  setoid_rewrite sort_Permutation. split.
  - intros ([id' en] & [= -> ->] & ?). eauto.
  - intros (en & ? & ->). by exists (id, en).
Qed.

Lemma models_anything ix rule : models ix anything rule.
Proof. intros idr _. by destruct (lhs rule). Qed.

(** ** The solve as a whole *)

Lemma solve_OK ρ localeCompare ast rules an :
  solve localeCompare ast rules = OK an →
  ∃ ix st0 st,
    collectExpressions ast ∅ emptyIndex = OK ix ∧
    defineRules ix rules initialState = OK st0 ∧
    drain st0 = Some st ∧
    an = analysis localeCompare st ∧
    ids st = ids st0 ∧
    (Forall (models ix ρ) rules → invariant ρ st).
Proof.
  unfold solve. intros (ix & Hix & H)%bind_OK. apply bind_OK in H as (st0 & Hst0 & H).
  destruct (drain st0) as [st|] eqn:Hd; [|done]. injection H as <-.
  exists ix, st0, st. split_and!; try done.
  - destruct (defineRules_spec anything ix rules _ _ Hst0) as (_ & Hinv & _).
    destruct (drain_invariant anything st0) as (st' & Hd' & _ & _ & Hids).
    { apply Hinv; [|apply invariant_initial].
      apply Forall_forall. intros. apply models_anything. }
    congruence.
  - intros Hm.
    destruct (defineRules_spec ρ ix rules _ _ Hst0) as (_ & Hinv & _).
    destruct (drain_invariant ρ st0) as (st' & Hd' & ? & _).
    { apply Hinv; [done|apply invariant_initial]. }
    congruence.
Qed.

(** Rules that resolve are solved: the drain loop of this solver always comes
    to an end. *)
Lemma solve_resolved localeCompare ast ix rules :
  collectExpressions ast ∅ emptyIndex = OK ix →
  Forall (λ rule, Forall (λ ref, ∃ id, referenceId ix ref = OK id) (references rule)) rules →
  ∃ an, solve localeCompare ast rules = OK an.
Proof.
  intros Hix Hres. unfold solve. rewrite Hix. simpl.
  destruct (defineRules_resolved ix rules initialState Hres) as (st0 & Hst0).
  rewrite Hst0. simpl.
  destruct (defineRules_spec anything ix rules _ _ Hst0) as (_ & Hinv & _).
  destruct (drain_invariant anything st0) as (st' & -> & _).
  { apply Hinv; [|apply invariant_initial].
    apply Forall_forall. intros. apply models_anything. }
  by eexists.
Qed.

Lemma getEntryFromReference_Throw ix ref st err :
  getEntryFromReference ix ref st = Throw err → err = UnknownReference.
Proof.
  unfold getEntryFromReference. intros [H|(? & _ & H)]%bind_Throw; [|done].
  destruct ref as [e|v|b|f]; simpl in H; try done.
  destruct (map_get v _); [done|]. by injection H as <-.
Qed.

Lemma getEntriesFromReferences_Throw ix refs : ∀ st err,
  getEntriesFromReferences ix refs st = Throw err → err = UnknownReference.
Proof.
  induction refs as [|ref refs IH]; intros st err H; simpl in H; [done|].
  apply bind_Throw in H as [H|(r & _ & H)]; [by eapply getEntryFromReference_Throw|].
  apply bind_Throw in H as [H|(? & _ & H)]; [by eapply IH|done].
Qed.

Lemma defineRule_Throw ix rule st err :
  defineRule ix rule st = Throw err → err = UnknownReference.
Proof.
  unfold defineRule. intros [H|(r & _ & H)]%bind_Throw.
  { by eapply getEntryFromReference_Throw. }
  destruct (lhs rule) as [c|ref|f deps]; [done| |].
  - apply bind_Throw in H as [H|(? & _ & H)]; [|done].
    by eapply getEntryFromReference_Throw.
  - apply bind_Throw in H as [H|(? & _ & H)]; [|done].
    by eapply getEntriesFromReferences_Throw.
Qed.

Lemma defineRules_Throw ix rules : ∀ st err,
  defineRules ix rules st = Throw err → err = UnknownReference.
Proof.
  induction rules as [|rule rules IH]; intros st err H; simpl in H; [done|].
  apply bind_Throw in H as [H|(st1 & _ & H)]; [by eapply defineRule_Throw|by eapply IH].
Qed.

(** The drain loop of this solver always comes to an end. *)
Lemma solve_terminates localeCompare ast rules :
  solve localeCompare ast rules ≠ Throw NonTermination.
Proof.
  unfold solve. destruct (collectExpressions ast ∅ emptyIndex) as [ix|err] eqn:Hix; simpl.
  - destruct (defineRules ix rules initialState) as [st0|err] eqn:Hst0; simpl.
    + destruct (defineRules_spec anything ix rules _ _ Hst0) as (_ & Hinv & _).
      destruct (drain_invariant anything st0) as (st' & -> & _); [|done].
      apply Hinv; [|apply invariant_initial].
      apply Forall_forall. intros. apply models_anything.
    + intros [= ->]. by apply defineRules_Throw in Hst0.
  - intros [= ->].
    apply (collectExpressions_Throw _ _ [] _ _ agree_empty) in Hix
      as [(?&?&?&_)|(?&?&?&?&_)]; done.
Qed.


(** ** The entries of the result *)

(** C10.  When a solve returns, the analysis lists the entries of the final
    store and nothing else, each with its data; every reference of every rule,
    be it the [rhs], a reference [lhs] or a dependency of a dynamic [lhs],
    resolved to an entry that is listed, with an empty list if it never
    received a value. *)
Theorem every_entry_is_listed (localeCompare : string → string → Z) ast rules an :
  solve localeCompare ast rules = OK an →
  ∃ ix st0 st,
    collectExpressions ast ∅ emptyIndex = OK ix ∧
    defineRules ix rules initialState = OK st0 ∧
    drain st0 = Some st ∧
    (∀ id en, (id, en) ∈ entries st → (id, data en) ∈ an) ∧
    (∀ id vs, (id, vs) ∈ an → ∃ en, (id, en) ∈ entries st ∧ vs = data en) ∧
    (∀ rule ref, rule ∈ rules → ref ∈ references rule →
       ∃ id vs, referenceId ix ref = OK id ∧ (id, vs) ∈ an ∧
                (∀ e, idOf st e = Some id → vs = dataOf st e)).
Proof.
  intros H. apply (solve_OK anything) in H as (ix & st0 & st & Hix & Hst0 & Hd & -> & Hids & Hinv).
  assert (invariant anything st) as Hst.
  { apply Hinv, Forall_forall. intros. apply models_anything. }
  exists ix, st0, st. split_and!; try done.
  - intros id en Hin. apply (elem_of_analysis anything); eauto.
  - intros id vs Hin. by apply (elem_of_analysis anything) in Hin.
  - intros rule ref Hrule Href.
    destruct (defineRules_spec anything ix rules _ _ Hst0) as (_ & _ & Hids0 & Hres).
    rewrite Forall_forall in Hres. specialize (Hres _ Hrule).
    rewrite Forall_forall in Hres. destruct (Hres _ Href) as (id & Hid).
    assert (id ∈ ids st) as Hin.
    { rewrite Hids. apply Hids0. right. eauto. }
    apply list_elem_of_fmap in Hin as ([id' en] & -> & Hin). simpl.
    exists id', (data en). split; [done|]. split.
    + apply (elem_of_analysis anything); eauto.
    + intros e (en' & He)%idOf_Some. rewrite (dataOf_lookup _ _ _ _ He).
      apply list_elem_of_lookup in Hin as (e' & He').
      assert (e = e') as ->; [|congruence].
      eapply NoDup_lookup; [apply (inv_ids _ _ Hst)|..]; unfold ids;
        rewrite list_lookup_fmap; [by rewrite He|by rewrite He'].
Qed.

Lemma every_entry_is_listed_witness :
  solve codeUnitCompare identity
    [{| lhs := Ref (ExpressionReference identity);
        rhs := BoundVariableReference identity |}]
  = OK [("C(1)", []); ("p(x#1)", [])] ∧
  ∃ ix st0 st,
    collectExpressions identity ∅ emptyIndex = OK ix ∧
    defineRules ix
      [{| lhs := Ref (ExpressionReference identity);
          rhs := BoundVariableReference identity |}] initialState = OK st0 ∧
    drain st0 = Some st ∧
    (∀ id en, (id, en) ∈ entries st → (id, data en) ∈ [("C(1)", []); ("p(x#1)", [])]) ∧
    (∀ id vs, (id, vs) ∈ [("C(1)", []); ("p(x#1)", [])] →
       ∃ en, (id, en) ∈ entries st ∧ vs = data en) ∧
    (∀ rule ref,
       rule ∈ [{| lhs := Ref (ExpressionReference identity);
                  rhs := BoundVariableReference identity |}] →
       ref ∈ references rule →
       ∃ id vs, referenceId ix ref = OK id ∧ (id, vs) ∈ [("C(1)", []); ("p(x#1)", [])] ∧
                (∀ e, idOf st e = Some id → vs = dataOf st e)).
Proof.
  split; [reflexivity|].
  exact (every_entry_is_listed codeUnitCompare identity
           [{| lhs := Ref (ExpressionReference identity);
               rhs := BoundVariableReference identity |}]
           [("C(1)", []); ("p(x#1)", [])] eq_refl).
Defined.


(** ** The order of the result *)

Lemma codeUnitCompare_consistent : Consistent codeUnitCompare.
Proof.
  split.
  - intros a b. unfold codeUnitCompare. rewrite (String.compare_antisym a b).
    by destruct (String.compare b a).
  - intros a b c. unfold codeUnitCompare.
    destruct (String.compare a b) eqn:Hab; [|
      |intros; lia].
    { apply String.compare_eq_iff in Hab as ->. done. }
    destruct (String.compare b c) eqn:Hbc; [| |intros; lia].
    { apply String.compare_eq_iff in Hbc as ->. by rewrite Hab. }
    apply OrderedTypeEx.String_as_OT.cmp_lt in Hab, Hbc.
    pose proof (OrderedTypeEx.String_as_OT.lt_trans _ _ _ Hab Hbc) as Hac.
    apply OrderedTypeEx.String_as_OT.cmp_lt in Hac.
    unfold OrderedTypeEx.String_as_OT.cmp in Hac. by rewrite Hac.
Qed.

(** A sorted store has its numeric keys first. *)
Lemma sorted_entries_split localeCompare (L : list (string * Entry)) :
  StronglySorted (λ a b, compareEntries localeCompare a b ≤ 0) L →
  (∀ id en, (id, en) ∈ L → id = entryId (category (key en)) (key en)) →
  ∃ (numeric : list (Z * list Atom)) (textual : list (string * list Atom)),
    (λ ne, (ne.1, data ne.2)) <$> L =
      ((λ nv, (entryId "C" (Num nv.1), nv.2)) <$> numeric) ++
      ((λ sv, (entryId "p" (Str sv.1), sv.2)) <$> textual) ∧
    StronglySorted Z.le numeric.*1 ∧
    StronglySorted (λ a b, localeCompare a b ≤ 0) textual.*1 ∧
    (∀ n, n ∈ numeric.*1 → ∃ id en, (id, en) ∈ L ∧ key en = Num n) ∧
    (∀ s, s ∈ textual.*1 → ∃ id en, (id, en) ∈ L ∧ key en = Str s).
Proof.
  induction 1 as [|[id en] L HL IH Hhd]; intros Hkey.
  - exists [], []. split_and!; try constructor; intros ? ?%elem_of_nil; done.
  - destruct IH as (numeric & textual & Heq & Hn & Ht & Hnk & Htk).
    { intros id' en' ?. apply Hkey. by right. }
    rewrite Forall_forall in Hhd.
    pose proof (Hkey id en ltac:(left)) as Hid.
    destruct (key en) as [n|s] eqn:Hk.
    + exists ((n, data en) :: numeric), textual. split_and!.
      * rewrite !fmap_cons, Heq. simpl. by rewrite Hid.
      * constructor; [done|]. apply Forall_forall. intros m Hm.
        destruct (Hnk m Hm) as (id' & en' & Hin & Hk').
        specialize (Hhd _ Hin). unfold compareEntries in Hhd. simpl in Hhd.
        rewrite Hk, Hk' in Hhd. simpl. lia.
      * done.
      * intros m [->|Hm]%elem_of_cons.
        -- exists id, en. split; [left|done].
        -- destruct (Hnk m Hm) as (id' & en' & ? & ?). exists id', en'. split; [by right|done].
      * intros s Hs. destruct (Htk s Hs) as (id' & en' & ? & ?).
        exists id', en'. split; [by right|done].
    + assert (numeric = []) as ->.
      { destruct numeric as [|[m vs] numeric]; [done|].
        destruct (Hnk m ltac:(left)) as (id' & en' & Hin & Hk').
        specialize (Hhd _ Hin). unfold compareEntries in Hhd. simpl in Hhd.
        rewrite Hk, Hk' in Hhd. lia. }
      exists [], ((s, data en) :: textual). split_and!.
      * rewrite !fmap_cons, Heq. simpl. by rewrite Hid.
      * constructor.
      * constructor; [done|]. apply Forall_forall. intros s' Hs'.
        destruct (Htk s' Hs') as (id' & en' & Hin & Hk').
        specialize (Hhd _ Hin). unfold compareEntries in Hhd. simpl in Hhd.
        by rewrite Hk, Hk' in Hhd.
      * intros ? ?%elem_of_nil. done.
      * intros s' [->|Hs']%elem_of_cons.
        -- exists id, en. split; [left|done].
        -- destruct (Htk s' Hs') as (id' & en' & ? & ?). exists id', en'. split; [by right|done].
Qed.

(** A solve that returns, with the actions it went through and the store they
    leave. *)
Lemma solve_store ρ localeCompare ast rules an :
  solve localeCompare ast rules = OK an →
  ∃ ix actions,
    collectExpressions ast ∅ emptyIndex = OK ix ∧
    an = analysis localeCompare (performAll initialState actions) ∧
    (Forall (models ix ρ) rules → invariant ρ (performAll initialState actions)).
Proof.
  intros (ix & st0 & st & Hix & Hst0 & Hd & -> & _ & Hinv)%(solve_OK ρ).
  apply defineRules_actions in Hst0 as (a1 & ->).
  apply drainFrom_actions in Hd as (a2 & ->).
  exists ix, (a1 ++ a2). by rewrite performAll_app.
Qed.


(** ** Canonical entries *)












(** ** The drain and the fixpoint *)

(** C1, on the code.  For the rules [chainRules] on [(1 + 2)] the solve returns
    with the data of expression 1 holding ["b"] and the data of expression 3
    not holding it, although a rule makes the former flow into the latter:
    entry [C(1)] was visited by the drain loop before it grew, it was still in
    the worklist set when it grew, so adding it again did nothing and it was
    not visited a second time.  Re-enacting the rule would insert ["b"]. *)
Theorem drain_visits_once :
  ∃ ix,
    collectExpressions sum ∅ emptyIndex = OK ix ∧
    solve codeUnitCompare sum chainRules
      = OK [("C(1)", [Str "a"; Str "b"]); ("C(2)", [Str "b"]); ("C(3)", [Str "a"])] ∧
    ¬ satisfied ix [("C(1)", [Str "a"; Str "b"]); ("C(2)", [Str "b"]); ("C(3)", [Str "a"])]
        (flow sum (NumericConstantExpression 3 2)).
Proof.
  eexists. split; [reflexivity|]. split; [reflexivity|].
  intros H. specialize (H "C(3)" eq_refl "C(1)" eq_refl (Str "b")).
  unfold valuesOf in H. simpl in H.
  assert (Str "b" ∈ [Str "a"]) as Hin by (apply H; right; left).
  apply list_elem_of_singleton in Hin. discriminate Hin.
Qed.

(** The same rules with the constants defined first reach the fixpoint: the
    sets of the result depend on the order of the rules. *)
Lemma rule_order_changes_sets :
  chainRulesSeedsFirst ≡ₚ chainRules ∧
  solve codeUnitCompare sum chainRulesSeedsFirst
    = OK [("C(1)", [Str "a"; Str "b"]); ("C(2)", [Str "b"]);
          ("C(3)", [Str "a"; Str "b"])] ∧
  solve codeUnitCompare sum chainRules
    = OK [("C(1)", [Str "a"; Str "b"]); ("C(2)", [Str "b"]); ("C(3)", [Str "a"])].
Proof.
  split; [|split; reflexivity].
  unfold chainRulesSeedsFirst, chainRules.
  apply (Permutation_app_comm [_; _] [_; _]).
Qed.

(** C2 as stated fails, also apart from the drain: the list of an entry
    follows the order in which the rules insert its values. *)
Lemma rule_order_changes_lists :
  [seed (Num 1) identity; seed (Num 2) identity]
    ≡ₚ [seed (Num 2) identity; seed (Num 1) identity] ∧
  solve codeUnitCompare identity [seed (Num 1) identity; seed (Num 2) identity]
    = OK [("C(1)", [Num 1; Num 2])] ∧
  solve codeUnitCompare identity [seed (Num 2) identity; seed (Num 1) identity]
    = OK [("C(1)", [Num 2; Num 1])] ∧
  solve codeUnitCompare identity [seed (Num 1) identity; seed (Num 2) identity]
    ≠ solve codeUnitCompare identity [seed (Num 2) identity; seed (Num 1) identity].
Proof.
  split; [apply Permutation_swap|]. split; [reflexivity|]. split; [reflexivity|].
  vm_compute. discriminate.
Qed.


(** ** Ids and keys *)

Lemma append_length s t :
  String.length (s +:+ t) = (String.length s + String.length t)%nat.
Proof. induction s as [|a s IH]; simpl; [done|]. by rewrite IH. Qed.

Lemma append_inj_r s s' t : s +:+ t = s' +:+ t → s = s'.
Proof.
  revert s'. induction s as [|a s IH]; intros [|a' s'] H; simpl in H.
  - done.
  - apply (f_equal String.length) in H. rewrite !append_length in H. simpl in H. lia.
  - apply (f_equal String.length) in H. rewrite !append_length in H. simpl in H. lia.
  - injection H as -> H. f_equal. by apply IH.
Qed.

Global Instance keyId_inj : Inj (=) (=) keyId.
Proof.
  intros [n|s] [m|s']; unfold keyId, entryId; simpl; intros H; try discriminate H.
  - do 2 apply (inj (String.append _)) in H. apply append_inj_r in H.
    f_equal. by apply (inj pretty).
  - do 2 apply (inj (String.append _)) in H. apply append_inj_r in H. by f_equal.
Qed.

Lemma fmap_Permutation_inj {A B} (f : A → B) `{!Inj (=) (=) f} l k :
  f <$> l ≡ₚ f <$> k → l ≡ₚ k.
Proof.
  intros H. apply Permutation_map_inv in H as (l3 & Heq & Hp).
  apply (inj (fmap f)) in Heq. by subst.
Qed.

Lemma keyLe_compareEntries localeCompare a b :
  compareEntries localeCompare a b ≤ 0 → keyLe localeCompare (key a.2) (key b.2).
Proof.
  unfold compareEntries, keyLe. destruct (key a.2), (key b.2); lia.
Qed.

Lemma keyLe_antisym localeCompare a b :
  Consistent localeCompare → (∀ a b, localeCompare a b = 0 → a = b) →
  keyLe localeCompare a b → keyLe localeCompare b a → a = b.
Proof.
  intros [Hs _] H0. destruct a as [x|x], b as [y|y]; simpl; try done.
  - intros. f_equal. lia.
  - intros Hxy Hyx. f_equal. apply H0. specialize (Hs x y).
    destruct (Z.sgn_spec (localeCompare x y)) as [[? E]|[[? E]|[? E]]],
             (Z.sgn_spec (localeCompare y x)) as [[? E']|[[? E']|[? E']]]; lia.
Qed.

(** The keys of an analysis: the ids of the store, in the order of the keys. *)
Lemma analysis_keys ρ localeCompare st :
  Consistent localeCompare → invariant ρ st →
  ∃ K, (analysis localeCompare st).*1 = keyId <$> K ∧
       StronglySorted (keyLe localeCompare) K ∧
       keyId <$> K ≡ₚ ids st.
Proof.
  intros Hc Hinv.
  exists ((λ ne, key ne.2) <$> sort (compareEntries localeCompare) (entries st)).
  assert ((analysis localeCompare st).*1
          = (sort (compareEntries localeCompare) (entries st)).*1) as Hk.
  { rewrite (analysis_spec ρ) by done. by rewrite <-list_fmap_compose. }
  assert ((sort (compareEntries localeCompare) (entries st)).*1
          = keyId <$> ((λ ne, key ne.2) <$> sort (compareEntries localeCompare) (entries st)))
    as Hid.
  { rewrite <-list_fmap_compose. apply Forall_fmap_ext, Forall_forall.
    intros [id en] Hin. rewrite sort_Permutation in Hin. simpl.
    by apply (inv_key _ _ Hinv). }
  split_and!.
  - by rewrite Hk.
  - eapply StronglySorted_fmap; [|by apply sort_sorted, compareEntries_consistent].
    intros x y. apply keyLe_compareEntries.
  - rewrite <-Hid. unfold ids. by rewrite sort_Permutation.
Qed.

(** ** The least fixpoint *)

Lemma map_get_Some {K V} `{EqDecision K} (k : K) (v : V) l :
  map_get k l = Some v → (k, v) ∈ l.
Proof.
  induction l as [|[k' v'] l IH]; simpl; [done|].
  destruct (decide (k = k')) as [->|]; [intros [= ->]; left|right; auto].
Qed.

Lemma valuesOf_elem_of an id v : v ∈ valuesOf an id → ∃ vs, (id, vs) ∈ an ∧ v ∈ vs.
Proof.
  unfold valuesOf. destruct (map_get id an) as [vs|] eqn:H; simpl.
  - apply map_get_Some in H. eauto.
  - by intros ?%elem_of_nil.
Qed.

Lemma valuesOf_NoDup an id :
  (∀ id vs, (id, vs) ∈ an → NoDup vs) → NoDup (valuesOf an id).
Proof.
  intros Hnd. unfold valuesOf. destruct (map_get id an) as [vs|] eqn:H; simpl.
  - apply map_get_Some in H. eauto.
  - constructor.
Qed.

(** What a solve that returns leaves. *)
Lemma solve_facts ρ localeCompare ast rules an :
  solve localeCompare ast rules = OK an →
  ∃ ix st,
    collectExpressions ast ∅ emptyIndex = OK ix ∧
    an = analysis localeCompare st ∧
    invariant anything st ∧
    (Forall (models ix ρ) rules → invariant ρ st) ∧
    (∀ id, id ∈ ids st ↔
           ∃ rule ref, rule ∈ rules ∧ ref ∈ references rule ∧ referenceId ix ref = OK id) ∧
    Forall (λ rule, Forall (λ ref, ∃ id, referenceId ix ref = OK id) (references rule)) rules.
Proof.
  intros H. pose proof H as H'.
  apply (solve_OK ρ) in H as (ix & st0 & st & Hix & Hst0 & Hd & -> & Hids & Hinv).
  apply (solve_OK anything) in H' as (ix' & st0' & st' & Hix' & Hst0' & Hd' & Han & _ & Hinv').
  assert (ix' = ix) as -> by congruence.
  assert (st0' = st0) as -> by congruence.
  assert (st' = st) as -> by congruence.
  destruct (defineRules_spec anything ix rules _ _ Hst0) as (_ & _ & Hids0 & Hres).
  exists ix, st. split_and!; try done.
  - apply Hinv', Forall_forall. intros. apply models_anything.
  - intros id. rewrite Hids, Hids0. split; [|auto].
    intros [?%elem_of_nil|?]; done.
Qed.

(** The analysis is under every assignment that is closed under the rules. *)
Lemma solve_least localeCompare ast rules an ix ρ :
  solve localeCompare ast rules = OK an →
  collectExpressions ast ∅ emptyIndex = OK ix →
  Forall (models ix ρ) rules →
  ∀ id v, assignment an id v → ρ id v.
Proof.
  intros (ix' & st & Hix' & -> & _ & Hinv & _)%(solve_facts ρ) Hix Hm id v.
  assert (ix' = ix) as -> by congruence. specialize (Hinv Hm).
  intros (vs & Hin & Hv)%valuesOf_elem_of.
  apply (elem_of_analysis ρ) in Hin as (en & Hin & ->); [|done].
  by apply (inv_data _ _ Hinv id en).
Qed.

Lemma solve_NoDup localeCompare ast rules an id :
  solve localeCompare ast rules = OK an → NoDup (valuesOf an id).
Proof.
  intros (ix' & st & Hix' & -> & Hinv & _)%(solve_facts anything).
  apply valuesOf_NoDup. intros id' vs (en & Hin & ->)%(elem_of_analysis anything); [|done].
  by apply (inv_data _ _ Hinv id' en).
Qed.

(** An analysis that satisfies a rule with a monotone callback is closed
    under it. *)
Lemma satisfied_models ix an rule :
  monotoneRule rule → satisfied ix an rule → models ix (assignment an) rule.
Proof.
  unfold monotoneRule, satisfied, models, assignment. intros Hmono Hs idr Hidr.
  specialize (Hs idr Hidr). destruct (lhs rule) as [c|ref|f deps].
  - done.
  - intros idl Hidl v ?. by apply (Hs idl Hidl).
  - intros idl Hidl ds Hds v Hv. apply (Hs idl Hidl).
    eapply (Hmono ds); [|done].
    apply Forall2_fmap_r. eapply Forall2_impl; [done|]. intros d id Hd v'. apply Hd.
Qed.

(** C2, as amended.  For a consistent [localeCompare] that tells different
    strings apart, a permutation of the rules of a solve that returns is
    solved too, and its analysis has the same keys in the same order.  The
    analysis is under every assignment closed under the rules, hence under the
    least fixpoint of the rule system.  When the callbacks are monotone and
    both analyses satisfy the rules, each key has the same values in both, in
    an order that may differ. *)
Theorem permuted_rules (localeCompare : string → string → Z) ast rules rules' an :
  Consistent localeCompare →
  (∀ a b, localeCompare a b = 0 → a = b) →
  rules ≡ₚ rules' →
  solve localeCompare ast rules = OK an →
  ∃ ix an',
    collectExpressions ast ∅ emptyIndex = OK ix ∧
    solve localeCompare ast rules' = OK an' ∧
    an'.*1 = an.*1 ∧
    (∀ ρ, Forall (models ix ρ) rules → ∀ id v, assignment an id v → ρ id v) ∧
    (Forall monotoneRule rules →
     Forall (satisfied ix an) rules →
     Forall (satisfied ix an') rules' →
     ∀ id, valuesOf an id ≡ₚ valuesOf an' id).
Proof.
  intros Hc H0 Hperm Hsolve.
  destruct (solve_facts anything _ _ _ _ Hsolve)
    as (ix & st & Hix & Han & Hinv & _ & Hids & Hres).
  assert (∃ an', solve localeCompare ast rules' = OK an') as (an' & Hsolve').
  { eapply solve_resolved; [done|]. by rewrite <-Hperm. }
  destruct (solve_facts anything _ _ _ _ Hsolve')
    as (ix' & st' & Hix' & Han' & Hinv' & _ & Hids' & _).
  assert (ix' = ix) as -> by congruence.
  exists ix, an'. split_and!; try done.
  - destruct (analysis_keys anything localeCompare st Hc Hinv) as (K & HK & Hsorted & HKp).
    destruct (analysis_keys anything localeCompare st' Hc Hinv') as (K' & HK' & Hsorted' & HKp').
    rewrite Han, Han', HK, HK'. f_equal.
    apply (StronglySorted_unique_strong (keyLe localeCompare)); [|done..|].
    { intros x y _ _. by apply keyLe_antisym. }
    apply (fmap_Permutation_inj keyId). rewrite HKp, HKp'.
    apply NoDup_Permutation; [apply (inv_ids _ _ Hinv')|apply (inv_ids _ _ Hinv)|].
    intros id. rewrite Hids, Hids'. by setoid_rewrite Hperm.
  - intros ρ. by apply (solve_least localeCompare ast rules an ix ρ).
  - intros Hmono Hsat Hsat' id.
    assert (Forall (models ix (assignment an)) rules') as Hm.
    { rewrite <-Hperm. rewrite Forall_forall in Hmono, Hsat |- *.
      intros rule Hin. apply satisfied_models; auto. }
    assert (Forall (models ix (assignment an')) rules) as Hm'.
    { rewrite Hperm. rewrite Hperm in Hmono. rewrite Forall_forall in Hmono, Hsat' |- *.
      intros rule Hin. apply satisfied_models; auto. }
    apply NoDup_Permutation; [by eapply solve_NoDup..|].
    intros v. split.
    + by apply (solve_least localeCompare ast rules an ix (assignment an')).
    + by apply (solve_least localeCompare ast rules' an' ix (assignment an)).
Qed.


Lemma codeUnitCompare_eq a b : codeUnitCompare a b = 0 → a = b.
Proof.
  unfold codeUnitCompare. destruct (String.compare a b) eqn:H; [|done..].
  intros _. by apply String.compare_eq_iff.
Qed.

Lemma allValues_monotone : monotone allValues.
Proof.
  unfold monotone, allValues. induction 1 as [|d d' ds ds' Hd Hds IH]; simpl; [done|].
  intros v [?|?]%elem_of_app; apply elem_of_app; [left|right]; auto.
Qed.

Lemma copyRules_satisfied ix rules :
  collectExpressions identity ∅ emptyIndex = OK ix →
  rules ≡ₚ copyRules →
  Forall monotoneRule rules ∧ Forall (satisfied ix copyAnalysis) rules.
Proof.
  intros Hix ->. split.
  - repeat constructor. apply allValues_monotone.
  - repeat constructor.
    + intros idr [= <-]. simpl. unfold valuesOf. simpl. left.
    + intros idr [= <-]. simpl. intros ids Hids.
      apply Forall2_cons_inv_l in Hids as (id & ids' & [= <-] & ->%Forall2_nil_inv_l & ->).
      done.
Qed.

Lemma permuted_rules_witness :
  Consistent codeUnitCompare ∧
  (∀ a b, codeUnitCompare a b = 0 → a = b) ∧
  copyRules ≡ₚ reverse copyRules ∧
  solve codeUnitCompare identity copyRules = OK copyAnalysis ∧
  ∃ ix an',
    collectExpressions identity ∅ emptyIndex = OK ix ∧
    solve codeUnitCompare identity (reverse copyRules) = OK an' ∧
    an'.*1 = copyAnalysis.*1 ∧
    (∀ ρ, Forall (models ix ρ) copyRules → ∀ id v, assignment copyAnalysis id v → ρ id v) ∧
    (∀ id, valuesOf copyAnalysis id ≡ₚ valuesOf an' id).
Proof.
  assert (copyRules ≡ₚ reverse copyRules) as Hperm
    by (symmetry; apply reverse_Permutation).
  split; [exact codeUnitCompare_consistent|]. split; [exact codeUnitCompare_eq|].
  split; [exact Hperm|]. split; [reflexivity|].
  destruct (permuted_rules codeUnitCompare identity copyRules (reverse copyRules)
              copyAnalysis codeUnitCompare_consistent codeUnitCompare_eq Hperm eq_refl)
    as (ix & an' & Hix & Hsolve & Hkeys & Hleast & Hsame).
  exists ix, an'. split; [exact Hix|]. split; [exact Hsolve|].
  split; [exact Hkeys|]. split; [exact Hleast|].
  assert (an' = copyAnalysis) as Han by (injection Hsolve as <-; reflexivity).
  destruct (copyRules_satisfied ix copyRules Hix (reflexivity _)) as [Hmono Hsat].
  destruct (copyRules_satisfied ix (reverse copyRules) Hix (reverse_Permutation _))
    as [_ Hsat'].
  apply Hsame; [exact Hmono|exact Hsat|]. rewrite Han. exact Hsat'.
Defined.


(** * Further properties of the solver *)

(** ** The turns of the drain loop *)

Lemma worklist_enactRule t st : worklist st `prefix_of` worklist (enactRule t st).
Proof.
  destruct (enactRule_spec t st) as (_ & _ & [-> | ->] & _); [done|].
  unfold set_add. destruct (decide _); [done|]. by apply prefix_app_r.
Qed.

Lemma worklist_enactRules ts : ∀ st, worklist st `prefix_of` worklist (enactRules ts st).
Proof.
  induction ts as [|t ts IH]; intros st; simpl; [done|].
  etrans; [apply worklist_enactRule|apply IH].
Qed.

Lemma drainFrom_worklist fuel : ∀ i st st',
  drainFrom fuel i st = Some st' → worklist st `prefix_of` worklist st'.
Proof.
  induction fuel as [|fuel IH]; intros i st st' H; simpl in H.
  - destruct (worklist st !! i); [done|]. by injection H as <-.
  - destruct (worklist st !! i) as [e|]; [|by injection H as <-].
    etrans; [apply worklist_enactRules|by eapply IH].
Qed.

(** The loop takes one turn for each position of the worklist it leaves. *)
Lemma drainFrom_turns fuel : ∀ i st st',
  drainFrom fuel i st = Some st' → (i ≤ length (worklist st))%nat →
  ∀ fuel' : nat,
    drainFrom fuel' i st =
      if decide (length (worklist st') ≤ fuel' + i)%nat then Some st' else None.
Proof.
  induction fuel as [|fuel IH]; intros i st st' H Hi fuel'; simpl in H.
  - destruct (worklist st !! i) as [e|] eqn:He; [done|]. injection H as <-.
    pose proof He as Hge. apply lookup_ge_None in Hge. rewrite decide_True by lia.
    destruct fuel'; simpl; by rewrite He.
  - destruct (worklist st !! i) as [e|] eqn:He.
    + pose proof (lookup_lt_Some _ _ _ He) as Hlt.
      pose proof (prefix_length _ _ (worklist_enactRules (rulesOf st e) st)) as Hlen.
      pose proof (prefix_length _ _ (drainFrom_worklist _ _ _ _ H)) as Hlen'.
      destruct fuel' as [|fuel']; simpl; rewrite He.
      * rewrite decide_False by lia. done.
      * rewrite (IH _ _ _ H) by lia.
        destruct (decide _), (decide _); try done; lia.
    + injection H as <-. pose proof He as Hge. apply lookup_ge_None in Hge.
      rewrite decide_True by lia. destruct fuel'; simpl; by rewrite He.
Qed.

(** X1.  After any sequence of definitions the drain loop comes to an end.
    It takes exactly one turn for each entry of the worklist it leaves, no
    entry is there twice and every one is an entry of the store: an entry is
    visited at most once, however often it grows. *)
Theorem drain_visits_each_entry_once ix rules st0 :
  defineRules ix rules initialState = OK st0 →
  ∃ st,
    drain st0 = Some st ∧
    NoDup (worklist st) ∧
    (length (worklist st) ≤ length (entries st0))%nat ∧
    worklist st0 `prefix_of` worklist st ∧
    ∀ fuel : nat,
      drainFrom fuel 0 st0 =
        if decide (length (worklist st) ≤ fuel)%nat then Some st else None.
Proof.
  intros Hst0.
  destruct (defineRules_spec anything ix rules _ _ Hst0) as (_ & Hinv & _).
  destruct (drain_invariant anything st0) as (st & Hd & Hst & _ & Hids).
  { apply Hinv; [|apply invariant_initial].
    apply Forall_forall. intros. apply models_anything. }
  exists st. split; [done|]. split; [apply (inv_worklist _ _ Hst)|].
  split.
  { rewrite <-(ids_length st0), <-Hids, ids_length. by eapply worklist_length. }
  split; [by eapply drainFrom_worklist|].
  intros fuel. rewrite (drainFrom_turns _ _ _ _ Hd) by lia.
  by replace (fuel + 0)%nat with fuel by lia.
Qed.

Lemma drain_visits_each_entry_once_witness :
  ∃ ix st0 st,
    collectExpressions sum ∅ emptyIndex = OK ix ∧
    defineRules ix chainRules initialState = OK st0 ∧
    drain st0 = Some st ∧
    NoDup (worklist st) ∧
    (length (worklist st) ≤ length (entries st0))%nat ∧
    worklist st0 `prefix_of` worklist st ∧
    ∀ fuel : nat,
      drainFrom fuel 0 st0 =
        if decide (length (worklist st) ≤ fuel)%nat then Some st else None.
Proof.
  destruct (collectExpressions sum ∅ emptyIndex) as [ix|err] eqn:Hix; [|discriminate Hix].
  destruct (defineRules ix chainRules initialState) as [st0|err] eqn:Hst0.
  - destruct (drain_visits_each_entry_once ix chainRules st0 Hst0) as (st & H).
    exists ix, st0, st. split; [reflexivity|]. split; [exact Hst0|]. exact H.
  - exfalso. injection Hix as <-. vm_compute in Hst0. discriminate Hst0.
Defined.


(** ** References that resolve *)

Lemma operator_type_not_var op : operator_type op ≠ "var".
Proof. by destruct op. Qed.

Lemma occurrences_variables e : ∀ scope,
  (occurrences scope e).*1 = filter (λ e', type e' = "var") (subexpressions e).
Proof.
  induction e as [l n|l b|l x|l op e1 IHe1 e2 IHe2|l e1 IHe1 e2 IHe2 e3 IHe3|l x e IHe
                 |l f x e IHe|l e1 IHe1 e2 IHe2|l x e1 IHe1 e2 IHe2];
    intros scope; cbn [occurrences subexpressions]; rewrite filter_cons;
    rewrite ?fmap_app, ?filter_app, ?IHe, ?IHe1, ?IHe2, ?IHe3.
  - by rewrite decide_False.
  - rewrite decide_False; [done|]. by destruct b.
  - by rewrite decide_True.
  - rewrite decide_False; [done|]. apply operator_type_not_var.
  - by rewrite decide_False.
  - by rewrite decide_False.
  - by rewrite decide_False.
  - by rewrite decide_False.
  - by rewrite decide_False.
Qed.

Lemma map_get_is_Some {K V} `{EqDecision K} (k : K) (m : list (K * V)) :
  is_Some (map_get k m) ↔ k ∈ m.*1.
Proof.
  induction m as [|[k' v] m IH]; simpl.
  - split; [by intros [? ?]|by intros ?%elem_of_nil].
  - destruct (decide (k = k')) as [->|Hne].
    + split; [intros _; left|by eexists].
    + rewrite IH, elem_of_cons. split; [by right|]. by intros [?|?].
Qed.

(** The keys of [labelOfvariableDeclaration] are the [var] nodes of the tree. *)
Lemma declared_variables ast ix v :
  collectExpressions ast ∅ emptyIndex = OK ix →
  is_Some (map_get v (labelOfvariableDeclaration ix)) ↔ variableOf ast v.
Proof.
  intros H. apply (collectExpressions_declarations _ _ []) in H; [|apply agree_empty].
  rewrite map_get_is_Some, H. simpl. rewrite <-list_fmap_compose.
  change (v ∈ (occurrences [] ast).*1 ↔ variableOf ast v).
  rewrite occurrences_variables, list_elem_of_filter. unfold variableOf.
  split; intros [? ?]; by split.
Qed.

Lemma referenceKey_Throw ix ref err :
  referenceKey ix ref = Throw err →
  err = UnknownReference ∧
  ∃ v, ref = VariableReference v ∧ map_get v (labelOfvariableDeclaration ix) = None.
Proof.
  destruct ref as [e|v|b|f]; simpl; try done.
  destruct (map_get v _) eqn:Hv; [done|]. intros [= <-]. eauto.
Qed.

Lemma referenceId_not_OK ix ref :
  (¬ ∃ id, referenceId ix ref = OK id) ↔
  ∃ v, ref = VariableReference v ∧ map_get v (labelOfvariableDeclaration ix) = None.
Proof.
  unfold referenceId. destruct (referenceKey ix ref) as [ck|err] eqn:H; simpl.
  - split; [intros []; eauto|]. intros (v & -> & Hv). simpl in H. by rewrite Hv in H.
  - apply referenceKey_Throw in H as (-> & Hv). split; [done|]. by intros _ (? & ?).
Qed.

(** X2.  After a traversal that returned, [getEntryFromReference] throws for
    one kind of reference only: a [variable] reference to something that is
    not a [var] node of the tree, and what it throws then is
    [UnknownReference].  References to expressions, bound variables and
    function variables always resolve, whatever node they name. *)
Theorem getEntryFromReference_outcome ast ix ref st :
  collectExpressions ast ∅ emptyIndex = OK ix →
  match getEntryFromReference ix ref st with
  | OK res =>
      (∀ v, ref = VariableReference v → variableOf ast v) ∧
      ∃ id, referenceId ix ref = OK id ∧ idOf res.2 res.1 = Some id
  | Throw err =>
      err = UnknownReference ∧ ∃ v, ref = VariableReference v ∧ ¬ variableOf ast v
  end.
Proof.
  intros H. destruct (getEntryFromReference ix ref st) as [res|err] eqn:Hres.
  - apply (getEntryFromReference_spec anything) in Hres as (id & Hid & Hres & _).
    split; [|eauto]. intros v ->. apply (declared_variables _ _ _ H).
    unfold referenceId in Hid. simpl in Hid.
    destruct (map_get v _); [by eexists|done].
  - unfold getEntryFromReference in Hres.
    apply bind_Throw in Hres as [Hres|(? & _ & ?)]; [|done].
    apply referenceKey_Throw in Hres as (-> & v & -> & Hv). split; [done|].
    exists v. split; [done|]. rewrite <-(declared_variables _ _ _ H), Hv.
    by intros [? ?].
Qed.

Lemma getEntryFromReference_outcome_witness :
  ∃ ix,
    collectExpressions identity ∅ emptyIndex = OK ix ∧
    (∀ v, VariableReference identity = VariableReference v → ¬ variableOf identity v) ∧
    getEntryFromReference ix (VariableReference identity) initialState
      = Throw UnknownReference.
Proof.
  destruct (collectExpressions identity ∅ emptyIndex) as [ix|err] eqn:H; [|discriminate H].
  exists ix. split; [reflexivity|].
  pose proof (getEntryFromReference_outcome identity ix (VariableReference identity)
                initialState H) as Hout.
  destruct (getEntryFromReference ix (VariableReference identity) initialState)
    as [res|err].
  - destruct Hout as [Hvar _]. destruct (Hvar identity eq_refl) as [_ Hty].
    discriminate Hty.
  - destruct Hout as (-> & v & Heq & Hv). split; [|reflexivity].
    intros v' [= <-]. injection Heq as <-. exact Hv.
Defined.

Lemma resolvable_dec ix ref :
  {∃ id, referenceId ix ref = OK id} + {¬ ∃ id, referenceId ix ref = OK id}.
Proof.
  destruct (referenceId ix ref) as [id|err] eqn:H.
  - left. by exists id.
  - right. by intros [? ?].
Qed.

Lemma unresolved_reference ix (rules : list Rule) :
  ¬ Forall (λ rule, Forall (λ ref, ∃ id, referenceId ix ref = OK id) (references rule)) rules →
  ∃ rule ref, rule ∈ rules ∧ ref ∈ references rule ∧ ¬ ∃ id, referenceId ix ref = OK id.
Proof.
  intros Hnot.
  apply (not_Forall_Exists _ (dec:=λ rule, Forall_dec _ (dec:=resolvable_dec ix) _)) in Hnot.
  apply Exists_exists in Hnot as (rule & Hrule & Hnot).
  apply (not_Forall_Exists _ (dec:=resolvable_dec ix)) in Hnot.
  apply Exists_exists in Hnot as (ref & Href & Hnot). eauto.
Qed.

(** X3.  What a solve comes to.  It returns an analysis exactly when the
    traversal returns and every [variable] reference of the rules names a
    [var] node of the tree.  Otherwise it throws what the traversal threw, or
    [UnknownReference] for a [variable] reference that names no [var] node of
    the tree; it throws nothing else. *)
Theorem solve_outcome localeCompare ast rules :
  match solve localeCompare ast rules with
  | OK an =>
      (∃ ix, collectExpressions ast ∅ emptyIndex = OK ix) ∧
      ∀ rule v, rule ∈ rules → VariableReference v ∈ references rule → variableOf ast v
  | Throw err =>
      collectExpressions ast ∅ emptyIndex = Throw err ∧
        thrown (occurrences [] ast) (subexpressions ast) err
      ∨
      err = UnknownReference ∧
        (∃ ix, collectExpressions ast ∅ emptyIndex = OK ix) ∧
        ∃ rule v, rule ∈ rules ∧ VariableReference v ∈ references rule ∧ ¬ variableOf ast v
  end.
Proof.
  destruct (solve localeCompare ast rules) as [an|err] eqn:Hsolve.
  - apply (solve_facts anything) in Hsolve as (ix & st & Hix & _ & _ & _ & _ & Hall).
    split; [eauto|]. intros rule v Hrule Hv.
    rewrite Forall_forall in Hall. specialize (Hall _ Hrule).
    rewrite Forall_forall in Hall. destruct (Hall _ Hv) as [id Hid].
    apply (declared_variables _ _ _ Hix). unfold referenceId in Hid. simpl in Hid.
    destruct (map_get v _); [by eexists|done].
  - destruct (collectExpressions ast ∅ emptyIndex) as [ix|err'] eqn:Hix.
    + right. assert (err = UnknownReference) as ->.
      { pose proof (solve_terminates localeCompare ast rules) as Hterm.
        unfold solve in Hsolve, Hterm. rewrite Hix in Hsolve, Hterm. simpl in Hsolve, Hterm.
        destruct (defineRules ix rules initialState) as [st0|err'] eqn:Hst0; simpl in *.
        - destruct (drain st0); [done|]. by injection Hsolve as <-.
        - injection Hsolve as <-. by apply defineRules_Throw in Hst0. }
      split; [done|]. split; [eauto|].
      destruct (unresolved_reference ix rules) as (rule & ref & Hrule & Href & Hnot).
      { intros Hall. destruct (solve_resolved localeCompare ast ix rules Hix Hall) as [an Han].
        by rewrite Han in Hsolve. }
      apply referenceId_not_OK in Hnot as (v & -> & Hv).
      exists rule, v. split; [done|]. split; [done|].
      rewrite <-(declared_variables _ _ _ Hix), Hv. by intros [? ?].
    + left. rewrite (solve_Throw _ _ _ _ Hix) in Hsolve. injection Hsolve as <-.
      split; [done|]. apply (collectExpressions_Throw _ ∅ [] emptyIndex); [|done].
      apply agree_empty.
Qed.

(** ** The entries of the result *)

Lemma analysis_NoDup ρ localeCompare st :
  invariant ρ st → NoDup (analysis localeCompare st).*1 ∧
  ∀ id, id ∈ (analysis localeCompare st).*1 ↔ id ∈ ids st.
Proof.
  intros Hinv. rewrite (analysis_spec ρ) by done.
  rewrite <-list_fmap_compose.
  assert (((λ ne : string * Entry, (ne.1, data ne.2)) <$>
            sort (compareEntries localeCompare) (entries st)).*1
          = (sort (compareEntries localeCompare) (entries st)).*1) as Heq.
  { rewrite <-list_fmap_compose. by apply list_fmap_ext. }
  rewrite <-list_fmap_compose in Heq. rewrite Heq.
  pose proof (sort_Permutation (compareEntries localeCompare) (entries st)) as Hperm.
  split.
  - rewrite Hperm. apply Hinv.
  - intros id. by rewrite Hperm.
Qed.

(** X4.  The result has one property for each id some reference of the rules
    resolves to and no other: no id is listed twice and none comes from
    anything but a reference of a rule that was defined. *)
Theorem analysis_lists_referenced_ids localeCompare ast rules an :
  solve localeCompare ast rules = OK an →
  ∃ ix,
    collectExpressions ast ∅ emptyIndex = OK ix ∧
    NoDup an.*1 ∧
    ∀ id, id ∈ an.*1 ↔
          ∃ rule ref, rule ∈ rules ∧ ref ∈ references rule ∧ referenceId ix ref = OK id.
Proof.
  intros Hsolve.
  apply (solve_facts anything) in Hsolve as (ix & st & Hix & -> & Hinv & _ & Hids & _).
  exists ix. split; [done|].
  destruct (analysis_NoDup anything localeCompare st Hinv) as [Hnd Hin].
  split; [done|]. intros id. by rewrite Hin, Hids.
Qed.

Lemma analysis_lists_referenced_ids_witness :
  ∃ ix,
    collectExpressions recursiveCall ∅ emptyIndex = OK ix ∧
    NoDup mixedAnalysis.*1 ∧
    ∀ id, id ∈ mixedAnalysis.*1 ↔
          ∃ rule ref, rule ∈ mixedRules ∧ ref ∈ references rule ∧ referenceId ix ref = OK id.
Proof.
  apply (analysis_lists_referenced_ids codeUnitCompare recursiveCall mixedRules mixedAnalysis).
  vm_compute. reflexivity.
Defined.

(** X5.  Nothing is made up: every value of the result is the constant of a
    rule or a value some callback of a rule yields.  With rules that have no
    callback, the values of the result are constants of the rules. *)
Theorem values_originate localeCompare ast rules an id vs v :
  solve localeCompare ast rules = OK an →
  (id, vs) ∈ an → v ∈ vs →
  originates rules v ∧
  ((∀ rule dynamic dependencies, rule ∈ rules → lhs rule ≠ Dynamic dynamic dependencies) →
   ∃ rule, rule ∈ rules ∧ lhs rule = Constant v).
Proof.
  intros Hsolve Hid Hv.
  assert (originates rules v) as Horig.
  { destruct (solve_facts anything _ _ _ _ Hsolve) as (ix & st & Hix & -> & Hinv & _).
    apply (solve_least _ _ _ _ ix (λ _ v, originates rules v)) with (id:=id) (v:=v)
      in Hsolve; [done|done| |].
    - apply Forall_forall. intros rule Hrule idr _.
      destruct (lhs rule) as [c|ref|dynamic dependencies] eqn:Hlhs.
      + exists rule. split; [done|]. by rewrite Hlhs.
      + done.
      + intros idl _ ds _ v' Hv'. exists rule. split; [done|]. rewrite Hlhs. eauto.
    - unfold assignment, valuesOf.
      destruct (analysis_NoDup anything localeCompare st Hinv) as [Hnd _].
      assert (map_get id (analysis localeCompare st) = Some vs) as ->; [|done].
      clear -Hnd Hid. induction (analysis localeCompare st) as [|[id' vs'] an IH]; simpl.
      + by apply elem_of_nil in Hid.
      + apply NoDup_cons in Hnd as [Hnotin Hnd]. simpl in Hnotin.
        apply elem_of_cons in Hid as [[= <- <-]|Hid].
        * by rewrite decide_True.
        * rewrite decide_False; [by apply IH|]. intros ->. apply Hnotin.
          apply list_elem_of_fmap. by exists (id', vs). }
  split; [done|]. intros Hnone. destruct Horig as (rule & Hrule & Hrv).
  exists rule. split; [done|].
  destruct (lhs rule) as [c|ref|dynamic dependencies] eqn:Hlhs.
  - by subst.
  - done.
  - by destruct (Hnone rule dynamic dependencies Hrule).
Qed.

Lemma values_originate_witness :
  originates mixedRules (Str "b") ∧
  ((∀ rule dynamic dependencies,
      rule ∈ mixedRules → lhs rule ≠ Dynamic dynamic dependencies) →
   ∃ rule, rule ∈ mixedRules ∧ lhs rule = Constant (Str "b")).
Proof.
  apply (values_originate codeUnitCompare recursiveCall mixedRules mixedAnalysis
           "p(f#1)" [Str "b"] (Str "b")).
  - vm_compute. reflexivity.
  - unfold mixedAnalysis. do 2 apply list_elem_of_further. apply list_elem_of_here.
  - apply list_elem_of_here.
Defined.

(** ** Entries of expressions *)

(** X6.  The entry of an expression depends on the label of the node only:
    two expression references resolve to the same entry exactly when their
    nodes have the same label, and no reference of another kind resolves to
    the entry of an expression. *)
Theorem expression_entry_by_label ix e ref id :
  referenceId ix ref = OK id →
  referenceId ix (ExpressionReference e) = OK id ↔
  ∃ e', ref = ExpressionReference e' ∧ label e' = label e.
Proof.
  intros Href. apply referenceId_OK in Href as (ck & Hck & ->).
  pose proof (referenceKey_category _ _ _ Hck) as Hcat.
  destruct ck as [c k]. simpl in *. subst c.
  change (referenceId ix (ExpressionReference e))
    with (OK (A:=string) (keyId (Num (label e)))).
  split.
  - intros [= Heq]. apply (keyId_inj (Num (label e)) k) in Heq. subst k.
    destruct ref as [e'|v|b|f]; simpl in Hck.
    + injection Hck as Hl. eauto.
    + by destruct (map_get v _).
    + done.
    + done.
  - intros (e' & -> & Hl). simpl in Hck. injection Hck as _ <-. by rewrite Hl.
Qed.

Lemma expression_entry_by_label_witness :
  ∃ ix,
    collectExpressions sum ∅ emptyIndex = OK ix ∧
    (referenceId ix (ExpressionReference (VariableExpression 1 "y")) = OK "C(1)" ↔
     ∃ e', ExpressionReference sum = ExpressionReference e' ∧
           label e' = label (VariableExpression 1 "y")).
Proof.
  destruct (collectExpressions sum ∅ emptyIndex) as [ix|err] eqn:H; [|discriminate H].
  exists ix. split; [reflexivity|].
  apply (expression_entry_by_label ix (VariableExpression 1 "y") (ExpressionReference sum)).
  reflexivity.
Defined.


(** ** The store over time *)

Global Instance later_preorder : PreOrder later.
Proof.
  split.
  - intros st. split; [done|]. split; [done|]. split; [done|]. done.
  - intros a b c (Hab1 & Hab2 & Hab3 & Hab4) (Hbc1 & Hbc2 & Hbc3 & Hbc4).
    split; [by trans b|]. split; [intros e; by trans (dataOf b e)|].
    split; [by eauto|by trans (worklist b)].
Qed.

Lemma rulesOf_getOrCreateEntry category key st e :
  rulesOf (getOrCreateEntry category key st).2 e = rulesOf st e.
Proof.
  destruct (getOrCreateEntry_spec category key st) as (_ & _ & _ & [[-> _]|(_ & _ & H)]);
    [done|].
  unfold rulesOf. rewrite H.
  destruct (decide (e < length (entries st))%nat).
  - by rewrite lookup_app_l.
  - rewrite (lookup_ge_None_2 (entries st)) by lia.
    destruct (decide (e = length (entries st))) as [->|].
    + by rewrite list_lookup_middle.
    + rewrite lookup_ge_None_2; [done|]. rewrite length_app. simpl. lia.
Qed.

Lemma rulesOf_enactRule t st e : rulesOf (enactRule t st) e = rulesOf st e.
Proof.
  destruct (enactRule_spec t st) as (new & He & _).
  unfold rulesOf. rewrite He, lookup_alter_entry.
  destruct (decide (trhs t = e)); [|done]. by destruct (entries st !! e).
Qed.

Lemma rulesOf_enactRules ts : ∀ st e, rulesOf (enactRules ts st) e = rulesOf st e.
Proof.
  induction ts as [|t ts IH]; intros st e; simpl; [done|].
  by rewrite IH, rulesOf_enactRule.
Qed.

Lemma rulesOf_registerRule t st dep e t' :
  t' ∈ rulesOf (registerRule t st dep) e ↔
  t' ∈ rulesOf st e ∨
  t' = t ∧ e = dep ∧ is_Some (entries st !! dep) ∧ (uid t ∉ uid <$> rulesOf st dep).
Proof.
  unfold rulesOf, registerRule. simpl. rewrite lookup_alter_entry.
  destruct (decide (dep = e)) as [<-|Hne].
  - destruct (entries st !! dep) as [[id en]|]; simpl.
    + destruct (decide (uid t ∈ uid <$> rules en)) as [Hin|Hnotin].
      * split; [by left|]. by intros [?|(_ & _ & _ & ?)].
      * rewrite elem_of_app, list_elem_of_singleton. split.
        -- intros [?| ->]; [by left|]. right. by eauto.
        -- intros [?|(-> & _)]; [by left|by right].
    + split; [by left|]. intros [?|(_ & _ & [? ?] & _)]; done.
  - split; [by left|]. intros [?|(_ & -> & _)]; done.
Qed.

Lemma later_perform st a : later st (perform st a).
Proof.
  destruct a as [category key| |t dep|t]; simpl.
  - split; [apply extends_getOrCreateEntry|]. split.
    { intros e. by rewrite dataOf_getOrCreateEntry. }
    split. { intros e t. by rewrite rulesOf_getOrCreateEntry. }
    destruct (getOrCreateEntry_spec category key st) as (_ & -> & _). done.
  - split; [apply extends_allocate|]. done.
  - split; [apply extends_registerRule|]. split.
    { intros e. by rewrite dataOf_registerRule. }
    split; [|done]. intros e t' Ht'. apply rulesOf_registerRule. by left.
  - split; [apply extends_enactRule|]. split.
    { intros e. destruct (dataOf_enactRule t st e) as (new & -> & _).
      intros v Hv. apply elem_of_app. by left. }
    split. { intros e t'. by rewrite rulesOf_enactRule. }
    apply worklist_enactRule.
Qed.

Lemma later_performAll actions : ∀ st, later st (performAll st actions).
Proof.
  induction actions as [|a actions IH]; intros st; simpl; [done|].
  etrans; [apply (later_perform st a)|apply IH].
Qed.

Lemma later_enactRules ts st : later st (enactRules ts st).
Proof. rewrite enactRules_actions. apply later_performAll. Qed.

Lemma later_defineRule ix rule st st' : defineRule ix rule st = OK st' → later st st'.
Proof. intros (actions & ->)%defineRule_actions. apply later_performAll. Qed.

Lemma later_defineRules ix rules st st' : defineRules ix rules st = OK st' → later st st'.
Proof. intros (actions & ->)%defineRules_actions. apply later_performAll. Qed.

Lemma later_drainFrom fuel i st st' : drainFrom fuel i st = Some st' → later st st'.
Proof. intros (actions & ->)%drainFrom_actions. apply later_performAll. Qed.

Lemma entries_later st st' e :
  later st st' → is_Some (entries st !! e) → is_Some (entries st' !! e).
Proof.
  intros (Hext & _) [[id en] H]. destruct (proj1 (idOf_Some st' e id)) as [en' ->];
    [|by eexists].
  apply Hext, idOf_Some. by exists en.
Qed.

Lemma translates_later ix st st' rule t :
  later st st' → translates ix st rule t → translates ix st' rule t.
Proof.
  intros (Hext & _ & Hrules & _) [(idr & Hidr & Hr) Hl]. split; [by eauto|].
  destruct (lhs rule) as [c|ref|dynamic dependencies]; [done| |].
  - destruct Hl as (l & idl & Ht & Hidl & Hi & Hin). exists l, idl. by eauto 10.
  - destruct Hl as (ds & idl & Ht & Hidl & Hi & Hin). exists ds, idl.
    split; [done|]. split; [done|]. split.
    + eapply Forall2_impl; [done|]. intros d id. apply Hext.
    + eapply Forall_impl; [done|]. intros d. apply Hrules.
Qed.

Lemma enacted_later st st' t : later st st' → enacted st t → enacted st' t.
Proof.
  intros (_ & Hdata & _) (st1 & Hst1 & Ht). exists st1.
  split; [intros e; by trans (dataOf st e)|by trans (dataOf st (trhs t))].
Qed.

(** ** Entries that have data are on the worklist *)

Lemma enactValues_flag rhs vs : ∀ st b,
  let r := foldl (enactValue rhs) (st, b) vs in
  r.2 = true ∨ r = (st, b).
Proof.
  induction vs as [|v vs IH]; intros st b; simpl; [by right|].
  destruct (decide (v ∈ dataOf st rhs)) as [Hin|Hnotin].
  - rewrite enactValue_old by done. apply IH.
  - rewrite enactValue_new by done. left.
    destruct (IH (alterEntry (dataAdd v) rhs st) true) as [H|H]; [done|by rewrite H].
Qed.

Lemma enactRule_queued t st : enactRule t st = st ∨ trhs t ∈ worklist (enactRule t st).
Proof.
  unfold enactRule.
  destruct (enactValues_flag (trhs t) (evaluate st (tlhs t)) st false) as [H|H]; simpl in H.
  - rewrite H. right. simpl. apply elem_of_set_add. by right.
  - rewrite H. by left.
Qed.

Lemma changedQueued_perform st a : changedQueued st → changedQueued (perform st a).
Proof.
  intros Hst e He. destruct (later_perform st a) as (_ & _ & _ & Hwl).
  destruct a as [category key| |t dep|t]; simpl in *.
  - rewrite dataOf_getOrCreateEntry in He. eapply elem_of_prefix; [|done]. by apply Hst.
  - by apply Hst.
  - rewrite dataOf_registerRule in He. by apply Hst.
  - destruct (enactRule_queued t st) as [Heq|Hin]; [rewrite Heq in *; by apply Hst|].
    destruct (dataOf_enactRule t st e) as (new & Hdata & _ & Hnew).
    destruct new as [|v new].
    + rewrite Hdata, app_nil_r in He. eapply elem_of_prefix; [|done]. by apply Hst.
    + destruct (Hnew v) as [-> _]; [by left|done].
Qed.

Lemma changedQueued_performAll actions : ∀ st,
  changedQueued st → changedQueued (performAll st actions).
Proof.
  induction actions as [|a actions IH]; intros st Hst; simpl; [done|].
  by apply IH, changedQueued_perform.
Qed.

(** ** Enacting a rule adds all it yields *)

Lemma enactValues_complete rhs vs : ∀ st b,
  is_Some (entries st !! rhs) →
  let r := foldl (enactValue rhs) (st, b) vs in
  ∀ v, v ∈ dataOf st rhs ∨ v ∈ vs → v ∈ dataOf r.1 rhs.
Proof.
  induction vs as [|v' vs IH]; intros st b Hrhs; simpl.
  - intros v [?|?%elem_of_nil]; done.
  - intros v Hv. destruct (decide (v' ∈ dataOf st rhs)) as [Hin|Hnotin].
    + rewrite enactValue_old by done. apply IH; [done|].
      destruct Hv as [?|[->|?]%elem_of_cons]; auto.
    + rewrite enactValue_new by done. apply IH.
      * unfold alterEntry. simpl. rewrite lookup_alter_entry, decide_True by done.
        destruct Hrhs as [ie ->]. by eexists.
      * assert (dataOf (alterEntry (dataAdd v') rhs st) rhs = dataOf st rhs ++ [v']) as ->.
        { unfold dataOf, alterEntry. simpl. rewrite lookup_alter_entry, decide_True by done.
          by destruct Hrhs as [ie ->]. }
        rewrite elem_of_app, list_elem_of_singleton.
        destruct Hv as [?|[->|?]%elem_of_cons]; auto.
Qed.

Lemma enactRule_complete t st :
  is_Some (entries st !! trhs t) →
  evaluate st (tlhs t) ⊆ dataOf (enactRule t st) (trhs t).
Proof.
  intros Hrhs v Hv. unfold enactRule.
  pose proof (enactValues_complete (trhs t) (evaluate st (tlhs t)) st false Hrhs v
                (or_intror Hv)) as H. simpl in H.
  by destruct (foldl _ _ _).2.
Qed.

Lemma enactRules_enacts ts : ∀ st t,
  t ∈ ts → is_Some (entries st !! trhs t) →
  ∃ st1, later st st1 ∧ evaluate st1 (tlhs t) ⊆ dataOf (enactRules ts st) (trhs t).
Proof.
  induction ts as [|t0 ts IH]; intros st t Hin Hrhs; [by apply elem_of_nil in Hin|].
  simpl. apply elem_of_cons in Hin as [<-|Hin].
  - exists st. split; [done|]. etrans; [by apply enactRule_complete|].
    apply (later_enactRules ts (enactRule t st)).
  - destruct (IH (enactRule t0 st) t Hin) as (st1 & Hlater & Hst1).
    { apply (entries_later st); [apply (later_perform st (Enact t0))|done]. }
    exists st1. split; [|done]. etrans; [apply (later_perform st (Enact t0))|done].
Qed.


(** ** What a turn of the drain loop enacts *)

Lemma drainFrom_enacts fuel : ∀ i st st',
  drainFrom fuel i st = Some st' →
  ∀ j e t, (i ≤ j)%nat → worklist st !! j = Some e → t ∈ rulesOf st e →
           is_Some (entries st !! trhs t) →
  ∃ st1, later st st1 ∧ evaluate st1 (tlhs t) ⊆ dataOf st' (trhs t).
Proof.
  induction fuel as [|fuel IH]; intros i st st' H j e t Hij Hj Ht Hrhs; simpl in H.
  - destruct (worklist st !! i) eqn:Hi; [done|].
    apply lookup_ge_None in Hi. apply lookup_lt_Some in Hj. lia.
  - destruct (worklist st !! i) as [e'|] eqn:Hi.
    + pose proof (later_enactRules (rulesOf st e') st) as Hst2.
      pose proof (later_drainFrom _ _ _ _ H) as (_ & Hdata & _).
      destruct (decide (i = j)) as [->|Hne].
      * assert (e' = e) as -> by congruence.
        destruct (enactRules_enacts (rulesOf st e) st t Ht Hrhs) as (st1 & Hst1 & Hev).
        exists st1. split; [done|]. by trans (dataOf (enactRules (rulesOf st e) st) (trhs t)).
      * destruct (IH _ _ _ H j e t) as (st1 & Hst1 & Hev).
        -- lia.
        -- destruct Hst2 as (_ & _ & _ & Hwl). by apply (prefix_lookup_Some _ _ _ _ Hj).
        -- by rewrite rulesOf_enactRules.
        -- by apply (entries_later st).
        -- exists st1. split; [by trans (enactRules (rulesOf st e') st)|done].
    + apply lookup_ge_None in Hi. apply lookup_lt_Some in Hj. lia.
Qed.

(** ** What a definition leaves in the store *)

Lemma allocatedRules_getOrCreateEntry category key st :
  allocatedRules st → allocatedRules (getOrCreateEntry category key st).2.
Proof.
  intros Hst e t. rewrite rulesOf_getOrCreateEntry.
  destruct (getOrCreateEntry_spec category key st) as (_ & _ & -> & _). apply Hst.
Qed.

Lemma allocatedRules_getEntryFromReference ix ref st r :
  getEntryFromReference ix ref st = OK r → allocatedRules st → allocatedRules r.2.
Proof.
  unfold getEntryFromReference. intros H Hst.
  destruct (referenceKey ix ref) as [ck|err]; simpl in H; [|done].
  injection H as <-. by apply allocatedRules_getOrCreateEntry.
Qed.

Lemma allocatedRules_getEntriesFromReferences ix refs : ∀ st r,
  getEntriesFromReferences ix refs st = OK r → allocatedRules st → allocatedRules r.2.
Proof.
  induction refs as [|ref refs IH]; intros st r H Hst; simpl in H.
  - by injection H as <-.
  - destruct (getEntryFromReference ix ref st) as [r1|err] eqn:H1; simpl in H; [|done].
    destruct (getEntriesFromReferences ix refs r1.2) as [rs|err] eqn:Hrs; simpl in H;
      [|done].
    injection H as <-. simpl. eapply IH; [done|].
    by eapply allocatedRules_getEntryFromReference.
Qed.

(** Registering a new rule with entries of the store puts it among the rules
    of each, and leaves the uids in the store allocated. *)
Lemma registerRules_registered g rhs deps st :
  allocatedRules st →
  let t := (newRule g rhs st).1 in
  let st' := foldl (registerRule t) (newRule g rhs st).2 deps in
  allocatedRules st' ∧
  ∀ d, d ∈ deps → is_Some (entries st !! d) → t ∈ rulesOf st' d.
Proof.
  intros Hst t st'.
  assert (∀ deps st1,
    allocated st1 = S (allocated st) →
    (∀ e t', t' ∈ rulesOf st1 e → t' = t ∨ (uid t' < allocated st)%nat) →
    let st2 := foldl (registerRule t) st1 deps in
    allocated st2 = S (allocated st) ∧
    (∀ e t', t' ∈ rulesOf st2 e → t' = t ∨ (uid t' < allocated st)%nat) ∧
    later st1 st2 ∧
    ∀ d, d ∈ deps → is_Some (entries st1 !! d) → t ∈ rulesOf st2 d) as Hfold.
  { clear deps st'. induction deps as [|dep deps IH]; intros st1 Hal Hold; simpl.
    - split; [done|]. split; [done|]. split; [done|]. by intros d ?%elem_of_nil.
    - destruct (IH (registerRule t st1 dep)) as (Hal' & Hold' & Hlater & Hreg).
      + done.
      + intros e t' [Ht'|(-> & _)]%rulesOf_registerRule; [by apply (Hold e)|by left].
      + pose proof (later_perform st1 (Register t dep)) as Hstep.
        split; [done|]. split; [done|]. split; [by etrans|].
        intros d Hd Hsome. destruct Hlater as (_ & _ & Hrules & _).
        destruct (decide (d = dep)) as [->|Hne].
        * apply Hrules, rulesOf_registerRule.
          destruct (decide (uid t ∈ uid <$> rulesOf st1 dep)) as [Hin|Hnotin]; [|by auto].
          left. apply list_elem_of_fmap in Hin as (t' & Huid & Hin).
          destruct (Hold _ _ Hin) as [->|Hlt]; [done|].
          rewrite <-Huid in Hlt. simpl in Hlt. lia.
        * apply elem_of_cons in Hd as [?|Hd]; [done|]. apply Hreg; [done|].
          by apply (entries_later st1). }
  destruct (Hfold deps (newRule g rhs st).2) as (Hal & Hold & _ & Hreg).
  - done.
  - intros e t' Ht'. right. by apply (Hst e).
  - split; [|done]. intros e t' Ht'. fold st' in Hal, Hold. rewrite Hal.
    destruct (Hold _ _ Ht') as [->|Hlt]; [simpl|]; lia.
Qed.

Lemma allocatedRules_enactRule t st : allocatedRules st → allocatedRules (enactRule t st).
Proof.
  intros Hst e t'. rewrite rulesOf_enactRule.
  destruct (enactRule_spec t st) as (_ & _ & _ & -> & _). apply Hst.
Qed.

Lemma enacted_enactRule t st :
  is_Some (entries st !! trhs t) → enacted (enactRule t st) t.
Proof.
  intros Hrhs. exists st. split; [|by apply enactRule_complete].
  apply (later_perform st (Enact t)).
Qed.

Lemma defineRule_translates ix rule st st' :
  defineRule ix rule st = OK st' → allocatedRules st →
  allocatedRules st' ∧ ∃ t, translates ix st' rule t ∧ enacted st' t.
Proof.
  unfold defineRule. intros H Hst.
  destruct (getEntryFromReference ix (rhs rule) st) as [r|err] eqn:Hr; simpl in H; [|done].
  pose proof (allocatedRules_getEntryFromReference _ _ _ _ Hr Hst) as Hal.
  apply (getEntryFromReference_spec anything) in Hr as (idr & Hidr & Hir & _).
  destruct (lhs rule) as [c|ref|dynamic dependencies] eqn:Hlhs.
  - injection H as <-.
    destruct (registerRules_registered (Values [c]) r.1 [] r.2 Hal) as [Hal' _].
    simpl in Hal'. set (t := (newRule (Values [c]) r.1 r.2).1) in *.
    assert (is_Some (entries (newRule (Values [c]) r.1 r.2).2 !! trhs t)) as Hrhs.
    { apply idOf_Some in Hir as [en Hen]. by eexists. }
    split; [by apply allocatedRules_enactRule|]. exists t. split; [|by apply enacted_enactRule].
    split; [|by rewrite Hlhs]. exists idr. split; [done|]. by rewrite idOf_enactRule.
  - destruct (getEntryFromReference ix ref r.2) as [l|err] eqn:Hl; simpl in H; [|done].
    injection H as <-.
    pose proof (allocatedRules_getEntryFromReference _ _ _ _ Hl Hal) as Hal2.
    apply (getEntryFromReference_spec anything) in Hl as (idl & Hidl & Hil & Hext & _).
    destruct (registerRules_registered (Data l.1) r.1 [l.1] l.2 Hal2) as [Hal' Hreg].
    simpl in Hal', Hreg. set (t := (newRule (Data l.1) r.1 l.2).1) in *.
    assert (is_Some (entries (registerRule t (newRule (Data l.1) r.1 l.2).2 l.1) !! trhs t))
      as Hrhs.
    { apply (entries_later l.2).
      - etrans; [apply (later_perform _ Allocate)|apply (later_perform _ (Register t l.1))].
      - apply Hext, idOf_Some in Hir as [en Hen]. by eexists. }
    split; [by apply allocatedRules_enactRule|]. exists t. split; [|by apply enacted_enactRule].
    split.
    + exists idr. split; [done|]. rewrite idOf_enactRule.
      apply extends_registerRule. by apply Hext.
    + rewrite Hlhs. exists l.1, idl. split; [done|]. split; [done|]. split.
      * rewrite idOf_enactRule. by apply extends_registerRule.
      * rewrite rulesOf_enactRule. apply Hreg; [by left|].
        apply idOf_Some in Hil as [en Hen]. by eexists.
  - destruct (getEntriesFromReferences ix dependencies r.2) as [ds|err] eqn:Hds; simpl in H;
      [|done].
    injection H as <-.
    pose proof (allocatedRules_getEntriesFromReferences _ _ _ _ Hds Hal) as Hal2.
    apply (getEntriesFromReferences_spec anything) in Hds
      as (idl & Hidl & Hil & Hext & _).
    destruct (registerRules_registered (Computed dynamic ds.1) r.1 ds.1 ds.2 Hal2)
      as [Hal' Hreg].
    simpl in Hal', Hreg. set (t := (newRule (Computed dynamic ds.1) r.1 ds.2).1) in *.
    set (st1 := foldl (registerRule t) (newRule (Computed dynamic ds.1) r.1 ds.2).2 ds.1)
      in *.
    assert (later ds.2 st1) as Hlater.
    { unfold st1. rewrite registerRules_actions.
      etrans; [apply (later_perform _ Allocate)|apply later_performAll]. }
    assert (is_Some (entries st1 !! trhs t)) as Hrhs.
    { apply (entries_later ds.2); [done|].
      apply Hext, idOf_Some in Hir as [en Hen]. by eexists. }
    split; [by apply allocatedRules_enactRule|]. exists t. split; [|by apply enacted_enactRule].
    destruct Hlater as (Hext1 & _).
    split.
    + exists idr. split; [done|]. rewrite idOf_enactRule. by apply Hext1, Hext.
    + rewrite Hlhs. exists ds.1, idl. split; [done|]. split; [done|]. split.
      * eapply Forall2_impl; [done|]. intros d id Hd. rewrite idOf_enactRule. by apply Hext1.
      * apply Forall_forall. intros d Hd. rewrite rulesOf_enactRule. apply Hreg; [done|].
        destruct (proj1 (list_elem_of_lookup _ _) Hd) as [n Hn].
        destruct (Forall2_lookup_l _ _ _ _ _ Hil Hn) as (id & _ & Hid).
        apply idOf_Some in Hid as [en Hen]. by eexists.
Qed.

Lemma defineRules_translates ix rules : ∀ st st',
  defineRules ix rules st = OK st' → allocatedRules st →
  allocatedRules st' ∧
  ∀ rule, rule ∈ rules → ∃ t, translates ix st' rule t ∧ enacted st' t.
Proof.
  induction rules as [|rule rules IH]; intros st st' H Hst; simpl in H.
  - injection H as <-. split; [done|]. by intros rule ?%elem_of_nil.
  - destruct (defineRule ix rule st) as [st1|err] eqn:H1; simpl in H; [|done].
    destruct (defineRule_translates _ _ _ _ H1 Hst) as (Hst1 & t & Ht & Hen).
    destruct (IH _ _ H Hst1) as [Hst' Hrules]. split; [done|].
    intros rule' [->|Hin]%elem_of_cons; [|by apply Hrules].
    pose proof (later_defineRules _ _ _ _ H) as Hlater.
    exists t. split; [by eapply translates_later|by eapply enacted_later].
Qed.

(** ** One round of propagation *)

(** What a rule yields from the data the definitions left is, after the loop,
    data of its right-hand side. *)
Lemma drain_applies ix st0 st rule t fuel :
  translates ix st0 rule t → enacted st0 t → changedQueued st0 →
  drainFrom fuel 0 st0 = Some st → monotoneRule rule →
  evaluate st0 (tlhs t) ⊆ dataOf st (trhs t).
Proof.
  intros [(idr & _ & Hir) Hl] (stdef & Hdef & Hev) Hq Hdrain Hmono.
  pose proof (later_drainFrom _ _ _ _ Hdrain) as (_ & Hdata & _).
  assert (is_Some (entries st0 !! trhs t)) as Hrhs.
  { apply idOf_Some in Hir as [en Hen]. by eexists. }
  assert (∀ d, t ∈ rulesOf st0 d → dataOf st0 d ≠ [] →
          ∃ st1, later st0 st1 ∧ evaluate st1 (tlhs t) ⊆ dataOf st (trhs t)) as Hvisit.
  { intros d Ht Hd. apply Hq, list_elem_of_lookup in Hd as [j Hj].
    apply (drainFrom_enacts _ _ _ _ Hdrain j d t); [lia|done..]. }
  unfold monotoneRule in Hmono.
  destruct (lhs rule) as [c|ref|dynamic dependencies].
  - rewrite Hl in *. simpl in *. by trans (dataOf st0 (trhs t)).
  - destruct Hl as (l & idl & Htl & _ & _ & Hin). rewrite Htl in *. simpl in *.
    destruct (decide (dataOf st0 l = [])) as [->|Hne]; [by intros v ?%elem_of_nil|].
    destruct (Hvisit l Hin Hne) as (st1 & (_ & Hst1 & _) & Hst).
    by trans (dataOf st1 l).
  - destruct Hl as (ds & idl & Htl & _ & _ & Hin). rewrite Htl in *. simpl in *.
    destruct (decide (Forall (λ d, dataOf st0 d = []) ds)) as [Hall|Hex].
    + assert (dataOf stdef <$> ds = dataOf st0 <$> ds) as Heq.
      { apply list_fmap_ext. intros n d Hd.
        rewrite Forall_forall in Hall. rewrite (Hall d) by by eapply list_elem_of_lookup_2.
        specialize (Hdef d). rewrite (Hall d) in Hdef by by eapply list_elem_of_lookup_2.
        destruct (dataOf stdef d) as [|v vs]; [done|].
        exfalso. apply (elem_of_nil v), Hdef. by left. }
      rewrite <-Heq. by trans (dataOf st0 (trhs t)).
    + apply not_Forall_Exists in Hex; [|apply _].
      apply Exists_exists in Hex as (d & Hd & Hne). simpl in Hne.
      rewrite Forall_forall in Hin.
      destruct (Hvisit d (Hin d Hd) Hne) as (st1 & (_ & Hst1 & _) & Hst).
      trans (dynamic (dataOf st1 <$> ds)); [|done].
      apply Hmono. apply Forall2_fmap, Forall_Forall2_diag, Forall_forall.
      intros d' _. apply Hst1.
Qed.

Lemma map_get_elem_of {K V} `{EqDecision K} (k : K) (v : V) l :
  NoDup l.*1 → (k, v) ∈ l → map_get k l = Some v.
Proof.
  induction l as [|[k' v'] l IH]; simpl; intros Hnd Hin.
  - by apply elem_of_nil in Hin.
  - apply NoDup_cons in Hnd as [Hnotin Hnd].
    apply elem_of_cons in Hin as [[= <- <-]|Hin].
    + by rewrite decide_True.
    + rewrite decide_False; [by apply IH|]. intros ->. apply Hnotin.
      apply list_elem_of_fmap. by exists (k', v).
Qed.

(** The values the result lists under the id of an entry are its data. *)
Lemma valuesOf_analysis ρ localeCompare st e id :
  invariant ρ st → idOf st e = Some id → valuesOf (analysis localeCompare st) id = dataOf st e.
Proof.
  intros Hinv [en Hen]%idOf_Some. unfold valuesOf.
  rewrite (map_get_elem_of id (data en)).
  - by rewrite (dataOf_lookup _ _ _ _ Hen).
  - by apply (analysis_NoDup ρ).
  - apply (elem_of_analysis ρ); [done|]. exists en. split; [|done].
    by eapply list_elem_of_lookup_2.
Qed.

Lemma Forall2_idOf_inj st ds : ∀ ids ids',
  Forall2 (λ d id, idOf st d = Some id) ds ids →
  Forall2 (λ d id, idOf st d = Some id) ds ids' → ids = ids'.
Proof.
  induction ds as [|d ds IH]; intros ids ids' H H'.
  - apply Forall2_nil_inv_l in H, H'. by subst.
  - apply Forall2_cons_inv_l in H as (id & ids1 & Hid & H & ->).
    apply Forall2_cons_inv_l in H' as (id' & ids1' & Hid' & H' & ->).
    f_equal; [congruence|by apply IH].
Qed.

Lemma Forall2_referenceId_inj ix refs : ∀ ids ids',
  Forall2 (λ ref id, referenceId ix ref = OK id) refs ids →
  Forall2 (λ ref id, referenceId ix ref = OK id) refs ids' → ids = ids'.
Proof.
  induction refs as [|d ds IH]; intros ids ids' H H'.
  - apply Forall2_nil_inv_l in H, H'. by subst.
  - apply Forall2_cons_inv_l in H as (id & ids1 & Hid & H & ->).
    apply Forall2_cons_inv_l in H' as (id' & ids1' & Hid' & H' & ->).
    f_equal; [congruence|by apply IH].
Qed.

(** The rules of a solve, in the store the definitions leave and in the store
    the loop leaves. *)
Lemma solve_applies localeCompare ast rules an :
  solve localeCompare ast rules = OK an →
  ∃ ix st0 st,
    collectExpressions ast ∅ emptyIndex = OK ix ∧
    defineRules ix rules initialState = OK st0 ∧
    drain st0 = Some st ∧
    an = analysis localeCompare st ∧
    invariant anything st0 ∧ invariant anything st ∧ extends st0 st ∧
    ∀ rule, rule ∈ rules → monotoneRule rule →
      ∃ t, translates ix st0 rule t ∧ enacted st0 t ∧
           evaluate st0 (tlhs t) ⊆ dataOf st (trhs t).
Proof.
  intros Hsolve.
  apply (solve_OK anything) in Hsolve as (ix & st0 & st & Hix & Hst0 & Hdrain & -> & _).
  exists ix, st0, st. split; [done|]. split; [done|]. split; [done|]. split; [done|].
  assert (invariant anything st0) as Hinv0.
  { apply (defineRules_spec anything) in Hst0 as (_ & Hinv & _). apply Hinv.
    - apply Forall_forall. intros rule _. apply models_anything.
    - apply invariant_initial. }
  destruct (drain_invariant anything st0 Hinv0) as (st' & Hdrain' & Hinv & Hext & _).
  assert (st' = st) as -> by congruence.
  split; [done|]. split; [done|]. split; [done|].
  intros rule Hrule Hmono.
  destruct (defineRules_translates _ _ _ _ Hst0) as [_ Ht].
  { by intros e t ?%elem_of_nil. }
  destruct (Ht rule Hrule) as (t & Htr & Hen). exists t. split; [done|]. split; [done|].
  apply (drain_applies ix st0 st rule t (length (entries st0))); try done.
  destruct (defineRules_actions _ _ _ _ Hst0) as (actions & ->).
  apply changedQueued_performAll. by intros e He.
Qed.


Lemma idOf_inj ρ st e e' id :
  invariant ρ st → idOf st e = Some id → idOf st e' = Some id → e = e'.
Proof.
  intros Hinv He He'. eapply NoDup_lookup; [apply (inv_ids _ _ Hinv)|..];
    unfold ids; rewrite list_lookup_fmap; [apply He|apply He'].
Qed.

Lemma valuesOf_analysis_all ρ localeCompare st ds : ∀ ids,
  invariant ρ st → Forall2 (λ d id, idOf st d = Some id) ds ids →
  valuesOf (analysis localeCompare st) <$> ids = dataOf st <$> ds.
Proof.
  induction ds as [|d ds IH]; intros ids Hinv H.
  - apply Forall2_nil_inv_l in H. by subst.
  - apply Forall2_cons_inv_l in H as (id & ids1 & Hid & H & ->). simpl.
    by rewrite (valuesOf_analysis ρ _ _ d), IH.
Qed.

(** X7.  One round of propagation.  Whatever the order of the definitions,
    what a rule yields from the sets as the rule code left them is in the
    result: its constant, the values its left-hand side had then, or what its
    callback, if monotone, yields from the values its dependencies had
    then. *)
Theorem rules_applied_to_defined_data localeCompare ast rules an :
  solve localeCompare ast rules = OK an →
  ∃ ix st0,
    collectExpressions ast ∅ emptyIndex = OK ix ∧
    defineRules ix rules initialState = OK st0 ∧
    ∀ rule, rule ∈ rules → monotoneRule rule →
            propagated ix (analysis localeCompare st0) an rule.
Proof.
  intros (ix & st0 & st & Hix & Hst0 & _ & -> & Hinv0 & Hinv & Hext & Hrules)%solve_applies.
  exists ix, st0. split; [done|]. split; [done|]. intros rule Hrule Hmono.
  destruct (Hrules rule Hrule Hmono) as (t & [(idr & Hidr & Hir) Hl] & _ & Ht).
  intros idr' Hidr'. assert (idr' = idr) as -> by congruence.
  rewrite (valuesOf_analysis anything _ st (trhs t)) by auto.
  destruct (lhs rule) as [c|ref|dynamic dependencies].
  - rewrite Hl in Ht. apply Ht. by left.
  - destruct Hl as (l & idl & Htl & Hidl & Hil & _). rewrite Htl in Ht.
    intros idl' Hidl'. assert (idl' = idl) as -> by congruence.
    by rewrite (valuesOf_analysis anything _ st0 l).
  - destruct Hl as (ds & idl & Htl & Hidl & Hil & _). rewrite Htl in Ht.
    intros idl' Hidl'. rewrite (Forall2_referenceId_inj _ _ _ _ Hidl' Hidl).
    by rewrite (valuesOf_analysis_all anything _ st0 ds).
Qed.

Lemma rules_applied_to_defined_data_witness :
  ∃ ix st0,
    collectExpressions sum ∅ emptyIndex = OK ix ∧
    defineRules ix chainRules initialState = OK st0 ∧
    ∀ rule, rule ∈ chainRules → monotoneRule rule →
            propagated ix (analysis codeUnitCompare st0)
              [("C(1)", [Str "a"; Str "b"]); ("C(2)", [Str "b"]); ("C(3)", [Str "a"])] rule.
Proof.
  apply (rules_applied_to_defined_data codeUnitCompare sum chainRules).
  vm_compute. reflexivity.
Defined.

(** X8.  A constant crosses one rule in any order of the definitions: when
    the rules give a constant to a reference and the values of that reference
    to a target, the result lists the constant under the target. *)
Theorem constant_reaches_next_entry localeCompare ast rules an c source target :
  solve localeCompare ast rules = OK an →
  {| lhs := Constant c; rhs := source |} ∈ rules →
  {| lhs := Ref source; rhs := target |} ∈ rules →
  ∃ ix id,
    collectExpressions ast ∅ emptyIndex = OK ix ∧
    referenceId ix target = OK id ∧
    c ∈ valuesOf an id.
Proof.
  intros (ix & st0 & st & Hix & Hst0 & _ & -> & Hinv0 & Hinv & Hext & Hrules)%solve_applies
    Hseed Hflow.
  destruct (Hrules _ Hseed I) as (ts & [(ids & Hids & His) Hls] & (st1 & Hst1 & Hen) & _).
  destruct (Hrules _ Hflow I) as (tf & [(idt & Hidt & Hit) Hlf] & _ & Htf).
  simpl in *. destruct Hlf as (l & idl & Htl & Hidl & Hil & _).
  exists ix, idt. split; [done|]. split; [done|].
  rewrite (valuesOf_analysis anything _ st (trhs tf)) by auto.
  apply Htf. rewrite Htl. simpl.
  assert (idl = ids) as -> by congruence.
  rewrite (idOf_inj anything st0 l (trhs ts) ids) by done.
  apply Hen. rewrite Hls. by left.
Qed.

Lemma constant_reaches_next_entry_witness :
  ∃ ix id,
    collectExpressions sum ∅ emptyIndex = OK ix ∧
    referenceId ix (ExpressionReference sum) = OK id ∧
    Str "b" ∈ valuesOf
      [("C(1)", [Str "a"; Str "b"]); ("C(2)", [Str "b"]); ("C(3)", [Str "a"])] id.
Proof.
  apply (constant_reaches_next_entry codeUnitCompare sum chainRules _ (Str "b")
           (ExpressionReference (NumericConstantExpression 2 1)) (ExpressionReference sum)).
  - vm_compute. reflexivity.
  - unfold chainRules. do 3 apply list_elem_of_further. apply list_elem_of_here.
  - unfold chainRules. apply list_elem_of_further. apply list_elem_of_here.
Defined.


(** * Properties of the parser worker *)

Lemma subexpressions_program e : subexpressions (program e) = program <$> Parser.nodes e.
Proof.
  induction e as [l i n|l i b|l i x|l i op e1 IHe1 e2 IHe2|l i e1 IHe1 e2 IHe2 e3 IHe3
                 |l i x e IHe|l i f x e IHe|l i e1 IHe1 e2 IHe2|l i x e1 IHe1 e2 IHe2];
    simpl; rewrite ?fmap_app, ?IHe, ?IHe1, ?IHe2, ?IHe3; reflexivity.
Qed.

Lemma label_program e : label (program e) = Parser.label e.
Proof. by destruct e. Qed.

Lemma labels_program e : labels (program e) = Parser.label <$> Parser.nodes e.
Proof.
  unfold labels. rewrite subexpressions_program, <-list_fmap_compose.
  apply list_fmap_ext. intros _ n _. apply label_program.
Qed.

Lemma postProcess_root e h :
  Parser.label (Parser.postProcess e h).1 = Z.of_nat (S (length h)) ∧
  Parser.index (Parser.postProcess e h).1 = Parser.index e.
Proof. rewrite Nat2Z.inj_succ. by destruct e. Qed.

Lemma postProcess_shape e : ∀ h l,
  Parser.labelled l (Parser.postProcess e h).1 = Parser.labelled l e.
Proof.
  induction e as [l i n|l i b|l i x|l i op e1 IHe1 e2 IHe2|l i e1 IHe1 e2 IHe2 e3 IHe3
                 |l i x e IHe|l i f x e IHe|l i e1 IHe1 e2 IHe2|l i x e1 IHe1 e2 IHe2];
    intros h l'; simpl; rewrite ?IHe, ?IHe1, ?IHe2, ?IHe3; reflexivity.
Qed.

Lemma nodes_labelled l e :
  length (Parser.nodes (Parser.labelled l e)) = length (Parser.nodes e).
Proof.
  induction e as [l0 i n|l0 i b|l0 i x|l0 i op e1 IHe1 e2 IHe2|l0 i e1 IHe1 e2 IHe2 e3 IHe3
                 |l0 i x e IHe|l0 i f x e IHe|l0 i e1 IHe1 e2 IHe2|l0 i x e1 IHe1 e2 IHe2];
    simpl; rewrite ?length_app; congruence.
Qed.

Lemma postProcess_size e h :
  length (Parser.nodes (Parser.postProcess e h).1) = length (Parser.nodes e).
Proof. by rewrite <-(nodes_labelled 0), postProcess_shape, nodes_labelled. Qed.

(** The hints pushed for a tree are those of its nodes, in the order of the
    traversal. *)
Lemma postProcess_hints e : ∀ h,
  (Parser.postProcess e h).2 =
    h ++ ((λ n, Parser.inlayHint (Parser.label n) n) <$> Parser.nodes (Parser.postProcess e h).1).
Proof.
  induction e as [l i n|l i b|l i x|l i op e1 IHe1 e2 IHe2|l i e1 IHe1 e2 IHe2 e3 IHe3
                 |l i x e IHe|l i f x e IHe|l i e1 IHe1 e2 IHe2|l i x e1 IHe1 e2 IHe2];
    intros h; simpl; rewrite ?fmap_app.
  - done.
  - done.
  - done.
  - rewrite IHe2, IHe1 at 1. by rewrite <-!(assoc_L (++)).
  - rewrite IHe3, IHe2, IHe1 at 1. by rewrite <-!(assoc_L (++)).
  - rewrite IHe at 1. by rewrite <-!(assoc_L (++)).
  - rewrite IHe at 1. by rewrite <-!(assoc_L (++)).
  - rewrite IHe2, IHe1 at 1. by rewrite <-!(assoc_L (++)).
  - rewrite IHe2, IHe1 at 1. by rewrite <-!(assoc_L (++)).
Qed.

Lemma postProcess_length e h :
  length (Parser.postProcess e h).2 = (length h + length (Parser.nodes e))%nat.
Proof. by rewrite postProcess_hints, length_app, length_fmap, postProcess_size. Qed.

(** The labels given to a tree count up from the number of hints there are,
    in the order of the traversal. *)
Lemma postProcess_labels e : ∀ h,
  Parser.label <$> Parser.nodes (Parser.postProcess e h).1 =
    Z.of_nat <$> seq (S (length h)) (length (Parser.nodes e)).
Proof.
  induction e as [l i n|l i b|l i x|l i op e1 IHe1 e2 IHe2|l i e1 IHe1 e2 IHe2 e3 IHe3
                 |l i x e IHe|l i f x e IHe|l i e1 IHe1 e2 IHe2|l i x e1 IHe1 e2 IHe2];
    intros h; cbn [Parser.postProcess Parser.nodes fst snd fmap list_fmap length seq
                   Parser.label];
    rewrite <-?Nat2Z.inj_succ; f_equal;
    rewrite ?fmap_app, ?length_app, ?seq_app, ?fmap_app, ?IHe, ?IHe1, ?IHe2, ?IHe3,
      ?postProcess_length, ?length_app; simpl;
    repeat (f_equal; try lia).
Qed.

Lemma postProcess_labelled l e : ∀ h,
  Parser.postProcess (Parser.labelled l e) h = Parser.postProcess e h.
Proof.
  induction e as [l0 i n|l0 i b|l0 i x|l0 i op e1 IHe1 e2 IHe2|l0 i e1 IHe1 e2 IHe2 e3 IHe3
                 |l0 i x e IHe|l0 i f x e IHe|l0 i e1 IHe1 e2 IHe2|l0 i x e1 IHe1 e2 IHe2];
    intros h; simpl; rewrite ?IHe, ?IHe1, ?IHe2, ?IHe3; reflexivity.
Qed.

(** X9.  The parser numbers the nodes 1, 2, 3, ... in the order of a
    pre-order traversal: the root has label 1, no two nodes share a label,
    the labels the grammar left are ignored and nothing but the labels is
    changed. *)
Theorem parser_numbers_nodes_in_order value :
  let expression := (Parser.success value).1 in
  labels (program expression)
    = Z.of_nat <$> seq 1 (length (subexpressions (program value))) ∧
  label (program expression) = 1 ∧
  NoDup (labels (program expression)) ∧
  (∀ l, Parser.labelled l expression = Parser.labelled l value) ∧
  ∀ l, Parser.success (Parser.labelled l value) = Parser.success value.
Proof.
  intros expression. unfold expression, Parser.success.
  assert (labels (program (Parser.postProcess value []).1)
          = Z.of_nat <$> seq 1 (length (subexpressions (program value)))) as Hlabels.
  { rewrite labels_program, postProcess_labels, subexpressions_program.
    by rewrite length_fmap. }
  split; [done|]. split.
  { rewrite label_program. by destruct (postProcess_root value []) as [-> _]. }
  split.
  { rewrite Hlabels. apply NoDup_fmap; [apply _|apply NoDup_seq]. }
  split; [intros l; apply postProcess_shape|].
  intros l. apply postProcess_labelled.
Qed.

(** X10.  There is one inlay hint for each node, in the order of the
    labels: the hint of the node with label k is the k-th, it shows k in
    decimal at the line and column of the node, and no two hints show the
    same text. *)
Theorem inlay_hints_show_labels value :
  let result := Parser.success value in
  length result.2 = length (Parser.nodes value) ∧
  NoDup (Parser.text <$> result.2) ∧
  ∀ (i : nat) n, Parser.nodes result.1 !! i = Some n →
    Parser.label n = Z.of_nat i + 1 ∧
    result.2 !! i =
      Some {| Parser.text := pretty (Z.of_nat i + 1);
              Parser.position :=
                {| Parser.lineNumber := Parser.line (Parser.index n);
                   Parser.positionColumn := Parser.column (Parser.index n) |};
              Parser.kind := 0 |}.
Proof.
  intros result. unfold result, Parser.success.
  pose proof (postProcess_hints value []) as Hhints. simpl in Hhints.
  pose proof (postProcess_labels value []) as Hlabels. simpl in Hlabels.
  split; [by rewrite postProcess_length|]. split.
  - rewrite Hhints, <-list_fmap_compose.
    change (NoDup ((pretty ∘ Parser.label) <$> Parser.nodes (Parser.postProcess value []).1)).
    rewrite list_fmap_compose, Hlabels.
    apply NoDup_fmap; [apply _|]. apply NoDup_fmap; [apply _|apply NoDup_seq].
  - intros i n Hn.
    assert (Parser.label n = Z.of_nat i + 1) as Hl.
    { assert ((Parser.label <$> Parser.nodes (Parser.postProcess value []).1) !! i
              = Some (Parser.label n)) as H by by rewrite list_lookup_fmap, Hn.
      rewrite Hlabels, list_lookup_fmap in H.
      destruct (seq 1 (length (Parser.nodes value)) !! i) as [k|] eqn:Hk; [|done].
      apply lookup_seq in Hk as [-> _]. injection H as <-. lia. }
    split; [done|]. rewrite Hhints, list_lookup_fmap, Hn. simpl.
    unfold Parser.inlayHint. by rewrite Hl.
Qed.

(** * The [label] function of the environment *)

Lemma collectExpressions_byLabel e : ∀ context ix ix',
  collectExpressions e context ix = OK ix' →
  expressionByLabel ix' =
    foldl (λ m n, <[label n := n]> m) (expressionByLabel ix) (subexpressions e).
Proof.
  induction e as [l n|l b|l x|l op e1 IHe1 e2 IHe2|l e1 IHe1 e2 IHe2 e3 IHe3|l x e IHe
                 |l f x e IHe|l e1 IHe1 e2 IHe2|l x e1 IHe1 e2 IHe2];
    intros context ix ix' H; simpl in H; invert_bind;
    cbn [subexpressions foldl]; rewrite ?foldl_app.
  - by subst.
  - by subst.
  - destruct (context_get _ _); simpl in H; [|done]. by injection H as <-.
  - by erewrite IHe2, IHe1 by done.
  - by erewrite IHe3, IHe2, IHe1 by done.
  - by erewrite IHe by done.
  - destruct (decide (f = x)); [done|]. by erewrite IHe by done.
  - by erewrite IHe2, IHe1 by done.
  - by erewrite IHe2, IHe1 by done.
Qed.

Lemma foldl_insert_last (l : list Expression) : ∀ (m : gmap Z Expression) k,
  foldl (λ m n, <[label n := n]> m) m l !! k =
    match last (filter (λ n, label n = k) l) with
    | Some n => Some n
    | None => m !! k
    end.
Proof.
  induction l as [|n l IH]; intros m k; simpl; [done|].
  rewrite IH, filter_cons. destruct (decide (label n = k)) as [<-|Hne].
  - rewrite last_cons. destruct (last _); [done|]. by rewrite lookup_insert_eq.
  - destruct (last _); [done|]. by rewrite lookup_insert_ne.
Qed.

Lemma getExpressionByLabel_last ast ix k :
  collectExpressions ast ∅ emptyIndex = OK ix →
  getExpressionByLabel ix k =
    match lastLabelled ast k with
    | Some n => OK n
    | None => Throw (UnknownLabel k)
    end.
Proof.
  intros H. unfold getExpressionByLabel, lastLabelled.
  rewrite (collectExpressions_byLabel _ _ _ _ H), foldl_insert_last. simpl.
  destruct (last _); [done|]. by rewrite lookup_empty.
Qed.

Lemma last_filter_unique {A} (P : A → Prop) `{∀ x, Decision (P x)} (l : list A) :
  ∀ i x, l !! i = Some x → P x → (∀ j y, l !! j = Some y → P y → j = i) →
  last (filter P l) = Some x.
Proof.
  induction l as [|a l IH]; intros i x Hi Hx Huniq; [done|].
  rewrite filter_cons. destruct i as [|i]; simpl in Hi.
  - injection Hi as ->. rewrite decide_True by done. rewrite last_cons.
    destruct (last (filter P l)) as [y|] eqn:Hlast; [|done].
    apply last_Some_elem_of, list_elem_of_filter in Hlast as [Hy Hin].
    apply list_elem_of_lookup in Hin as [j Hj]. by specialize (Huniq (S j) y Hj Hy).
  - assert (last (filter P l) = Some x) as Hlast.
    { apply (IH i); [done..|]. intros j y Hj Hy.
      specialize (Huniq (S j) y Hj Hy). by injection Huniq. }
    destruct (decide (P a)); [|done]. by rewrite last_cons, Hlast.
Qed.

(** X11.  After a traversal that returned, [label(k)] returns the node of
    the tree that has label k, the last one the traversal met if several do,
    and throws exactly when no node has that label.  In a tree with distinct
    labels, [label(e.label)] is [e] for every node [e]. *)
Theorem getExpressionByLabel_outcome ast ix :
  collectExpressions ast ∅ emptyIndex = OK ix →
  (∀ k, match getExpressionByLabel ix k with
        | OK n => lastLabelled ast k = Some n ∧ n ∈ subexpressions ast ∧ label n = k
        | Throw err => err = UnknownLabel k ∧ k ∉ labels ast
        end) ∧
  (NoDup (labels ast) →
   ∀ n, n ∈ subexpressions ast → getExpressionByLabel ix (label n) = OK n).
Proof.
  intros H. split.
  - intros k. rewrite (getExpressionByLabel_last _ _ _ H). unfold lastLabelled.
    destruct (last _) as [n|] eqn:Hlast.
    + split; [done|]. by apply last_Some_elem_of, list_elem_of_filter in Hlast as [? ?].
    + split; [done|]. apply last_None in Hlast.
      intros (n & Hn & Hin)%list_elem_of_fmap.
      assert (n ∈ filter (λ n, label n = k) (subexpressions ast)) as Hf
        by by apply list_elem_of_filter.
      rewrite Hlast in Hf. by apply elem_of_nil in Hf.
  - intros Hnd n Hn. rewrite (getExpressionByLabel_last _ _ _ H). unfold lastLabelled.
    apply list_elem_of_lookup in Hn as [i Hi].
    rewrite (last_filter_unique _ _ i n); [done..|].
    intros j y Hj Hy. apply (NoDup_lookup _ _ _ (label n) Hnd).
    + unfold labels. by rewrite list_lookup_fmap, Hj, <-Hy.
    + unfold labels. by rewrite list_lookup_fmap, Hi.
Qed.

Lemma getExpressionByLabel_outcome_witness :
  ∃ ix,
    collectExpressions recursiveCall ∅ emptyIndex = OK ix ∧
    (∀ k, match getExpressionByLabel ix k with
          | OK n => lastLabelled recursiveCall k = Some n ∧
                    n ∈ subexpressions recursiveCall ∧ label n = k
          | Throw err => err = UnknownLabel k ∧ k ∉ labels recursiveCall
          end) ∧
    (NoDup (labels recursiveCall) →
     ∀ n, n ∈ subexpressions recursiveCall → getExpressionByLabel ix (label n) = OK n).
Proof.
  destruct (collectExpressions recursiveCall ∅ emptyIndex) as [ix|err] eqn:H;
    [|discriminate H].
  exists ix. split; [reflexivity|]. exact (getExpressionByLabel_outcome recursiveCall ix H).
Defined.

(** X12.  For a program as the parser returns it, [label(k)] is the k-th
    node of the pre-order traversal, the node whose inlay hint shows k;
    [label(1)] is the whole program, and [label] throws for every number
    that is not between 1 and the number of nodes. *)
Theorem label_of_parsed_program value ix :
  let expression := program (Parser.success value).1 in
  collectExpressions expression ∅ emptyIndex = OK ix →
  getExpressionByLabel ix 1 = OK expression ∧
  (∀ (i : nat) n, subexpressions expression !! i = Some n →
                  getExpressionByLabel ix (Z.of_nat i + 1) = OK n) ∧
  (∀ k, ¬ (1 ≤ k ≤ Z.of_nat (length (Parser.nodes value))) →
        getExpressionByLabel ix k = Throw (UnknownLabel k)).
Proof.
  intros expression H.
  assert (labels expression = Z.of_nat <$> seq 1 (length (Parser.nodes value))) as Hlabels.
  { unfold expression, Parser.success. by rewrite labels_program, postProcess_labels. }
  assert (∀ (i : nat) n, subexpressions expression !! i = Some n →
            getExpressionByLabel ix (Z.of_nat i + 1) = OK n) as Hnth.
  { intros i n Hi. rewrite (getExpressionByLabel_last _ _ _ H). unfold lastLabelled.
    assert (∀ j y, subexpressions expression !! j = Some y → label y = Z.of_nat j + 1)
      as Hlabel.
    { intros j y Hj.
      assert (labels expression !! j = Some (label y)) as Hl
        by (unfold labels; by rewrite list_lookup_fmap, Hj).
      rewrite Hlabels, list_lookup_fmap in Hl.
      destruct (seq 1 (length (Parser.nodes value)) !! j) as [k|] eqn:Hk; [|done].
      apply lookup_seq in Hk as [-> _]. injection Hl as <-. lia. }
    rewrite (last_filter_unique _ _ i n); [done|done|by apply Hlabel|].
    intros j y Hj Hy. apply Hlabel in Hj. lia. }
  split; [|split; [done|]].
  - apply (Hnth 0%nat). by destruct expression.
  - intros k Hk. rewrite (getExpressionByLabel_last _ _ _ H). unfold lastLabelled.
    destruct (last _) as [n|] eqn:Hlast; [|done].
    apply last_Some_elem_of, list_elem_of_filter in Hlast as [Hl Hin].
    assert (k ∈ labels expression) as Hkin.
    { apply list_elem_of_fmap. by exists n. }
    rewrite Hlabels in Hkin. apply list_elem_of_fmap in Hkin as (j & -> & Hj).
    apply elem_of_seq in Hj. lia.
Qed.

Lemma label_of_parsed_program_witness :
  ∃ ix,
    collectExpressions (program (Parser.success identityValue).1) ∅ emptyIndex = OK ix ∧
    getExpressionByLabel ix 1 = OK identity ∧
    (∀ (i : nat) n, subexpressions identity !! i = Some n →
                    getExpressionByLabel ix (Z.of_nat i + 1) = OK n) ∧
    (∀ k, ¬ (1 ≤ k ≤ 2) → getExpressionByLabel ix k = Throw (UnknownLabel k)).
Proof.
  destruct (collectExpressions (program (Parser.success identityValue).1) ∅ emptyIndex)
    as [ix|err] eqn:H; [|discriminate H].
  exists ix. split; [reflexivity|]. exact (label_of_parsed_program identityValue ix H).
Defined.


(** * Properties of the runner worker *)

Lemma subexpressions_self e : e ∈ subexpressions e.
Proof. destruct e; simpl; left. Qed.

Lemma subexpressions_trans root : ∀ e n,
  e ∈ subexpressions root → n ∈ subexpressions e → n ∈ subexpressions root.
Proof.
  induction root as [l n|l b|l x|l op e1 IHe1 e2 IHe2|l e1 IHe1 e2 IHe2 e3 IHe3|l x e IHe
                    |l f x e IHe|l e1 IHe1 e2 IHe2|l x e1 IHe1 e2 IHe2];
    intros e' n' He Hn; cbn [subexpressions] in He;
    (apply elem_of_cons in He as [->|He]; [done|]);
    cbn [subexpressions]; apply list_elem_of_further;
    rewrite ?elem_of_app in He; rewrite ?elem_of_app;
    repeat match goal with
    | H : _ ∨ _ |- _ => destruct H as [H|H]
    | H : _ ∈ [] |- _ => by apply elem_of_nil in H
    end; eauto.
Qed.

Lemma size_subexpression root : ∀ e, e ∈ subexpressions root → (size e ≤ size root)%nat.
Proof.
  unfold size.
  induction root as [l n|l b|l x|l op e1 IHe1 e2 IHe2|l e1 IHe1 e2 IHe2 e3 IHe3|l x e IHe
                    |l f x e IHe|l e1 IHe1 e2 IHe2|l x e1 IHe1 e2 IHe2];
    intros e' He; cbn [subexpressions] in He |- *;
    apply elem_of_cons in He as [->|He]; try done;
    rewrite ?elem_of_app in He; cbn [length]; rewrite ?length_app;
    repeat match goal with
    | H : _ ∨ _ |- _ => destruct H as [H|H]
    | IH : ∀ e, e ∈ subexpressions ?a → _, H : _ ∈ subexpressions ?a |- _ =>
        apply IH in H
    | H : _ ∈ [] |- _ => by apply elem_of_nil in H
    end; lia.
Qed.

Lemma agrees_refl {host A} limited (o : Runner.Run host A) : agrees limited o o.
Proof. right. by right. Qed.

Lemma agrees_bind {host A B} limited (m m' : Runner.Run host A)
    (k k' : A → Runner.Run host B) :
  agrees limited m m' → (∀ a, agrees limited (k a) (k' a)) →
  agrees limited (m ≫= k) (m' ≫= k').
Proof.
  intros [->|[[Hl ->]| ->]] Hk.
  - by left.
  - right. by left.
  - destruct m' as [a|err|]; simpl; [apply Hk|apply agrees_refl|by left].
Qed.

Lemma ends_bind {host A B} (Q : A → Prop) (Q' : B → Prop) E (m : Runner.Run host A)
    (k : A → Runner.Run host B) :
  ends Q E m → (∀ a, Q a → ends Q' E (k a)) → ends Q' E (m ≫= k).
Proof. destruct m as [a|err|]; simpl; auto. Qed.

(** More fuel, or fewer calls around it, do not change what an evaluation
    that came to an end came to, unless that was the recursion limit and
    there are fewer calls. *)
Lemma evaluate_agrees host limited (fuel : nat) : ∀ (fuel' : nat) e context r r',
  (fuel ≤ fuel')%nat → (r' ≤ r)%nat → (limited = false → r' = r) →
  agrees limited (Runner.evaluate host fuel e context r)
                 (Runner.evaluate host fuel' e context r').
Proof.
  induction fuel as [|fuel IH]; intros fuel' e context r r' Hfuel Hr Hlim; [by left|].
  destruct fuel' as [|fuel']; [lia|].
  assert (∀ e context, agrees limited (Runner.evaluate host fuel e context r)
                                      (Runner.evaluate host fuel' e context r')) as IHsame.
  { intros e' context'. apply IH; [lia|done..]. }
  assert (∀ e context, agrees limited (Runner.evaluate host fuel e context (S r))
                                      (Runner.evaluate host fuel' e context (S r'))) as IHcall.
  { intros e' context'. apply IH; [lia..|]. intros H. by rewrite Hlim. }
  cbn [Runner.evaluate].
  destruct (decide (Runner.MAX_RECURSION < r)%nat) as [Hmax|Hmax].
  { destruct limited.
    - right. by left.
    - rewrite Hlim by done. rewrite decide_True by done. apply agrees_refl. }
  rewrite decide_False by lia.
  destruct e as [l n|l b|l x|l op e1 e2|l e1 e2 e3|l x e|l f x e|l e1 e2|l x e1 e2];
    try apply agrees_refl.
  - destruct op;
      repeat first
        [ apply agrees_refl
        | apply IHsame
        | apply agrees_bind; [|intros ?]
        | match goal with |- agrees _ (if ?b then _ else _) _ => destruct b end ].
  - apply agrees_bind; [apply agrees_bind; [apply IHsame|intros ?; apply agrees_refl]|].
    intros []; apply IHsame.
  - apply agrees_bind; [apply IHsame|]. intros a.
    apply agrees_bind; [apply IHsame|]. intros [n|b|[]|p]; try apply agrees_refl;
      apply IHcall.
  - apply agrees_bind; [apply IHsame|]. intros v. apply IHsame.
Qed.

(** ** Evaluation comes to an end *)

Lemma ends_asNumber host root sub (m : Runner.Run host (Runner.Value host)) :
  sub ∈ subexpressions root →
  ends (Runner.valueOf host root) (Runner.errorOf host root) m →
  ends (λ _, True) (Runner.errorOf host root) (m ≫= Runner.toNumber host sub).
Proof.
  intros Hsub. destruct m as [[]| |]; simpl; try done;
    intros Hv; (split; [done|]); (split; [done|]); left; by split.
Qed.

Lemma ends_asBoolean host root sub (m : Runner.Run host (Runner.Value host)) :
  sub ∈ subexpressions root →
  ends (Runner.valueOf host root) (Runner.errorOf host root) m →
  ends (λ _, True) (Runner.errorOf host root) (m ≫= Runner.toBoolean host sub).
Proof.
  intros Hsub. destruct m as [[]| |]; simpl; try done;
    intros Hv; (split; [done|]); (split; [done|]); right; left; by split.
Qed.

Lemma valueOf_insert host root (context : gmap string (Runner.Value host)) x v :
  (∀ y w, context !! y = Some w → Runner.valueOf host root w) →
  Runner.valueOf host root v →
  ∀ y w, <[x := v]> context !! y = Some w → Runner.valueOf host root w.
Proof.
  intros Hctx Hv y w [[-> ->]|[_ Hy]]%lookup_insert_Some; [done|by eapply Hctx].
Qed.

Lemma budget_step (r B : nat) :
  (r ≤ Runner.MAX_RECURSION)%nat →
  ((S Runner.MAX_RECURSION - r) * S B = S B + (S Runner.MAX_RECURSION - S r) * S B)%nat.
Proof.
  intros Hr. replace (S Runner.MAX_RECURSION - r)%nat
    with (S (S Runner.MAX_RECURSION - S r)) by lia.
  reflexivity.
Qed.

Ltac child He :=
  apply (subexpressions_trans _ _ _ He); cbn [subexpressions];
  apply list_elem_of_further; rewrite ?elem_of_app;
  eauto using subexpressions_self.

Ltac smaller :=
  unfold size; cbn [subexpressions length]; rewrite ?length_app; lia.

Lemma evaluate_ends host root (fuel : nat) : ∀ e context r,
  e ∈ subexpressions root →
  (∀ x v, context !! x = Some v → Runner.valueOf host root v) →
  (size e + (S Runner.MAX_RECURSION - r) * S (size root) < fuel)%nat →
  ends (Runner.valueOf host root) (Runner.errorOf host root)
       (Runner.evaluate host fuel e context r).
Proof.
  induction fuel as [|fuel IH]; intros e context r He Hctx Hfuel;
    [by apply Nat.nlt_0_r in Hfuel|].
  cbn [Runner.evaluate].
  destruct (decide (Runner.MAX_RECURSION < r)%nat) as [Hmax|Hmax]; [done|].
  rewrite budget_step in Hfuel by lia.
  set (budget := ((S Runner.MAX_RECURSION - S r) * S (size root))%nat) in *.
  assert (∀ e' context',
            e' ∈ subexpressions root →
            (∀ x v, context' !! x = Some v → Runner.valueOf host root v) →
            (size e' < size e)%nat →
            ends (Runner.valueOf host root) (Runner.errorOf host root)
                 (Runner.evaluate host fuel e' context' r))
    as Hsub.
  { intros e' context' He' Hctx' Hsize. apply IH; [done..|].
    rewrite budget_step by lia. fold budget. lia. }
  assert (∀ n body context',
            n ∈ subexpressions root → body ∈ subexpressions n → (size body < size n)%nat →
            (∀ x v, context' !! x = Some v → Runner.valueOf host root v) →
            ends (Runner.valueOf host root) (Runner.errorOf host root)
                 (Runner.evaluate host fuel body context' (S r)))
    as Hcall.
  { intros n body context' Hn Hbody Hsize Hctx'. apply IH.
    - by eapply subexpressions_trans.
    - done.
    - pose proof (size_subexpression _ _ Hn). fold budget. lia. }
  destruct e as [l n|l b|l x|l op e1 e2|l e1 e2 e3|l x e|l f x e|l e1 e2|l x e1 e2].
  - done.
  - done.
  - unfold Runner.context_get. destruct (context !! x) as [v|] eqn:Hx.
    + simpl. by eapply Hctx.
    + destruct (decide (x ∈ objectPrototype)); simpl; [|done]. split; [done|]. by exists l.
  - destruct op;
      repeat first
        [ exact I
        | apply (ends_bind (λ _, True));
            [first [apply (ends_asNumber host root)|apply (ends_asBoolean host root)];
               [child He|]
            |intros ? _]
        | apply (ends_bind (Runner.valueOf host root)); [|intros ? _]
        | match goal with |- ends _ _ (if ?b then _ else _) => destruct b end
        | apply Hsub; [child He|done|smaller] ].
  - apply (ends_bind (λ _, True)).
    + apply (ends_asBoolean host root); [child He|]. apply Hsub; [child He|done|smaller].
    + intros [] _; (apply Hsub; [child He|done|smaller]).
  - simpl. split; [done|by left].
  - simpl. split; [done|by right].
  - assert (e1 ∈ subexpressions root) as He1 by child He.
    apply (ends_bind (Runner.valueOf host root)); [apply Hsub; [child He|done|smaller]|].
    intros a Ha.
    apply (ends_bind (Runner.valueOf host root)); [apply Hsub; [done|done|smaller]|].
    intros [n|b|c|p] Hc.
    + simpl. split; [done|]. split; [done|]. right. right. left. split; [done|]. left. eauto.
    + simpl. split; [done|]. split; [done|]. right. right. left. split; [done|]. right. eauto.
    + destruct Hc as [Hc Hty].
      destruct c as [l' n|l' b|l' x|l' op c1 c2|l' c1 c2 c3|l' x body|l' f x body|l' c1 c2
                    |l' x c1 c2];
        try (by destruct Hty as [Hty|Hty]; simpl in Hty;
             try destruct b; try destruct op; discriminate Hty).
      * apply (Hcall (FnExpression l' x body)); [done| |smaller|].
        -- cbn [subexpressions]. apply list_elem_of_further, subexpressions_self.
        -- by apply valueOf_insert.
      * apply (Hcall (FunExpression l' f x body)); [done| |smaller|].
        -- cbn [subexpressions]. apply list_elem_of_further, subexpressions_self.
        -- apply valueOf_insert; [|done]. apply valueOf_insert; [done|].
           simpl. split; [done|by right].
    + simpl. split; [done|]. split; [done|]. right. right. right. split; [done|]. eauto.
  - apply (ends_bind (Runner.valueOf host root)); [apply Hsub; [child He|done|smaller]|].
    intros v Hv. apply Hsub; [child He| |smaller]. by apply valueOf_insert.
Qed.

(** X13.  The interpreter always comes to an end: every program, also one
    that calls itself for ever, either returns a value or throws, and a
    number of nested calls that only depends on the size of the program is
    enough for it.  What it comes to does not depend on how much more room
    there is. *)
Theorem evaluation_ends host program :
  ∃ outcome,
    outcome ≠ Runner.Unfinished ∧
    ∀ fuel : nat,
      (size program + S Runner.MAX_RECURSION * S (size program) < fuel)%nat →
      Runner.evaluate host fuel program ∅ 0 = outcome ∧
      Runner.run host fuel program ≠ Runner.Unfinished.
Proof.
  set (bound := (size program + S Runner.MAX_RECURSION * S (size program))%nat).
  pose proof (evaluate_ends host program (S bound) program ∅ 0) as Hends.
  exists (Runner.evaluate host (S bound) program ∅ 0).
  assert (Runner.evaluate host (S bound) program ∅ 0 ≠ Runner.Unfinished) as Hne.
  { intros Heq. rewrite Heq in Hends. apply Hends.
    - apply subexpressions_self.
    - intros x v Hx. unfold Runner.Context in Hx. by rewrite lookup_empty in Hx.
    - unfold bound. rewrite Nat.sub_0_r. lia. }
  split; [done|]. intros fuel Hfuel.
  destruct (evaluate_agrees host false (S bound) fuel program ∅ 0 0)%nat
    as [H|[[H _]|H]]; [lia|done|done|done|done|].
  unfold Runner.run. rewrite <-H. split; [done|].
  by destruct (Runner.evaluate host (S bound) program ∅ 0).
Qed.

Lemma evaluation_ends_witness :
  ∃ outcome,
    outcome ≠ Runner.Unfinished ∧
    Runner.evaluate Runner.integers 714 forever ∅ 0 = outcome ∧
    Runner.run Runner.integers 714 forever ≠ Runner.Unfinished.
Proof.
  destruct (evaluation_ends Runner.integers forever) as (outcome & Hne & H).
  exists outcome. split; [exact Hne|]. apply (H 714%nat). vm_compute. lia.
Defined.

(** X14.  A reference a program evaluates to is a reference to a [fn] or
    [fun] node of that program, so [reference to #k] names the label of such
    a node; the only other values are numbers, booleans and, for a variable
    named after one, a property of [Object.prototype]. *)
Theorem result_is_of_the_program host (fuel : nat) program value :
  Runner.evaluate host fuel program ∅ 0 = Runner.Return value →
  Runner.valueOf host program value ∧
  ∀ n, value = Runner.Reference n →
       Runner.run host fuel program
         = Runner.Return ("reference to #" +:+ pretty (label n)) ∧
       label n ∈ labels program.
Proof.
  intros H.
  set (bound := (size program + S Runner.MAX_RECURSION * S (size program))%nat).
  assert (Runner.valueOf host program value) as Hvalue.
  { pose proof (evaluate_ends host program (S (fuel + bound)) program ∅ 0) as Hends.
    destruct (evaluate_agrees host false fuel (S (fuel + bound)) program ∅ 0 0)%nat
      as [H'|[[H' _]|H']]; [lia|done|done|congruence|done|].
    rewrite <-H', H in Hends. apply Hends.
    - apply subexpressions_self.
    - intros x v Hx. unfold Runner.Context in Hx. by rewrite lookup_empty in Hx.
    - unfold bound. rewrite Nat.sub_0_r. lia. }
  split; [done|]. intros n ->. destruct Hvalue as [Hn _]. split.
  - unfold Runner.run. by rewrite H.
  - apply list_elem_of_fmap. by exists n.
Qed.

Lemma result_is_of_the_program_witness :
  Runner.valueOf Runner.integers identity (Runner.Reference identity) ∧
  ∀ n, Runner.Reference (host:=Runner.integers) identity = Runner.Reference n →
       Runner.run Runner.integers 1 identity
         = Runner.Return ("reference to #" +:+ pretty (label n)) ∧
       label n ∈ labels identity.
Proof.
  apply (result_is_of_the_program Runner.integers 1 identity (Runner.Reference identity)).
  reflexivity.
Defined.

(** X15.  The recursion limit only ever cuts an evaluation short: what an
    evaluation returns or throws, other than the error of the limit, it
    also returns or throws when it starts with fewer calls around it. *)
Theorem recursion_limit_only_cuts host (fuel fuel' : nat) e context (r r' : nat) outcome :
  Runner.evaluate host fuel e context r = outcome →
  outcome ≠ Runner.Unfinished →
  outcome ≠ Runner.Throw Runner.RecursionLimit →
  (fuel ≤ fuel')%nat → (r' ≤ r)%nat →
  Runner.evaluate host fuel' e context r' = outcome.
Proof.
  intros H Hun Hlim Hfuel Hr.
  destruct (evaluate_agrees host true fuel fuel' e context r r' Hfuel Hr)
    as [H'|[[_ H']|H']]; [done|congruence..].
Qed.

Lemma recursion_limit_only_cuts_witness :
  Runner.evaluate Runner.integers 6 increment ∅ 0
    = Runner.Return (Runner.Number (host:=Runner.integers) 3).
Proof.
  apply (recursion_limit_only_cuts Runner.integers 5 6 increment ∅ 99 0).
  - vm_compute. reflexivity.
  - discriminate.
  - discriminate.
  - lia.
  - lia.
Defined.

(** X17.  An error a program throws names a node of that program.  A cast
    error names the subexpression whose value was not what was needed and
    that value, which is a value of the program; a variable that is not in
    scope is a [var] node of the program, and its name is not a property of
    [Object.prototype].  [reference to fn or fun expression] is only ever
    needed of such a property. *)
Theorem thrown_errors_name_the_program host (fuel : nat) program err :
  Runner.evaluate host fuel program ∅ 0 = Runner.Throw err →
  Runner.errorOf host program err ∧
  Runner.run host fuel program = Runner.Throw err.
Proof.
  intros H. split; [|unfold Runner.run; by rewrite H].
  set (bound := (size program + S Runner.MAX_RECURSION * S (size program))%nat).
  pose proof (evaluate_ends host program (S (fuel + bound)) program ∅ 0) as Hends.
  destruct (evaluate_agrees host false fuel (S (fuel + bound)) program ∅ 0 0)%nat
    as [H'|[[H' _]|H']]; [lia|done|done|congruence|done|].
  rewrite <-H', H in Hends. apply Hends.
  - apply subexpressions_self.
  - intros x v Hx. unfold Runner.Context in Hx. by rewrite lookup_empty in Hx.
  - unfold bound. rewrite Nat.sub_0_r. lia.
Qed.

Lemma thrown_errors_name_the_program_witness :
  Runner.errorOf Runner.integers misapplied
    (Runner.CastError (NumericConstantExpression 2 1)
       (Runner.Number (host:=Runner.integers) 1) "reference") ∧
  Runner.run Runner.integers 2 misapplied
    = Runner.Throw
        (Runner.CastError (NumericConstantExpression 2 1)
           (Runner.Number (host:=Runner.integers) 1) "reference").
Proof.
  apply (thrown_errors_name_the_program Runner.integers 2 misapplied).
  reflexivity.
Defined.


(** * Rule code that takes its nodes from the environment *)

Lemma iterate_Some ix (fuel : nat) : ∀ g nodes g',
  iterate ix fuel g = Some (nodes, g') → nodes = pending ix g ∧ g' = completed.
Proof.
  induction fuel as [|fuel IH]; intros g nodes g' H; simpl in H.
  - destruct (next ix g) as [[e g1]|] eqn:Hnext; [done|].
    injection H as <- <-. by rewrite (next_None _ _ Hnext).
  - destruct (next ix g) as [[e g1]|] eqn:Hnext.
    + destruct (iterate ix fuel g1) as [[nodes1 g2]|] eqn:Hrest; [|done].
      simpl in H. injection H as <- <-.
      destruct (IH _ _ _ Hrest) as [-> ->]. by rewrite (next_Some _ _ _ _ Hnext).
    + injection H as <- <-. by rewrite (next_None _ _ Hnext).
Qed.

Lemma collected_traversal ast ix t :
  collectExpressions ast ∅ emptyIndex = OK ix →
  collected ix t = filter (λ e, type e = t) (subexpressions ast).
Proof.
  intros H. rewrite (collectExpressions_collected _ _ _ _ t H).
  unfold collected at 1. simpl. by rewrite lookup_empty.
Qed.

(** X16.  What [type(...)] yields are the nodes of the tree that have one of
    the types, and rule code that takes the nodes of its [variable]
    references from the [var] nodes it yields never fails: the solve returns
    an analysis. *)
Theorem rules_over_yielded_nodes localeCompare ast ix types (fuel : nat) nodes g :
  collectExpressions ast ∅ emptyIndex = OK ix →
  iterate ix fuel (getExpressionsOfType types) = Some (nodes, g) →
  (∀ n, n ∈ nodes ↔ n ∈ subexpressions ast ∧ type n ∈ types) ∧
  ∀ rules,
    (∀ rule v, rule ∈ rules → VariableReference v ∈ references rule →
               v ∈ nodes ∧ type v = "var") →
    ∃ an, solve localeCompare ast rules = OK an.
Proof.
  intros Hix Hit. apply iterate_Some in Hit as [-> _].
  assert (∀ n, n ∈ pending ix (getExpressionsOfType types)
               ↔ n ∈ subexpressions ast ∧ type n ∈ types) as Hnodes.
  { intros n. unfold pending. simpl. rewrite list_elem_of_bind. split.
    - intros (t & Hn & Ht). rewrite (collected_traversal _ _ _ Hix) in Hn.
      apply list_elem_of_filter in Hn as [<- Hn]. done.
    - intros [Hn Ht]. exists (type n). split; [|done].
      rewrite (collected_traversal _ _ _ Hix). by apply list_elem_of_filter. }
  split; [done|]. intros rules Hrules.
  apply (solve_resolved localeCompare ast ix rules Hix).
  apply Forall_forall. intros rule Hrule. apply Forall_forall. intros ref Href.
  destruct (resolvable_dec ix ref) as [Hok|Hnot]; [done|].
  apply referenceId_not_OK in Hnot as (v & -> & Hv).
  destruct (Hrules rule v Hrule Href) as [Hin Hvar].
  apply Hnodes in Hin as [Hin _].
  assert (is_Some (map_get v (labelOfvariableDeclaration ix))) as [b Hb].
  { by apply (declared_variables ast). }
  congruence.
Qed.

Lemma rules_over_yielded_nodes_witness :
  ∃ ix,
    collectExpressions recursiveCall ∅ emptyIndex = OK ix ∧
    (∀ n, n ∈ [VariableExpression 3 "f"; VariableExpression 4 "x"]
          ↔ n ∈ subexpressions recursiveCall ∧ type n ∈ ["var"]) ∧
    ∀ rules,
      (∀ rule v, rule ∈ rules → VariableReference v ∈ references rule →
                 v ∈ [VariableExpression 3 "f"; VariableExpression 4 "x"] ∧
                 type v = "var") →
      ∃ an, solve codeUnitCompare recursiveCall rules = OK an.
Proof.
  destruct (collectExpressions recursiveCall ∅ emptyIndex) as [ix|err] eqn:H;
    [|discriminate H].
  exists ix. split; [reflexivity|].
  apply (rules_over_yielded_nodes codeUnitCompare recursiveCall ix ["var"] 2
           [VariableExpression 3 "f"; VariableExpression 4 "x"] completed H).
  vm_compute in H. injection H as <-. reflexivity.
Defined.


(** * Rules that pass values one step *)

Lemma enactRule_frame t st e : trhs t ≠ e → dataOf (enactRule t st) e = dataOf st e.
Proof.
  intros Hne. destruct (dataOf_enactRule t st e) as (new & -> & _ & Hnew).
  destruct new as [|v new]; [by rewrite app_nil_r|].
  destruct (Hnew v) as [-> _]; [by left|done].
Qed.

Lemma enactRules_frame ts e : ∀ st,
  (∀ t, t ∈ ts → trhs t ≠ e) → dataOf (enactRules ts st) e = dataOf st e.
Proof.
  induction ts as [|t ts IH]; intros st Hts; simpl; [done|].
  rewrite IH, enactRule_frame; [done|apply Hts; by left|].
  intros t' Ht'. apply Hts. by right.
Qed.

(** The loop changes the data of those entries only that a registered rule
    has as its right-hand side. *)
Lemma drainFrom_frame fuel e : ∀ i st st',
  drainFrom fuel i st = Some st' →
  (∀ d t, t ∈ rulesOf st d → trhs t ≠ e) →
  dataOf st' e = dataOf st e.
Proof.
  induction fuel as [|fuel IH]; intros i st st' H Hst; simpl in H.
  - destruct (worklist st !! i); [done|]. by injection H as <-.
  - destruct (worklist st !! i) as [d|]; [|by injection H as <-].
    rewrite (IH _ _ _ H).
    + apply enactRules_frame. intros t. apply Hst.
    + intros d' t. rewrite rulesOf_enactRules. apply Hst.
Qed.

Lemma rulesOf_getEntryFromReference ix ref st r e :
  getEntryFromReference ix ref st = OK r → rulesOf r.2 e = rulesOf st e.
Proof.
  unfold getEntryFromReference. intros H.
  destruct (referenceKey ix ref) as [ck|err]; simpl in H; [|done].
  injection H as <-. apply rulesOf_getOrCreateEntry.
Qed.

Lemma rulesOf_getEntriesFromReferences ix refs e : ∀ st r,
  getEntriesFromReferences ix refs st = OK r → rulesOf r.2 e = rulesOf st e.
Proof.
  induction refs as [|ref refs IH]; intros st r H; simpl in H.
  - by injection H as <-.
  - destruct (getEntryFromReference ix ref st) as [r1|err] eqn:H1; simpl in H; [|done].
    destruct (getEntriesFromReferences ix refs r1.2) as [rs|err] eqn:Hrs; simpl in H;
      [|done].
    injection H as <-. simpl. rewrite (IH _ _ Hrs).
    by apply (rulesOf_getEntryFromReference ix ref).
Qed.

Lemma rulesOf_registerRules t deps : ∀ st d t',
  t' ∈ rulesOf (foldl (registerRule t) st deps) d → t' ∈ rulesOf st d ∨ t' = t.
Proof.
  induction deps as [|dep deps IH]; intros st d t' H; simpl in H; [by left|].
  apply IH in H as [H|H]; [|by right].
  apply rulesOf_registerRule in H as [H|(H & _)]; [by left|by right].
Qed.

(** The rules a definition adds to entries are the translation of the rule,
    and then the rule is a propagating one. *)
Lemma defineRule_registers ix rule st st' :
  defineRule ix rule st = OK st' →
  ∃ t idr,
    referenceId ix (rhs rule) = OK idr ∧ idOf st' (trhs t) = Some idr ∧
    ∀ d t', t' ∈ rulesOf st' d → t' ∈ rulesOf st d ∨ t' = t ∧ propagating rule.
Proof.
  unfold defineRule, propagating. intros H.
  destruct (getEntryFromReference ix (rhs rule) st) as [r|err] eqn:Hr; simpl in H; [|done].
  pose proof (λ e, rulesOf_getEntryFromReference _ _ _ _ e Hr) as Hrules.
  apply (getEntryFromReference_spec anything) in Hr as (idr & Hidr & Hir & _).
  destruct (lhs rule) as [c|ref|dynamic dependencies] eqn:Hlhs.
  - injection H as <-. exists (newRule (Values [c]) r.1 r.2).1, idr.
    split; [done|]. split; [by rewrite idOf_enactRule|].
    intros d t'. rewrite rulesOf_enactRule. simpl. rewrite <-Hrules. by left.
  - destruct (getEntryFromReference ix ref r.2) as [l|err] eqn:Hl; simpl in H; [|done].
    injection H as <-.
    pose proof (λ e, rulesOf_getEntryFromReference _ _ _ _ e Hl) as Hrules2.
    apply (getEntryFromReference_spec anything) in Hl as (idl & Hidl & Hil & Hext & _).
    exists (newRule (Data l.1) r.1 l.2).1, idr. split; [done|]. split.
    + rewrite idOf_enactRule. apply extends_registerRule. by apply Hext.
    + intros d t'. rewrite rulesOf_enactRule.
      intros [Ht'|(-> & _)]%rulesOf_registerRule; [|by right].
      left. simpl in Ht'. by rewrite <-Hrules, <-Hrules2.
  - destruct (getEntriesFromReferences ix dependencies r.2) as [ds|err] eqn:Hds; simpl in H;
      [|done].
    injection H as <-.
    pose proof (λ e, rulesOf_getEntriesFromReferences _ _ e _ _ Hds) as Hrules2.
    apply (getEntriesFromReferences_spec anything) in Hds as (idl & Hidl & Hil & Hext & _).
    exists (newRule (Computed dynamic ds.1) r.1 ds.2).1, idr. split; [done|]. split.
    + rewrite idOf_enactRule.
      pose proof (later_performAll (Register (newRule (Computed dynamic ds.1) r.1 ds.2).1
                                      <$> ds.1) (allocate ds.2)) as (Hext' & _).
      rewrite <-registerRules_actions in Hext'. by apply Hext', Hext.
    + intros d t'. rewrite rulesOf_enactRule.
      intros [Ht'| ->]%rulesOf_registerRules; [|by right].
      left. simpl in Ht'. by rewrite <-Hrules, <-Hrules2.
Qed.

Lemma defineRules_written ix all rules : ∀ st st',
  defineRules ix rules st = OK st' →
  (∀ rule, rule ∈ rules → rule ∈ all) →
  written ix all st → written ix all st'.
Proof.
  induction rules as [|rule rules IH]; intros st st' H Hall Hst; simpl in H.
  - by injection H as <-.
  - destruct (defineRule ix rule st) as [st1|err] eqn:H1; simpl in H; [|done].
    apply (IH _ _ H); [intros rule' Hin; apply Hall; by right|].
    pose proof (later_defineRule _ _ _ _ H1) as (Hext & _).
    destruct (defineRule_registers _ _ _ _ H1) as (t & idr & Hidr & Hir & Hreg).
    intros d t' [Ht'|[-> Hprop]]%Hreg.
    + destruct (Hst d t' Ht') as (rule' & id & Hin & Hp & Hid & Hi).
      exists rule', id. split; [done|]. split; [done|]. split; [done|]. by apply Hext.
    + exists rule, idr. split; [apply Hall; by left|]. done.
Qed.

Lemma Forall2_read_all {A} ix (f : string → A) (g : nat → A) st deps : ∀ ids ds,
  Forall2 (λ ref id, referenceId ix ref = OK id) deps ids →
  Forall2 (λ d id, idOf st d = Some id) ds ids →
  (∀ ref id l, ref ∈ deps → referenceId ix ref = OK id → idOf st l = Some id →
               f id = g l) →
  f <$> ids = g <$> ds.
Proof.
  induction deps as [|ref deps IH]; intros ids ds Hids Hds Hfg.
  - apply Forall2_nil_inv_l in Hids as ->. by apply Forall2_nil_inv_r in Hds as ->.
  - apply Forall2_cons_inv_l in Hids as (id & ids' & Hid & Hids & ->).
    apply Forall2_cons_inv_r in Hds as (d & ds' & Hd & Hds & ->).
    simpl. f_equal.
    + apply (Hfg ref); [by left|done..].
    + apply IH; [done..|]. intros ref' id' l Hin. apply Hfg. by right.
Qed.

(** With rules that pass values one step, the loop leaves nothing to do. *)
Lemma single_step_satisfied localeCompare ast rules an ix :
  solve localeCompare ast rules = OK an →
  collectExpressions ast ∅ emptyIndex = OK ix →
  singleStep ix rules →
  Forall monotoneRule rules →
  Forall (satisfied ix an) rules.
Proof.
  intros Hsolve Hix Hsingle Hmono.
  destruct (solve_applies _ _ _ _ Hsolve)
    as (ix' & st0 & st & Hix' & Hst0 & Hdrain & -> & Hinv0 & Hinv & Hext & Hrules).
  assert (ix' = ix) as -> by congruence.
  assert (written ix rules st0) as Hwritten.
  { apply (defineRules_written ix rules rules _ _ Hst0); [done|].
    by intros d t ?%elem_of_nil. }
  assert (∀ reader ref idl l,
            reader ∈ rules → ref ∈ reads reader → referenceId ix ref = OK idl →
            idOf st0 l = Some idl →
            valuesOf (analysis localeCompare st) idl = dataOf st0 l) as Hread.
  { intros reader ref idl l Hreader Href Hidl Hl.
    rewrite (valuesOf_analysis anything _ st l) by auto.
    apply (drainFrom_frame _ _ _ _ _ Hdrain). intros d t Ht Heq.
    destruct (Hwritten d t Ht) as (writer & id & Hwriter & Hprop & Hid & Hi).
    apply (Hsingle writer reader ref id); [done..|]. rewrite Heq in Hi. congruence. }
  rewrite Forall_forall in Hmono. apply Forall_forall. intros rule Hrule.
  destruct (Hrules rule Hrule (Hmono _ Hrule)) as (t & [(idr & Hidr & Hir) Hl] & _ & Ht).
  intros idr' Hidr'. assert (idr' = idr) as -> by congruence.
  rewrite (valuesOf_analysis anything _ st (trhs t)) by auto.
  pose proof (Hread rule) as Hread'. unfold reads in Hread'.
  destruct (lhs rule) as [c|ref|dynamic dependencies].
  - rewrite Hl in Ht. apply Ht. by left.
  - destruct Hl as (l & idl & Htl & Hidl & Hil & _). rewrite Htl in Ht.
    intros idl' Hidl'. assert (idl' = idl) as -> by congruence.
    rewrite (Hread' ref idl l); [done|done|by left|done..].
  - destruct Hl as (ds & idl & Htl & Hidl & Hil & _). rewrite Htl in Ht.
    intros idl' Hidl'. rewrite (Forall2_referenceId_inj _ _ _ _ Hidl' Hidl).
    assert (valuesOf (analysis localeCompare st) <$> idl = dataOf st0 <$> ds) as ->;
      [|done].
    apply (Forall2_read_all ix _ _ st0 dependencies); [done..|].
    intros ref id l Href. by apply Hread'.
Qed.

(** X18.  When no entry that a rule passes values to is read by a rule, the
    solver is exact: its result satisfies every rule, and as it is under
    every assignment closed under the rules it is the least fixpoint of the
    rule system.  The order of the definitions then has no bearing on the
    sets: the same rules in another order give each id the same values. *)
Theorem single_step_rules_reach_fixpoint localeCompare ast rules an ix :
  solve localeCompare ast rules = OK an →
  collectExpressions ast ∅ emptyIndex = OK ix →
  singleStep ix rules →
  Forall monotoneRule rules →
  Forall (satisfied ix an) rules ∧
  Forall (models ix (assignment an)) rules ∧
  (∀ ρ, Forall (models ix ρ) rules → ∀ id v, assignment an id v → ρ id v) ∧
  ∀ rules', rules ≡ₚ rules' →
    ∃ an', solve localeCompare ast rules' = OK an' ∧
           ∀ id, valuesOf an id ≡ₚ valuesOf an' id.
Proof.
  intros Hsolve Hix Hsingle Hmono.
  pose proof (single_step_satisfied _ _ _ _ _ Hsolve Hix Hsingle Hmono) as Hsat.
  assert (∀ rules an, Forall monotoneRule rules → Forall (satisfied ix an) rules →
                      Forall (models ix (assignment an)) rules) as Hmodels.
  { intros rs a Hm Hs. rewrite Forall_forall in Hs, Hm. apply Forall_forall.
    intros rule Hrule. apply satisfied_models; auto. }
  split; [done|]. split; [by apply Hmodels|]. split.
  { intros ρ Hρ id v. by apply (solve_least localeCompare ast rules an ix ρ). }
  intros rules' Hperm.
  destruct (solve_facts anything _ _ _ _ Hsolve) as (ix' & _ & Hix' & _ & _ & _ & _ & Hres).
  assert (ix' = ix) as -> by congruence.
  destruct (solve_resolved localeCompare ast ix rules' Hix) as [an' Hsolve'].
  { by rewrite <-Hperm. }
  exists an'. split; [done|]. intros id.
  assert (Forall (satisfied ix an') rules') as Hsat'.
  { apply (single_step_satisfied localeCompare ast); [done..| |by rewrite <-Hperm].
    intros writer reader ref idw Hw Hp Hidw Hr. apply (Hsingle writer reader ref idw);
      [by rewrite Hperm|done|done|by rewrite Hperm]. }
  apply NoDup_Permutation; [by eapply solve_NoDup..|].
  intros v. split.
  - apply (solve_least localeCompare ast rules an ix (assignment an')); [done..|].
    rewrite Hperm. apply Hmodels; [by rewrite <-Hperm|done].
  - apply (solve_least localeCompare ast rules' an' ix (assignment an)); [done..|].
    rewrite <-Hperm. by apply Hmodels.
Qed.

Lemma single_step_rules_reach_fixpoint_witness :
  ∃ ix,
    collectExpressions identity ∅ emptyIndex = OK ix ∧
    Forall (satisfied ix copyAnalysis) copyRules ∧
    Forall (models ix (assignment copyAnalysis)) copyRules ∧
    (∀ ρ, Forall (models ix ρ) copyRules → ∀ id v, assignment copyAnalysis id v → ρ id v) ∧
    ∀ rules', copyRules ≡ₚ rules' →
      ∃ an', solve codeUnitCompare identity rules' = OK an' ∧
             ∀ id, valuesOf copyAnalysis id ≡ₚ valuesOf an' id.
Proof.
  destruct (collectExpressions identity ∅ emptyIndex) as [ix|err] eqn:H; [|discriminate H].
  exists ix. split; [reflexivity|].
  apply (single_step_rules_reach_fixpoint codeUnitCompare identity copyRules copyAnalysis ix).
  - vm_compute. reflexivity.
  - exact H.
  - intros writer reader ref id Hwriter Hprop Hid Hreader Href Heq.
    unfold copyRules in Hwriter, Hreader.
    apply elem_of_cons in Hwriter as [->|Hwriter]; [exact Hprop|].
    apply list_elem_of_singleton in Hwriter as ->.
    apply elem_of_cons in Hreader as [->|Hreader];
      [by apply elem_of_nil in Href|].
    apply list_elem_of_singleton in Hreader as ->.
    apply list_elem_of_singleton in Href as ->.
    vm_compute in Hid, Heq. rewrite <-Hid in Heq. discriminate Heq.
  - repeat constructor. apply allValues_monotone.
Defined.


(** * What stops a traversal *)

Lemma offences_bind (r : Result Index) (k : Index → Result Index) (o1 o2 : list Error) :
  match r with OK _ => o1 = [] | Throw err => head o1 = Some err end →
  (∀ ix, r = OK ix →
         match k ix with OK _ => o2 = [] | Throw err => head o2 = Some err end) →
  match r ≫= k with
  | OK _ => o1 ++ o2 = []
  | Throw err => head (o1 ++ o2) = Some err
  end.
Proof.
  destruct r as [ix|err]; simpl.
  - intros -> Hk. by apply Hk.
  - intros Ho1 _. by destruct o1.
Qed.

Lemma collectExpressions_offences e : ∀ context scope ix,
  agree context scope →
  match collectExpressions e context ix with
  | OK _ => offences scope e = []
  | Throw err => head (offences scope e) = Some err
  end.
Proof.
  induction e as [l n|l b|l x|l op e1 IHe1 e2 IHe2|l e1 IHe1 e2 IHe2 e3 IHe3|l x e IHe
                 |l f x e IHe|l e1 IHe1 e2 IHe2|l x e1 IHe1 e2 IHe2];
    intros context scope ix Hag; cbn [collectExpressions offences].
  - done.
  - done.
  - rewrite (context_get_agree _ scope) by done.
    destruct (map_get x scope); [done|]. by destruct (decide _).
  - apply offences_bind; [by apply IHe1|]. intros ix1 _. by apply IHe2.
  - apply offences_bind; [by apply IHe1|]. intros ix1 _.
    apply offences_bind; [by apply IHe2|]. intros ix2 _. by apply IHe3.
  - apply IHe. by apply (agree_extend _ _ _ (FnExpression l x e)).
  - destruct (decide (f = x)); [done|]. simpl. apply IHe.
    apply (agree_extend _ _ _ (FunExpression l f x e)).
    by apply (agree_extend _ _ _ (FunExpression l f x e)).
  - apply offences_bind; [by apply IHe1|]. intros ix1 _. by apply IHe2.
  - apply offences_bind; [by apply IHe1|]. intros ix1 _. apply IHe2.
    by apply (agree_extend _ _ _ (LetExpression l x e1 e2)).
Qed.

(** X19.  The traversal returns exactly when the tree has no offending node:
    no [var] node that neither an enclosing binder nor [Object.prototype]
    gives a value, and no [fun] node whose two names are the same.
    Otherwise what it throws, and what every solve of the tree throws, is
    the error of the first offending node in the order of the traversal. *)
Theorem traversal_reports_first_offence localeCompare ast :
  (offences [] ast = [] ↔
   (∀ l x, unbound ast (VariableExpression l x) → x ∈ objectPrototype) ∧
   (∀ w, ¬ collides ast w)) ∧
  match collectExpressions ast ∅ emptyIndex with
  | OK _ => offences [] ast = []
  | Throw err =>
      head (offences [] ast) = Some err ∧
      ∀ rules, solve localeCompare ast rules = Throw err
  end.
Proof.
  pose proof (collectExpressions_offences ast ∅ [] emptyIndex agree_empty) as H.
  destruct (collectExpressions ast ∅ emptyIndex) as [ix|err] eqn:Hix.
  - split; [|done]. split; [intros _|done].
    destruct (collectExpressions_OK _ _ [] _ _ agree_empty Hix) as [Hfun Hvar]. split.
    + intros l x Hu. destruct (Hvar _ Hu) as (l' & x' & [= -> ->] & Hx). done.
    + intros w (Hw & l & f & body & ->). by apply (Hfun _ l f body Hw).
  - split; [|split; [done|intros rules; by apply solve_Throw]]. split.
    + intros Hnil. by rewrite Hnil in H.
    + intros [Hvar Hfun]. exfalso.
      destruct (collectExpressions_Throw _ _ [] _ _ agree_empty Hix)
        as [(l & x & _ & Hx & Hu)|(l & f & body & _ & Hin)].
      * by apply Hx, (Hvar l x).
      * apply (Hfun (FunExpression l f f body)). split; [done|]. eauto.
Qed.


(** * Variables and their entries *)

Lemma append_cons c s t : String c s +:+ t = String c (s +:+ t).
Proof. reflexivity. Qed.

Lemma append_empty t : "" +:+ t = t.
Proof. reflexivity. Qed.

Lemma hashFree_tail c s : hashFree (String c s) → hashFree s.
Proof. intros H a b ->. by apply (H (String c a) b). Qed.

Lemma hash_inj x1 : ∀ x2 s1 s2,
  hashFree x1 → hashFree x2 →
  x1 +:+ "#" +:+ s1 = x2 +:+ "#" +:+ s2 → x1 = x2 ∧ s1 = s2.
Proof.
  induction x1 as [|c x1 IH]; intros [|c' x2] s1 s2 H1 H2 H;
    rewrite ?append_cons, ?append_empty in H.
  - by injection H as ->.
  - injection H as <- _. by destruct (H2 "" x2).
  - injection H as -> _. by destruct (H1 "" x1).
  - injection H as -> H.
    destruct (IH x2 s1 s2) as [-> ->]; [by eapply hashFree_tail..|done|done].
Qed.

Lemma OK_inj {A} (a b : A) : OK a = OK b → a = b.
Proof. by intros [= ->]. Qed.

Lemma Str_inj (s t : string) : Str s = Str t → s = t.
Proof. by intros [= ->]. Qed.

Lemma variableKey_referenceId ix ref x l :
  variableKey ix ref = Some (x, l) →
  referenceId ix ref = OK (keyId (Str (x +:+ "#" +:+ pretty l))).
Proof.
  destruct ref as [e|v|b|f]; simpl; try done.
  - unfold referenceId. simpl.
    destruct (map_get v _) as [[l'|p]|]; try done. by intros [= <- <-].
  - by intros [= <- <-].
  - by intros [= <- <-].
Qed.

(** X20.  Variables are never mixed up: two references to variables, of
    whichever of the three kinds, resolve to the same entry exactly when
    they stand for the same name under the same binder. *)
Theorem variables_have_their_own_entries ix r1 r2 x1 l1 x2 l2 :
  variableKey ix r1 = Some (x1, l1) →
  variableKey ix r2 = Some (x2, l2) →
  hashFree x1 → hashFree x2 →
  referenceId ix r1 = referenceId ix r2 ↔ x1 = x2 ∧ l1 = l2.
Proof.
  intros H1 H2 Hx1 Hx2.
  rewrite (variableKey_referenceId _ _ _ _ H1), (variableKey_referenceId _ _ _ _ H2).
  split.
  - intros Heq%OK_inj. apply (keyId_inj (Str _) (Str _)) in Heq. apply Str_inj in Heq.
    apply hash_inj in Heq as [-> Hl]; [|done..]. split; [done|].
    by apply (inj pretty).
  - by intros [-> ->].
Qed.

Lemma variables_have_their_own_entries_witness :
  ∃ ix,
    collectExpressions recursiveCall ∅ emptyIndex = OK ix ∧
    (referenceId ix (VariableReference (VariableExpression 4 "x"))
       = referenceId ix (FunctionVariableReference recursiveCall)
     ↔ "x" = "f" ∧ 1 = 1).
Proof.
  assert (hashFree "x" ∧ hashFree "f") as [Hx Hf].
  { split; intros a b H; (destruct a as [|c a]; rewrite ?append_cons, ?append_empty in H;
      [discriminate H|]); injection H as _ H;
      destruct a; rewrite ?append_cons, ?append_empty in H; discriminate H. }
  destruct (collectExpressions recursiveCall ∅ emptyIndex) as [ix|err] eqn:H;
    [|discriminate H].
  exists ix. split; [reflexivity|].
  apply (variables_have_their_own_entries ix).
  - vm_compute in H. injection H as <-. reflexivity.
  - reflexivity.
  - exact Hx.
  - exact Hf.
Defined.


(** * The order of the values *)

Lemma defineRules_app ix a : ∀ b st,
  defineRules ix (a ++ b) st = (st1 ← defineRules ix a st; defineRules ix b st1).
Proof.
  induction a as [|rule a IH]; intros b st; simpl; [done|].
  destruct (defineRule ix rule st) as [st1|err]; simpl; [apply IH|done].
Qed.

(** The loop of [enactRule] leaves the data the insertion-ordered set it was,
    with the values it went through added. *)
Lemma enactValues_data rhs vs : ∀ st b,
  is_Some (entries st !! rhs) →
  dataOf (foldl (enactValue rhs) (st, b) vs).1 rhs
    = foldl (λ d v, set_add v d) (dataOf st rhs) vs.
Proof.
  induction vs as [|v vs IH]; intros st b Hrhs; simpl; [done|].
  destruct (decide (v ∈ dataOf st rhs)) as [Hin|Hnotin].
  - replace (set_add v (dataOf st rhs)) with (dataOf st rhs)
      by (unfold set_add; by rewrite decide_True).
    rewrite enactValue_old by done. by apply IH.
  - replace (set_add v (dataOf st rhs)) with (dataOf st rhs ++ [v])
      by (unfold set_add; by rewrite decide_False).
    rewrite enactValue_new by done.
    assert (dataOf (alterEntry (dataAdd v) rhs st) rhs = dataOf st rhs ++ [v]) as Hdata.
    { unfold dataOf, alterEntry. simpl. rewrite lookup_alter_entry, decide_True by done.
      by destruct Hrhs as [ie ->]. }
    rewrite IH; [by rewrite Hdata|].
    unfold alterEntry. simpl. rewrite lookup_alter_entry, decide_True by done.
    destruct Hrhs as [ie ->]. by eexists.
Qed.

Lemma enactRule_data t st e :
  is_Some (entries st !! trhs t) →
  dataOf (enactRule t st) e =
    if decide (e = trhs t)
    then foldl (λ d v, set_add v d) (dataOf st e) (evaluate st (tlhs t))
    else dataOf st e.
Proof.
  intros Hrhs. destruct (decide (e = trhs t)) as [->|Hne].
  - rewrite <-(enactValues_data (trhs t) (evaluate st (tlhs t)) st false Hrhs).
    unfold enactRule. by destruct (foldl _ _ _).2.
  - by apply enactRule_frame.
Qed.

(** The drain loop is a turn for each entry of the worklist it leaves, in the
    order of the worklist. *)
Lemma drainFrom_fold fuel : ∀ i st st',
  drainFrom fuel i st = Some st' → st' = foldl turn st (drop i (worklist st')).
Proof.
  induction fuel as [|fuel IH]; intros i st st' H; simpl in H.
  - destruct (worklist st !! i) eqn:Hi; [done|]. injection H as <-.
    apply lookup_ge_None in Hi. by rewrite drop_ge.
  - destruct (worklist st !! i) as [entry|] eqn:Hi.
    + pose proof (worklist_enactRules (rulesOf st entry) st) as Hturn.
      pose proof (drainFrom_worklist _ _ _ _ H) as Hrest.
      assert (worklist st' !! i = Some entry) as Hi'.
      { apply (prefix_lookup_Some _ _ _ _ (prefix_lookup_Some _ _ _ _ Hi Hturn) Hrest). }
      rewrite (drop_S _ _ _ Hi'). simpl. by apply IH.
    + injection H as <-. apply lookup_ge_None in Hi. by rewrite drop_ge.
Qed.

Lemma turns_actions entries : ∀ st, ∃ actions, foldl turn st entries = performAll st actions.
Proof.
  induction entries as [|entry entries IH]; intros st; simpl; [by exists []|].
  destruct (IH (turn st entry)) as (actions & ->). unfold turn.
  rewrite enactRules_actions. eexists. by rewrite <-performAll_app.
Qed.

(** C6.  For a consistent [localeCompare], the analysis a solve returns lists
    first the entries with a numeric key, by ascending key, then the entries
    with a string key, ascending in the order of [localeCompare].  The list of
    an entry is the data of that entry in the store the drain loop of this
    solve leaves, as the store holds it.  That is the order of insertion: the
    data the entry has after any of the definitions of the solve, and after
    any enactment of a rule in any turn of its drain loop, is an initial part
    of the list, and an enactment adds, at the end, the values the rule yields
    that the entry does not have, in the order the rule yields them. *)
Theorem analysis_is_sorted (localeCompare : string → string → Z) ast rules an :
  Consistent localeCompare →
  solve localeCompare ast rules = OK an →
  ∃ (numeric : list (Z * list Atom)) (textual : list (string * list Atom)) ix st0 st,
    an = ((λ nv, (entryId "C" (Num nv.1), nv.2)) <$> numeric) ++
         ((λ sv, (entryId "p" (Str sv.1), sv.2)) <$> textual) ∧
    StronglySorted Z.le numeric.*1 ∧
    StronglySorted (λ a b, localeCompare a b ≤ 0) textual.*1 ∧
    collectExpressions ast ∅ emptyIndex = OK ix ∧
    defineRules ix rules initialState = OK st0 ∧
    drain st0 = Some st ∧
    st = foldl turn st0 (worklist st) ∧
    an = analysis localeCompare st ∧
    (∀ id vs, (id, vs) ∈ an →
       ∃ e, idOf st e = Some id ∧
            vs = dataOf st e ∧
            (∀ before after, rules = before ++ after →
               ∃ st1, defineRules ix before initialState = OK st1 ∧
                      dataOf st1 e `prefix_of` vs) ∧
            (∀ visited entry pending (k : nat),
               worklist st = visited ++ entry :: pending →
               dataOf (enactRules (take k (rulesOf (foldl turn st0 visited) entry))
                         (foldl turn st0 visited)) e `prefix_of` vs)) ∧
    (∀ t s e, is_Some (entries s !! trhs t) →
       dataOf (enactRule t s) e =
         if decide (e = trhs t)
         then foldl (λ d v, set_add v d) (dataOf s e) (evaluate s (tlhs t))
         else dataOf s e).
Proof.
  intros Hc (ix & st0 & st & Hix & Hst0 & Hd & -> & _ & Hinv)%(solve_OK anything).
  assert (invariant anything st) as Hst.
  { apply Hinv, Forall_forall. intros. apply models_anything. }
  destruct (sorted_entries_split localeCompare
              (sort (compareEntries localeCompare) (entries st)))
    as (numeric & textual & Heq & Hn & Ht & _).
  { by apply sort_sorted, compareEntries_consistent. }
  { intros id en Hin. rewrite sort_Permutation in Hin. by apply (inv_key _ _ Hst). }
  pose proof (drainFrom_fold _ _ _ _ Hd) as Hfold. rewrite drop_0 in Hfold.
  exists numeric, textual, ix, st0, st. rewrite (analysis_spec anything) at 1 by done.
  split; [done|]. split; [done|]. split; [done|]. split; [done|]. split; [done|].
  split; [done|]. split; [done|]. split; [done|]. split; [|intros t s e; apply enactRule_data].
  intros id vs (en & Hin & ->)%(elem_of_analysis anything); [|done].
  apply list_elem_of_lookup in Hin as (e & He). exists e.
  rewrite <-(dataOf_lookup _ _ _ _ He).
  split; [apply idOf_Some; eauto|]. split; [done|]. split.
  - intros before after ->. rewrite defineRules_app in Hst0.
    destruct (defineRules ix before initialState) as [st1|err] eqn:Hst1; simpl in Hst0;
      [|done].
    exists st1. split; [done|].
    apply defineRules_actions in Hst0 as (a1 & ->).
    apply drainFrom_actions in Hd as (a2 & ->). rewrite <-performAll_app.
    destruct (dataOf_performAll (a1 ++ a2) st1 e) as (new & -> & _). by exists new.
  - intros visited entry pending k Hw. rewrite Hw in Hfold.
    rewrite foldl_app in Hfold. simpl in Hfold.
    set (s := foldl turn st0 visited) in *.
    assert (turn s entry
            = enactRules (drop k (rulesOf s entry)) (enactRules (take k (rulesOf s entry)) s))
      as Hturn.
    { unfold turn, enactRules. by rewrite <-foldl_app, take_drop. }
    rewrite Hturn in Hfold.
    destruct (turns_actions pending
                (enactRules (drop k (rulesOf s entry))
                   (enactRules (take k (rulesOf s entry)) s))) as (a2 & Ha2).
    rewrite Ha2, enactRules_actions, <-performAll_app in Hfold.
    destruct (dataOf_performAll ((Enact <$> drop k (rulesOf s entry)) ++ a2)
                (enactRules (take k (rulesOf s entry)) s) e) as (new & Hnew & _).
    rewrite <-Hfold in Hnew. rewrite Hnew. by exists new.
Qed.

Lemma analysis_is_sorted_witness :
  Consistent codeUnitCompare ∧
  solve codeUnitCompare recursiveCall mixedRules = OK mixedAnalysis ∧
  ∃ (numeric : list (Z * list Atom)) (textual : list (string * list Atom)) ix st0 st,
    mixedAnalysis = ((λ nv, (entryId "C" (Num nv.1), nv.2)) <$> numeric) ++
                    ((λ sv, (entryId "p" (Str sv.1), sv.2)) <$> textual) ∧
    StronglySorted Z.le numeric.*1 ∧
    StronglySorted (λ a b, codeUnitCompare a b ≤ 0) textual.*1 ∧
    collectExpressions recursiveCall ∅ emptyIndex = OK ix ∧
    defineRules ix mixedRules initialState = OK st0 ∧
    drain st0 = Some st ∧
    st = foldl turn st0 (worklist st) ∧
    mixedAnalysis = analysis codeUnitCompare st ∧
    (∀ id vs, (id, vs) ∈ mixedAnalysis →
       ∃ e, idOf st e = Some id ∧
            vs = dataOf st e ∧
            (∀ before after, mixedRules = before ++ after →
               ∃ st1, defineRules ix before initialState = OK st1 ∧
                      dataOf st1 e `prefix_of` vs) ∧
            (∀ visited entry pending (k : nat),
               worklist st = visited ++ entry :: pending →
               dataOf (enactRules (take k (rulesOf (foldl turn st0 visited) entry))
                         (foldl turn st0 visited)) e `prefix_of` vs)) ∧
    (∀ t s e, is_Some (entries s !! trhs t) →
       dataOf (enactRule t s) e =
         if decide (e = trhs t)
         then foldl (λ d v, set_add v d) (dataOf s e) (evaluate s (tlhs t))
         else dataOf s e).
Proof.
  split; [exact codeUnitCompare_consistent|]. split; [reflexivity|].
  exact (analysis_is_sorted codeUnitCompare recursiveCall mixedRules mixedAnalysis
           codeUnitCompare_consistent eq_refl).
Defined.
